(** * ideep computations: cache, keys, format negotiation and fusion

  A shallow embedding of the parts of [include/ideep/computations.hpp]
  that manage cached computation objects, derive their keys, negotiate
  tensor layouts and rewrite pending convolutions (activation, residual
  sum and batch-normalization folding), with the properties proved about
  them. *)

From Stdlib Require Import ZArith Lia Strings.Byte Floats.SpecFloat.
From stdpp Require Import base tactics option list strings.

Open Scope Z_scope.

(** ** Operator kinds

  Every struct of computations.hpp that inherits
  [utils::computation_cache<...>] owns one cache. *)
Inductive op_kind :=
| op_reorder
| op_sum
| op_convolution_forward
| op_convolution_backward_data
| op_convolution_backward_weights
| op_convolution_transpose_forward
| op_convolution_transpose_backward_data
| op_convolution_transpose_backward_weights
| op_lrn_forward
| op_lrn_backward
| op_pooling_forward
| op_pooling_backward
| op_eltwise_forward
| op_eltwise_backward
| op_concat
| op_batch_normalization_forward_inference
| op_batch_normalization_forward_training
| op_batch_normalization_backward
| op_inner_product_forward
| op_inner_product_backward_data
| op_inner_product_backward_weights.

#[global] Instance op_kind_eq_dec : EqDecision op_kind.
Proof. solve_decision. Defined.

(** ** Scalars, enumerations and byte strings *)

(** [float] values are IEEE binary32 numbers. *)
Definition float := spec_float.
Definition float_1_0 : float := S754_finite false 8388608 (-23).
Definition float_0_0 : float := S754_zero false.
Definition float_m1_0 : float := S754_finite true 8388608 (-23).

(** The enumerations of the engine that the source names. *)
Module kind.
Inductive t := undef | memory | view | reorder | concat | sum | convolution | eltwise.
End kind.

Module algorithm.
Inductive t :=
  | convolution_direct
  | deconvolution_direct
  | eltwise_relu
  | lrn_across_channels.
End algorithm.

Module prop_kind.
Inductive t := forward_training | forward_inference | backward | backward_data.
Definition forward := forward_training.
Definition forward_scoring := forward_inference.
End prop_kind.

Module padding_kind.
Inductive t := zero.
End padding_kind.

Module round_mode.
Inductive t := round_nearest | round_down.
End round_mode.

Module data_type.
Inductive t := data_undef | f32 | s32 | s16 | s8 | u8.
End data_type.

Module format.
Inductive t := format_undef | any | x | nc | nchw | oi | oihw | goihw | blocked (tag : Z).
End format.

#[global] Instance algorithm_eq_dec : EqDecision algorithm.t.
Proof. solve_decision. Defined.
#[global] Instance data_type_eq_dec : EqDecision data_type.t.
Proof. solve_decision. Defined.
#[global] Instance format_eq_dec : EqDecision format.t.
Proof. solve_decision. Defined.
#[global] Instance byte_eq_dec : EqDecision byte := Byte.byte_eq_dec.

(** [utils::bytestring] is a [std::string]. *)
Definition bytestring := list byte.
Definition dot : byte := x2e.

(** [tensor::dims] is a vector of ints. *)
Definition dims := list Z.

(** The overloads of [utils::to_bytes] (utils.hpp), one per argument
    type.  The encodings of scalars, enumerations and vectors are not part
    of the sources: they are parameters of what follows. *)
Class ToBytes (A : Type) := to_bytes : A → bytestring.
#[global] Hint Mode ToBytes ! : typeclass_instances.

(** ** Post operations and attributes ([descriptor_group]) *)

(** One entry of an [mkldnn_post_ops_t] sequence.  [append] only ever adds
    a sum or an eltwise entry. *)
Inductive post_op :=
  | post_sum (scale : float)
  | post_eltwise (scale : float) (alg : algorithm.t) (alpha beta : float).

Module post_ops.
Definition t := list post_op.

Definition num_ops (p : t) : nat := length p.

Definition op_kind (op : post_op) : kind.t :=
  match op with
  | post_sum _ => kind.sum
  | post_eltwise _ _ _ _ => kind.eltwise
  end.

Definition append (p : t) (k : kind.t) (scale alpha beta : float)
    (alg : algorithm.t) : t :=
  match k with
  | kind.sum => p ++ [post_sum scale]
  | kind.eltwise => p ++ [post_eltwise scale alg alpha beta]
  | _ => p
  end.

(** [get_params]: for a sum entry only the scale is read, the other
    components keep their initial values. *)
Definition get_params (op : post_op)
    : kind.t * float * float * float * algorithm.t :=
  match op with
  | post_sum scale =>
      (kind.sum, scale, float_1_0, float_0_0, algorithm.eltwise_relu)
  | post_eltwise scale alg alpha beta =>
      (kind.eltwise, scale, alpha, beta, alg)
  end.

Section to_bytes.
Context `{!ToBytes kind.t, !ToBytes float, !ToBytes algorithm.t}.

(** The bytes one iteration of the loop of [to_bytes] appends. *)
Definition item_bytes (op : post_op) : bytestring :=
  let '(akind, scale, alpha, beta, alg) := get_params op in
  match akind with
  | kind.sum => to_bytes akind ++ dot :: to_bytes scale
  | kind.eltwise =>
      to_bytes akind ++ dot :: to_bytes scale
        ++ dot :: to_bytes alpha ++ dot :: to_bytes beta
        ++ dot :: to_bytes alg
  | _ => []
  end.

(** [post_ops::to_bytes]: [ret] starts empty and every entry, in order,
    appends its bytes. *)
Definition to_bytes (p : t) : bytestring :=
  fold_left (λ ret op, ret ++ item_bytes op) p [].
End to_bytes.

(** Helper factories. *)
Definition sum (scale : float) : t :=
  append [] kind.sum scale float_1_0 float_0_0 algorithm.eltwise_relu.

Definition relu (scale alpha beta : float) : t :=
  append [] kind.eltwise scale alpha beta algorithm.eltwise_relu.

Definition residual (scale alpha beta : float) : t :=
  append (append [] kind.sum scale float_1_0 float_0_0 algorithm.eltwise_relu)
    kind.eltwise scale alpha beta algorithm.eltwise_relu.
End post_ops.

Module attr_t.
(** A primitive attribute: an engine object holding a rounding mode,
    output scales with their mask and a post-op sequence. *)
Record t := Make {
  int_output_round_mode : round_mode.t;
  output_scales : list float * Z;
  get_post_ops : post_ops.t
}.

(** [attr_t()]: a fresh engine object with the engine's defaults. *)
Definition create : t :=
  Make round_mode.round_nearest ([float_1_0], 0) [].

Definition set_int_output_round_mode (a : t) (mode : round_mode.t) : t :=
  Make mode (output_scales a) (get_post_ops a).

Definition set_output_scales (a : t) (mask : Z) (scales : list float) : t :=
  Make (int_output_round_mode a) (scales, mask) (get_post_ops a).

Definition set_post_ops (a : t) (ops : post_ops.t) : t :=
  Make (int_output_round_mode a) (output_scales a) ops.

Section to_bytes.
Context `{!ToBytes kind.t, !ToBytes float, !ToBytes algorithm.t,
          !ToBytes (list float), !ToBytes Z}.

(** [attr_t::to_bytes]. *)
Definition to_bytes (a : t) : bytestring :=
  let bytes := post_ops.to_bytes (get_post_ops a) in
  let scales := output_scales a in
  bytes ++ to_bytes scales.1 ++ to_bytes scales.2.
End to_bytes.

Definition fuse_sum (scale : float) : t :=
  set_post_ops create (post_ops.sum scale).

Definition fuse_relu (scale alpha beta : float) : t :=
  set_post_ops create (post_ops.relu scale alpha beta).

Definition residual (scale alpha beta : float) : t :=
  set_post_ops create (post_ops.residual scale alpha beta).
End attr_t.

(** ** The computation cache *)
Module Cache.
Section LRU.
Context {K : Type} `{EqDecision K}.

(** Bound on the number of resident objects of one operator kind. *)
Variable capacity : nat.
(** The engine's [build]: [true] when the configuration behind a key
    compiles, [false] for a construction failure. *)
Variable build_ok : K → bool.

(** A built computation object.  The serial number is the identity of
    the object: two constructions never share it. *)
Record computation := Computation { comp_key : K; comp_serial : nat }.

(** Modelled from the spec: the store behind [fetch_or_create_m]
    (lru_cache.hpp and the macro are not part of the sources).  Section
    4.1: an LRU store of bounded capacity per operator kind; a hit
    returns the resident object, a miss builds, inserts and evicts the
    least recently used entry when the bound is exceeded; a failed
    construction is propagated and not cached.  [store] is ordered from
    most to least recently used; [built] records, newest first, the key
    of every construction. *)
Record t := Make {
  store : list (K * computation);
  serial : nat;
  built : list K
}.

Definition empty : t := Make [] 0 [].

Fixpoint find (k : K) (l : list (K * computation)) : option computation :=
  match l with
  | [] => None
  | (k', c) :: l' => if decide (k = k') then Some c else find k l'
  end.

Fixpoint remove (k : K) (l : list (K * computation)) : list (K * computation) :=
  match l with
  | [] => []
  | (k', c) :: l' => if decide (k = k') then remove k l' else (k', c) :: remove k l'
  end.

(** Modelled from the spec: a hit makes the entry the most recent one. *)
Definition touch (k : K) (c : computation) (l : list (K * computation)) :=
  (k, c) :: remove k l.

(** Modelled from the spec: insertion in front, eviction at the back. *)
Definition insert (k : K) (c : computation) (l : list (K * computation)) :=
  take capacity ((k, c) :: l).

(** Modelled from the spec: [fetch_or_create(key, args...)]. *)
Definition fetch_or_create (k : K) (st : t) : option computation * t :=
  match find k (store st) with
  | Some c => (Some c, Make (touch k c (store st)) (serial st) (built st))
  | None =>
      if build_ok k then
        let c := Computation k (serial st) in
        (Some c, Make (insert k c (store st)) (S (serial st)) (k :: built st))
      else (None, st)
  end.

(** What holds of a store as long as nothing was evicted: the resident
    keys are pairwise distinct, lie in the universe [U] of allowed keys,
    and are exactly the keys constructed so far. *)
Definition resident_inv (U : list K) (st : t) : Prop :=
  NoDup (store st).*1 ∧
  (∀ k, k ∈ (store st).*1 → k ∈ U) ∧
  (∀ k, k ∈ built st ↔ k ∈ (store st).*1) ∧
  NoDup (built st).

(** The calls on one cache, leaving the returned objects aside. *)
Definition run (ks : list K) (st : t) : t :=
  foldl (λ st k, (fetch_or_create k st).2) st ks.

End LRU.

(** The caches of all operator kinds, each a store of its own. *)
Section PerKind.
Context {K : Type} `{EqDecision K}.
Variable capacity : nat.
Variable build_ok : op_kind → K → bool.

Definition caches := op_kind → t (K:=K).

Definition no_caches : caches := λ _, empty.

Definition fetch_or_create_m (kind : op_kind) (k : K) (cs : caches)
  : option (computation (K:=K)) * caches :=
  let '(r, st) := fetch_or_create capacity (build_ok kind) k (cs kind) in
  (r, λ kind', if decide (kind' = kind) then st else cs kind').

Fixpoint run_m (calls : list (op_kind * K)) (cs : caches)
  : list (option (computation (K:=K))) * caches :=
  match calls with
  | [] => ([], cs)
  | (kind, k) :: calls' =>
      let '(r, cs1) := fetch_or_create_m kind k cs in
      let '(rs, cs2) := run_m calls' cs1 in
      (r :: rs, cs2)
  end.

(** The keys a sequence of calls sends to one operator kind. *)
Definition keys_of (kind : op_kind) (calls : list (op_kind * K)) : list K :=
  (filter (λ c, c.1 = kind) calls).*2.

(** The claim as the spec words it: whatever the calls, no (operator
    kind, key) pair is constructed twice, and a later call with an equal
    pair returns the object an earlier call returned. *)
Definition at_most_once (calls : list (op_kind * K)) : Prop :=
  let '(rs, cs) := run_m calls no_caches in
  (∀ kind, NoDup (built (cs kind))) ∧
  ∀ i j call c, (i ≤ j)%nat → calls !! i = Some call → calls !! j = Some call →
    rs !! i = Some (Some c) → rs !! j = Some (Some c).

(** The calls that never overflow a cache: no operator kind sees more
    distinct keys than its cache holds. *)
Definition within_capacity (calls : list (op_kind * K)) : Prop :=
  ∀ kind, (length (remove_dups (keys_of kind calls)) ≤ capacity)%nat.

(** Every cache is as [resident_inv] says, for the universe [U] of its
    operator kind; and the object [c] is resident for the key [k] of
    [kind]. *)
Definition resident_all (U : op_kind → list K) (cs : caches) : Prop :=
  ∀ kind, resident_inv (U kind) (cs kind).

Definition resident_in (cs : caches) (kind : op_kind) (k : K)
    (c : computation) : Prop :=
  find k (store (cs kind)) = Some c.
End PerKind.

(** One more distinct key than a cache holds, then the first key again,
    all for one operator kind; the keys are numbers here. *)
Definition overflowing (capacity : nat) : list (op_kind * nat) :=
  (λ k, (op_convolution_forward, k)) <$> (seq 0 (S capacity) ++ [0%nat]).
End Cache.

(** ** Tensors *)

Record descriptor := Descriptor {
  desc_dims : dims;
  desc_data_type : data_type.t;
  desc_format : format.t
}.

#[global] Instance descriptor_eq_dec : EqDecision descriptor.
Proof. solve_decision. Defined.

(** A raw buffer handle; [nullptr] is no buffer. *)
Definition handle := N.
Definition nullptr : handle := 0%N.

(** Modelled from the spec: the tensor of tensor.hpp, which is not part
    of the sources.  Section 3: a descriptor, a reference to a memory
    buffer, whether the tensor is materialized, and the optional list of
    auxiliary tensors attached for fusion bookkeeping ([opts]). *)
#[warnings="-register-all"]
Inductive tensor := Tensor {
  get_descriptor : descriptor;
  get_data_handle : handle;
  is_materialized : bool;
  opts : option (list tensor)
}.

Definition get_dims (t : tensor) : dims := desc_dims (get_descriptor t).
Definition get_data_type (t : tensor) : data_type.t := desc_data_type (get_descriptor t).
Definition get_internal_format (t : tensor) : format.t := desc_format (get_descriptor t).

(** Modelled from the spec: [init(desc, buffer)] binds a buffer to a
    descriptor; the result is materialized and carries no [opts]. *)
Definition init (d : descriptor) (h : handle) : tensor := Tensor d h true None.

(** Modelled from the spec: the [opts] side channel.  [has_opts] tells
    whether a list is attached, [opts()] is the list, and [set_opts]
    attaches one more tensor at the end of it. *)
Definition has_opts (t : tensor) : bool := bool_decide (is_Some (opts t)).

Definition set_opts (t : tensor) (x : tensor) : tensor :=
  Tensor (get_descriptor t) (get_data_handle t) (is_materialized t)
    (Some (default [] (opts t) ++ [x])).

(** ** The computation web (web.hpp): nodes and fusion attributes *)

Inductive prop_kind_t := CN_PROP_NA | CN_PROP_FORWARD | CN_PROP_BACKWARD.

Inductive fusion_type_t :=
  CN_FUSION_NA | CN_FUSION_RELU | CN_FUSION_SUM | CN_FUSION_BN.

Record fusion_attr_t := FusionAttr {
  ftype : fusion_type_t;
  fattrs : list float;
  deps : list tensor
}.

(** What the closure of [init_web_opt_fusion] captures by value; the
    closure of [init_web_opt_folding] captures [src_in] as well. *)
Record capture := Capture {
  cap_src : tensor;
  cap_weights : tensor;
  cap_bias : tensor;
  cap_dst_dims : dims;
  cap_strides : dims;
  cap_dilates : dims;
  cap_padding_l : dims;
  cap_padding_r : dims;
  cap_algorithm : algorithm.t;
  cap_prop_kind : prop_kind.t;
  cap_padding_kind : padding_kind.t
}.

(** A computation object as a node holds it: the object fetched from the
    cache and, for a convolution built with [web_opt], its two closures
    [conv_fuse_] and [conv_bn_folding_] ([None] is the null pointer). *)
Record computation_t := Computation {
  comp_cached : Cache.computation (K:=bytestring);
  conv_fuse_ : option capture;
  conv_bn_folding_ : option (capture * tensor)
}.

Definition plain (c : Cache.computation (K:=bytestring)) : computation_t :=
  Computation c None None.

(** A [computation_node]: the computation, its propagation kind, the
    fusion attribute it offers to its producer, the producers ([cn_deps])
    and the targets ([cn_tars]). *)
Record computation_node := Node {
  cn_kind : op_kind;
  cn_comp : computation_t;
  cn_prop : prop_kind_t;
  cn_fattr : fusion_attr_t;
  cn_deps : list tensor;
  cn_tars : list tensor
}.

(** [cn_t] is a shared pointer to a node; [None] is [nullptr]. *)
Definition cn_t := option computation_node.

Definition no_fusion : fusion_attr_t := FusionAttr CN_FUSION_NA [] [].

(** ** The state the operators act on, and their errors *)

(** A call that reached the engine: a reorder or another cached
    computation, or a sum, whose primitive is built for the call and kept
    in no cache. *)
Inductive event :=
  | ev_reorder (op : Cache.computation (K:=bytestring)) (input output : tensor)
  | ev_execute (kind : op_kind) (op : Cache.computation (K:=bytestring))
      (inputs : list tensor) (output : tensor)
  | ev_sum (scales : list float) (inputs : list tensor) (output : tensor).

(** Section 7 of the spec names the first three; [out_of_range] is what
    [std::vector::at] throws; [undefined_behaviour] stands for what the
    language leaves undefined. *)
Inductive error :=
  | ConstructionError
  | ExecutionError
  | IncompatibleBindingError
  | out_of_range
  | undefined_behaviour.

(** The process state: the caches of all operator kinds, the queue of
    enqueued nodes (oldest first), the calls submitted to the engine
    (oldest first), and the next buffer the scratch allocator hands out. *)
Record world := World {
  caches : Cache.caches (K:=bytestring);
  web : list computation_node;
  trace : list event;
  next_buffer : handle
}.

(** A computation on a state [S] that may throw; what it did to the
    state before throwing stays done. *)
Definition M (S A : Type) : Type := S → (error + A) * S.

Definition ret {S A} (a : A) : M S A := λ s, (inr a, s).
Definition throw {S A} (e : error) : M S A := λ s, (inl e, s).
Definition bind {S A B} (m : M S A) (f : A → M S B) : M S B :=
  λ s, match m s with
       | (inr a, s') => f a s'
       | (inl e, s') => (inl e, s')
       end.

Declare Scope M_scope.
Delimit Scope M_scope with M.
Notation "x <- m ;; k" := (bind m (λ x, k))
  (at level 100, m at next level, right associativity) : M_scope.
Notation "m ;; k" := (bind m (λ _, k))
  (at level 100, right associativity) : M_scope.

(** [v.at(i)]. *)
Definition at_ {S A} (v : list A) (i : nat) : M S A :=
  match v !! i with
  | Some a => ret a
  | None => throw out_of_range
  end.

(** [v[i]] and [*p].  Reading past the end of a vector or through a null
    pointer is undefined behaviour; it is modelled as an error. *)
Definition index_ {S A} (v : list A) (i : nat) : M S A :=
  match v !! i with
  | Some a => ret a
  | None => throw undefined_behaviour
  end.

Definition deref {S A} (p : option A) : M S A :=
  match p with
  | Some a => ret a
  | None => throw undefined_behaviour
  end.

(** ** What the operators consume from utils.hpp, web.hpp, tensor.hpp and
    the engine *)

(** The helpers and engine entry points that are not part of the sources,
    as parameters. *)
Class Env := {
  (** the bound of every [utils::computation_cache] *)
  capacity : nat;
  (** the engine's [build]: does the configuration behind a key compile *)
  build_ok : op_kind → bytestring → bool;
  (** the engine's [execute]: does the submitted primitive run *)
  execute_ok : event → bool;
  (** [utils::to_bytes] on the argument types of [utils::create_key] *)
  kind_bytes :: ToBytes kind.t;
  float_bytes :: ToBytes float;
  algorithm_bytes :: ToBytes algorithm.t;
  floats_bytes :: ToBytes (list float);
  int_bytes :: ToBytes Z;
  dims_bytes :: ToBytes dims;
  data_type_bytes :: ToBytes data_type.t;
  format_bytes :: ToBytes format.t;
  prop_kind_bytes :: ToBytes prop_kind.t;
  padding_kind_bytes :: ToBytes padding_kind.t;
  (** how [utils::create_key] joins the bytes of its arguments *)
  join_key : list bytestring → bytestring;
  (** the layouts the engine expects of a built convolution *)
  expected_src_descriptor : Cache.computation (K:=bytestring) → descriptor;
  expected_weights_descriptor : Cache.computation (K:=bytestring) → descriptor;
  expected_dst_descriptor : Cache.computation (K:=bytestring) → descriptor;
  (** [tensor::is_empty], [tensor::as_weights] and
      [tensor::reinit<alloc, computation_t>(desc)], which is handed the
      allocator's next buffer *)
  is_empty : tensor → bool;
  as_weights : tensor → tensor;
  reinit : tensor → descriptor → handle → tensor;
  (** [operator==] of tensors *)
  tensor_eq : tensor → tensor → bool;
  (** the answer of [computation_node::build_deps] for a node and its
      producers, in the current state of the web *)
  deps_built : list computation_node → computation_node → list tensor → bool;
  (** [param::descriptor::public_compatible_format(desc)] *)
  public_compatible_format : descriptor → format.t;
  (** the engine's construction of a sum primitive from the scales, the
      descriptors of the inputs and, when one is given, the descriptor of
      the output: does it compile, and the descriptor it expects of the
      output *)
  sum_build_ok : list float → list descriptor → option descriptor → bool;
  sum_expected_dst_descriptor : list float → list descriptor → descriptor
}.

Section Operators.
Context `{!Env}.
Open Scope M_scope.

(** *** Cache and allocator *)

(** Modelled from the spec: [utils::create_key(args...)], the arguments
    in order, each through its [to_bytes] overload. *)
Definition create_key (pieces : list bytestring) : bytestring := join_key pieces.

(** The macro [fetch_or_create_m(op, key, args...)] on the cache of
    [kind]; a failed construction throws. *)
Definition fetch_or_create_m (kind : op_kind) (key : bytestring)
    : M world (Cache.computation (K:=bytestring)) :=
  λ w,
    let '(r, cs) := Cache.fetch_or_create_m capacity build_ok kind key (caches w) in
    let w' := World cs (web w) (trace w) (next_buffer w) in
    match r with
    | Some c => (inr c, w')
    | None => (inl ConstructionError, w')
    end.

(** The next buffer of [utils::scratch_allocator]. *)
Definition allocate : M world handle :=
  λ w, (inr (next_buffer w),
        World (caches w) (web w) (trace w) (N.succ (next_buffer w))).

(** [t.init<utils::scratch_allocator, computation_t>(desc)]. *)
Definition init_scratch (d : descriptor) : M world tensor :=
  h <- allocate ;; ret (init d h).

(** A call submitted to the engine's stream. *)
Definition submit (e : event) : M world unit :=
  λ w,
    if execute_ok e
    then (inr tt, World (caches w) (web w) (trace w ++ [e]) (next_buffer w))
    else (inl ExecutionError, w).

(** *** The web *)

(** Modelled from the spec: [computation_node::create(comp, prop, fattr,
    target)]. *)
Definition create (kind : op_kind) (comp : computation_t) (prop : prop_kind_t)
    (fattr : fusion_attr_t) (target : tensor) : computation_node :=
  Node kind comp prop fattr [] [target].

(** Modelled from the spec: [cn->build_deps(producers...)] records the
    producers in the node and tells whether the node can be deferred. *)
Definition build_deps (cn : computation_node) (producers : list tensor)
    : M world (bool * computation_node) :=
  λ w, (inr (deps_built (web w) cn producers,
             Node (cn_kind cn) (cn_comp cn) (cn_prop cn) (cn_fattr cn)
                  producers (cn_tars cn)), w).

(** Modelled from the spec: [computation_node::enqueue(cn)]. *)
Definition enqueue (cn : computation_node) : M world unit :=
  λ w, (inr tt, World (caches w) (web w ++ [cn]) (trace w) (next_buffer w)).

(** What [fuse_if_necessary] acts on besides the process state: the
    target [dst] it is handed by reference, the computation [pre_comp]
    points to, and the weights tensor that the copy of the folding closure
    it calls holds ([None] before the copy is taken). *)
Record fuse_state := FuseState {
  fs_world : world;
  fs_dst : tensor;
  fs_pre_comp : computation_t;
  fs_weights : option tensor
}.

Definition in_world {A} (m : M world A) : M fuse_state A :=
  λ s, let '(r, w) := m (fs_world s) in
       (r, FuseState w (fs_dst s) (fs_pre_comp s) (fs_weights s)).

Definition get_dst : M fuse_state tensor := λ s, (inr (fs_dst s), s).
Definition put_dst (dst : tensor) : M fuse_state unit :=
  λ s, (inr tt, FuseState (fs_world s) dst (fs_pre_comp s) (fs_weights s)).
Definition get_pre_comp : M fuse_state computation_t :=
  λ s, (inr (fs_pre_comp s), s).
Definition put_pre_comp (comp : computation_t) : M fuse_state unit :=
  λ s, (inr tt, FuseState (fs_world s) (fs_dst s) comp (fs_weights s)).
Definition get_weights : M fuse_state tensor :=
  λ s, match fs_weights s with
       | Some weights => (inr weights, s)
       | None => (inl undefined_behaviour, s)
       end.
Definition put_weights (weights : tensor) : M fuse_state unit :=
  λ s, (inr tt, FuseState (fs_world s) (fs_dst s) (fs_pre_comp s) (Some weights)).

(** *** [reorder] *)

(** [reorder::do_compute(input, output)], that is [operator()]: the
    reorder is submitted to the default stream. *)
Definition reorder_do_compute (op : Cache.computation (K:=bytestring))
    (input output : tensor) : M world unit :=
  submit (ev_reorder op input output).

(** [reorder::compute<sync_reorder, web_opt>(input, output, attr)]. *)
Definition reorder_compute (sync_reorder web_opt : bool)
    (input output : tensor) (attr : attr_t.t) : M world unit :=
  if is_empty input || is_empty output then ret tt
  else
    let key := create_key
      [to_bytes (get_dims input); to_bytes (get_data_type input);
       to_bytes (get_internal_format input); to_bytes (get_dims output);
       to_bytes (get_data_type output); to_bytes (get_internal_format output);
       attr_t.to_bytes attr] in
    op <- fetch_or_create_m op_reorder key ;;
    if web_opt && negb sync_reorder then
      let cn := create op_reorder (plain op) CN_PROP_NA no_fusion output in
      r <- build_deps cn [input] ;;
      if r.1 then enqueue r.2
      else reorder_do_compute op input output
    else reorder_do_compute op input output.

(** *** [sum] *)

(** The constructor [sum(scales, inputs_desc)] or
    [sum(scales, inputs_desc, output_desc)]: the engine builds the
    primitive or the constructor throws.  The object is a local of the
    call: no cache holds it. *)
Definition sum_init (scales : list float) (inputs_desc : list descriptor)
    (output_desc : option descriptor) : M world unit :=
  if sum_build_ok scales inputs_desc output_desc then ret tt
  else throw ConstructionError.

(** [sum::do_compute(inputs, output)]: the sum is submitted to the
    engine. *)
Definition sum_do_compute (scales : list float) (inputs : list tensor)
    (output : tensor) : M world unit :=
  submit (ev_sum scales inputs output).

(** [sum::compute<utils::scratch_allocator, false>(scales, inputs,
    output)], the instance that [bn_folding] calls: without [web_opt] the
    two blocks that make a node are compiled away, and [inplace] is read
    by them alone.  It hands back [output], which it takes by
    reference. *)
Definition sum_compute (scales : list float) (inputs : list tensor)
    (output : tensor) : M world tensor :=
  let inputs_desc := get_descriptor <$> inputs in
  inputs_0 <- index_ inputs 0 ;;
  if negb (tensor_eq output inputs_0) then
    sum_init scales inputs_desc None ;;
    h <- allocate ;;
    let output :=
      reinit output (sum_expected_dst_descriptor scales inputs_desc) h in
    sum_do_compute scales inputs output ;;
    ret output
  else
    sum_init scales inputs_desc (Some (get_descriptor output)) ;;
    sum_do_compute scales inputs output ;;
    ret output.

(** *** [bn_folding] on tensors *)

(** [bn_folding<data_type_t>(weights, bn_attrs, epsilon)]: the calls it
    makes into the allocator, the reorder cache and the engine, the
    vector accesses that can throw, and the tensors [factor; weights] it
    returns.  What it writes into the buffers of [factor] and [_weights]
    is [BnFolding.bn_folding_weights] below; the state holds no buffer
    contents. *)
Definition bn_folding_weights (weights : tensor) (bn_attrs : list tensor)
    (epsilon : float) : M world (list tensor) :=
  var <- index_ bn_attrs 1 ;;
  scale <- index_ bn_attrs 2 ;;
  factor <- init_scratch (get_descriptor var) ;;
  tmp <- init_scratch (get_descriptor var) ;;
  (* var + eps, sqr_root(var + eps), scale / sqr_root(var + eps) *)
  _weights <- init_scratch
    (Descriptor (get_dims weights) (get_data_type weights)
       (public_compatible_format (get_descriptor weights))) ;;
  reorder_compute true false weights _weights attr_t.create ;;
  d1 <- at_ (get_dims _weights) 1 ;;
  d2 <- at_ (get_dims _weights) 2 ;;
  d3 <- at_ (get_dims _weights) 3 ;;
  (* for (o = 0; o < _weights.get_dims().at(0); o++) cblas_sscal(...) *)
  d0 <- at_ (get_dims _weights) 0 ;;
  _weights_res <-
    (if decide (get_internal_format _weights ≠ get_internal_format weights)
     then
       _weights_res <- init_scratch (get_descriptor weights) ;;
       reorder_compute true false _weights _weights_res attr_t.create ;;
       ret _weights_res
     else ret _weights) ;;
  ret [factor; _weights_res].

(** [bn_folding<data_type_t>(weights, bias, bn_attrs, epsilon)]: the
    tensors [factor; weights; bias] it returns or the error that the
    vector accesses, [reorder::compute] or [sum::compute] throw in it,
    with what its calls leave behind in the allocator, the reorder cache
    and the engine; its arithmetic is [BnFolding.bn_folding] below. *)
Definition bn_folding (weights bias : tensor) (bn_attrs : list tensor)
    (epsilon : float) : M world (list tensor) :=
  folding_weights <- bn_folding_weights weights bn_attrs epsilon ;;
  factor <- index_ folding_weights 0 ;;
  mean <- index_ bn_attrs 0 ;;
  shift <- index_ bn_attrs 3 ;;
  _bias <- init_scratch (get_descriptor bias) ;;
  (* bias - mean *)
  _bias <- sum_compute [float_1_0; float_m1_0] [bias; mean] _bias ;;
  (* scale / sqr_root(var + eps) * (bias - mean) + shift *)
  _bias <- sum_compute [float_1_0; float_1_0] [_bias; shift] _bias ;;
  ret (folding_weights ++ [_bias]).

(** *** [eltwise_forward] *)

(** [eltwise_forward::compute<alloc, web_opt>(src, dst, aalogorithm,
    aprop_kind, alpha, beta)]; it hands back [dst], which it takes by
    reference.  With [web_opt] the node of a relu offers its producer the
    fusion attribute [CN_FUSION_RELU] with [alpha] and [beta]. *)
Definition eltwise_forward_compute (web_opt : bool) (src dst : tensor)
    (aalogorithm : algorithm.t) (aprop_kind : prop_kind.t)
    (alpha beta : float) : M world tensor :=
  let key := create_key
    [to_bytes (get_data_type src); to_bytes (get_dims src);
     to_bytes (get_internal_format src); to_bytes alpha; to_bytes beta;
     to_bytes aalogorithm; to_bytes aprop_kind] in
  comp <- fetch_or_create_m op_eltwise_forward key ;;
  dst <- (if negb (tensor_eq dst src)
          then h <- allocate ;; ret (reinit dst (get_descriptor src) h)
          else ret dst) ;;
  let do_compute := submit (ev_execute op_eltwise_forward comp [src] dst) in
  if web_opt then
    let fattr :=
      if decide (aalogorithm = algorithm.eltwise_relu)
      then FusionAttr CN_FUSION_RELU [alpha; beta] []
      else no_fusion in
    let cn := create op_eltwise_forward (plain comp) CN_PROP_FORWARD fattr dst in
    b <- build_deps cn [src] ;;
    if b.1 then enqueue b.2 ;; ret dst
    else do_compute ;; ret dst
  else do_compute ;; ret dst.

(** *** [convolution_forward] *)

(** [init_web_opt_fusion<alloc, web_opt>(src, weights, bias, dst_dims,
    strides, ...)]: the closure [conv_fuse_] is the lambda [conv_fuse]
    with these values captured. *)
Definition init_web_opt_fusion (comp : computation_t) (c : capture) : computation_t :=
  Computation (comp_cached comp) (Some c) (conv_bn_folding_ comp).

(** [init_web_opt_folding<alloc, web_opt>(src, weights, bias, dst_dims,
    src_in, strides, ...)]. *)
Definition init_web_opt_folding (comp : computation_t) (c : capture)
    (src_in : tensor) : computation_t :=
  Computation (comp_cached comp) (conv_fuse_ comp) (Some (c, src_in)).

(** The layout negotiation of [create_computation] for one input: the
    provided tensor is used as it is when its descriptor is the expected
    one, a scratch tensor of the expected descriptor is set up otherwise. *)
Definition negotiate (provided : tensor) (expected : descriptor) : M world tensor :=
  if decide (get_descriptor provided ≠ expected)
  then init_scratch expected
  else ret provided.

(** What [create_computation] returns and leaves in its reference
    parameters. *)
Record created := Created {
  cr_comp : computation_t;
  cr_dst : tensor;
  cr_weights : tensor;
  cr_src_in : tensor;
  cr_weights_in : tensor
}.

(** The key of [create_computation], overload with a bias. *)
Definition create_computation_key (src weights bias : tensor) (dst_dims : dims)
    (strides dilates padding_l padding_r : dims) (attr : attr_t.t)
    (aalogorithm : algorithm.t) (aprop_kind : prop_kind.t)
    (appading_kind : padding_kind.t) : bytestring :=
  create_key
    [to_bytes (get_data_type src); to_bytes (get_dims src);
     to_bytes (get_dims weights); to_bytes (get_dims bias); to_bytes dst_dims;
     to_bytes strides; to_bytes dilates; to_bytes padding_l;
     to_bytes padding_r; attr_t.to_bytes attr; to_bytes aalogorithm;
     to_bytes aprop_kind; to_bytes appading_kind].

(** [create_computation<alloc, web_opt>(src, weights, bias, dst_dims, dst,
    _weights, src_in, weights_in, strides, dilates, padding_l, padding_r,
    attr, aalogorithm, aprop_kind, appading_kind)], the overload with a
    bias.  Nothing is written to the reference parameters before the
    fetch, the one statement that can throw. *)
Definition create_computation (web_opt : bool) (src weights bias : tensor)
    (dst_dims : dims) (dst : tensor)
    (strides dilates padding_l padding_r : dims) (attr : attr_t.t)
    (aalogorithm : algorithm.t) (aprop_kind : prop_kind.t)
    (appading_kind : padding_kind.t) : M world created :=
  let key := create_computation_key src weights bias dst_dims strides dilates
               padding_l padding_r attr aalogorithm aprop_kind appading_kind in
  comp <- fetch_or_create_m op_convolution_forward key ;;
  src_in <- negotiate src (expected_src_descriptor comp) ;;
  (* solve the problem that slow reorder from nchw *)
  let _weights := as_weights weights in
  weights_in <- negotiate _weights (expected_weights_descriptor comp) ;;
  let dst_desc := expected_dst_descriptor comp in
  h <- allocate ;;
  let dst := reinit dst dst_desc h in
  let c := Capture src _weights bias dst_dims strides dilates padding_l
             padding_r aalogorithm aprop_kind appading_kind in
  let comp :=
    if web_opt
    then init_web_opt_folding (init_web_opt_fusion (plain comp) c) c src_in
    else plain comp in
  ret (Created comp dst _weights src_in weights_in).

(** [execute(src, weights, bias, dst)] and [execute(src, weights, dst)]:
    the convolution is submitted to the engine. *)
Definition execute (comp : computation_t) (inputs : list tensor) (dst : tensor)
    : M world unit :=
  submit (ev_execute op_convolution_forward (comp_cached comp) inputs dst).

(** The guard of [do_compute] in front of each [reorder::compute]. *)
Definition reorder_needed (provided negotiated : tensor) : bool :=
  bool_decide (get_data_handle provided ≠ get_data_handle negotiated).

(** [do_compute(src, weights, bias, src_in, weights_in, dst)]. *)
Definition do_compute (comp : computation_t)
    (src weights bias src_in weights_in dst : tensor) : M world unit :=
  (if reorder_needed src src_in
   then reorder_compute true false src src_in attr_t.create else ret tt) ;;
  (if reorder_needed weights weights_in
   then reorder_compute true false weights weights_in attr_t.create else ret tt) ;;
  execute comp [src_in; weights_in; bias] dst.

(** [do_compute(src, weights, src_in, weights_in, dst)]. *)
Definition do_compute_no_bias (comp : computation_t)
    (src weights src_in weights_in dst : tensor) : M world unit :=
  (if reorder_needed src src_in
   then reorder_compute true false src src_in attr_t.create else ret tt) ;;
  (if reorder_needed weights weights_in
   then reorder_compute true false weights weights_in attr_t.create else ret tt) ;;
  execute comp [src_in; weights_in] dst.

(** [fire_computation_node(deps, tars)]. *)
Definition fire_computation_node (comp : computation_t)
    (deps tars : list tensor) : M world unit :=
  match deps with
  | [d0; d1; d2; d3; d4] =>
      t0 <- index_ tars 0 ;; do_compute comp d0 d1 d2 d3 d4 t0
  | [d0; d1; d2; d3] =>
      t0 <- index_ tars 0 ;; do_compute_no_bias comp d0 d1 d2 d3 t0
  | _ => ret tt
  end.

(** The lambda [conv_fuse] of [init_web_opt_fusion], applied to [dst] and
    [_attr] with the captured values [c]. *)
Definition conv_fuse (c : capture) (_attr : attr_t.t) : M fuse_state cn_t :=
  dst <- get_dst ;;
  r <- in_world
         (create_computation true (cap_src c) (cap_weights c) (cap_bias c)
            (cap_dst_dims c) dst (cap_strides c) (cap_dilates c)
            (cap_padding_l c) (cap_padding_r c) _attr (cap_algorithm c)
            (cap_prop_kind c) (cap_padding_kind c)) ;;
  put_dst (cr_dst r) ;;
  let fused_cn := create op_convolution_forward (cr_comp r) CN_PROP_FORWARD
                    no_fusion (cr_dst r) in
  b <- in_world
         (build_deps fused_cn
            [cap_src c; cr_weights r; cap_bias c; cr_src_in r; cr_weights_in r]) ;;
  if b.1 then ret (Some b.2) else ret None.

(** The test at the head of [conv_bn_folding]: do the weights carry fold
    results whose third tensor has the raw handle of [deps[2]]. *)
Definition fold_is_cached (weights : tensor) (deps : list tensor)
    : M fuse_state bool :=
  if has_opts weights then
    o2 <- at_ (default [] (opts weights)) 2 ;;
    d2 <- index_ deps 2 ;;
    ret (bool_decide (get_data_handle o2 = get_data_handle d2))
  else ret false.


Definition fold_not_cached (weights : tensor) (deps : list tensor) : Prop :=
  opts weights = None ∨
  ∃ o2 d2,
    default [] (opts weights) !! 2%nat = Some o2 ∧
    deps !! 2%nat = Some d2 ∧
    get_data_handle o2 ≠ get_data_handle d2.

(** The first half of the lambda [conv_bn_folding]: the folded weights
    and bias, from the [opts] of the captured weights or from
    [bn_folding], which then are attached to the weights. *)
Definition folded_weights_and_bias (c : capture) (deps : list tensor)
    (epsilon : float) : M fuse_state (tensor * tensor) :=
  weights <- get_weights ;;
  (* XXX: conv->bn->bn *)
  hit <- fold_is_cached weights deps ;;
  if hit : bool then
    folded_w <- at_ (default [] (opts weights)) 0 ;;
    folded_b <- at_ (default [] (opts weights)) 1 ;;
    ret (folded_w, folded_b)
  else
    folded_wb <- in_world (bn_folding weights (cap_bias c) deps epsilon) ;;
    folded_w <- index_ folded_wb 1 ;;
    folded_b <- index_ folded_wb 2 ;;
    (* XXX: hint *)
    put_weights (set_opts weights folded_w) ;;
    put_weights (set_opts (set_opts weights folded_w) folded_b) ;;
    d2 <- index_ deps 2 ;;
    put_weights (set_opts (set_opts (set_opts weights folded_w) folded_b) d2) ;;
    ret (folded_w, folded_b).

(** The second half: the computation [pre_comp] points to gets a fusion
    closure over the folded weights and bias, and a node is made of it. *)
Definition fused_with_folded (c : capture) (src_in folded_w folded_b : tensor)
    : M fuse_state cn_t :=
  comp <- get_pre_comp ;;
  weights_in <- in_world
    (negotiate folded_w (expected_weights_descriptor (comp_cached comp))) ;;
  put_pre_comp
    (init_web_opt_fusion comp
       (Capture (cap_src c) folded_w folded_b (cap_dst_dims c) (cap_strides c)
          (cap_dilates c) (cap_padding_l c) (cap_padding_r c) (cap_algorithm c)
          (cap_prop_kind c) (cap_padding_kind c))) ;;
  pre_comp <- get_pre_comp ;;
  dst <- get_dst ;;
  let fused_cn := create op_convolution_forward pre_comp CN_PROP_FORWARD
                    no_fusion dst in
  b <- in_world
         (build_deps fused_cn [cap_src c; folded_w; folded_b; src_in; weights_in]) ;;
  if b.1 then ret (Some b.2) else ret None.

(** The lambda [conv_bn_folding] of [init_web_opt_folding], applied to
    [pre_comp], [dst], [deps] and [epsilon] with the captured values [c]
    and [src_in]; the captured weights, which the lambda writes [opts]
    to, [pre_comp] and [dst] are in the state. *)
Definition conv_bn_folding (c : capture) (src_in : tensor)
    (deps : list tensor) (epsilon : float) : M fuse_state cn_t :=
  folded <- folded_weights_and_bias c deps epsilon ;;
  fused_with_folded c src_in folded.1 folded.2.

(** [fuse_if_necessary(pre_comp, tar_attr, dst)] of the convolution
    [self]; [pre_comp] and [dst] are in the state.  The two closures are
    copied out of [self] first, the folding closure with the weights it
    captured. *)
Definition fuse_if_necessary (self : computation_t) (tar_attr : fusion_attr_t)
    : M fuse_state cn_t :=
  conv_fuse_c <- deref (conv_fuse_ self) ;;
  conv_bn_folding_c <- deref (conv_bn_folding_ self) ;;
  put_weights (cap_weights conv_bn_folding_c.1) ;;
  match ftype tar_attr with
  | CN_FUSION_RELU =>
      a0 <- index_ (fattrs tar_attr) 0 ;;
      a1 <- index_ (fattrs tar_attr) 1 ;;
      conv_fuse conv_fuse_c (attr_t.fuse_relu float_1_0 a0 a1)
  | CN_FUSION_SUM =>
      (* skip if src0(dst) is not materialized *)
      dst <- get_dst ;;
      if negb (is_materialized dst) then ret None
      else
        a0 <- index_ (fattrs tar_attr) 0 ;;
        conv_fuse conv_fuse_c (attr_t.fuse_sum a0)
  | CN_FUSION_BN =>
      a0 <- index_ (fattrs tar_attr) 0 ;;
      conv_bn_folding conv_bn_folding_c.1 conv_bn_folding_c.2
        (deps tar_attr) a0
  | _ => ret None
  end.

(** Modelled from the spec: what the web does with a pending convolution
    node [cn] that is about to fire while its target carries the fusion
    attribute [tar_attr] of a later operator with target [dst] (web.hpp
    is not part of the sources).  Section 4.4: [fuse_if_necessary] is
    asked for a fused node; the fused node fires in place of [cn] when
    there is one, [cn] fires as it is otherwise. *)
Definition fire (cn : computation_node) (tar_attr : fusion_attr_t)
    (dst : tensor) : M world unit :=
  λ w,
    match fuse_if_necessary (cn_comp cn) tar_attr
            (FuseState w dst (cn_comp cn) None) with
    | (inr (Some fused_node), s) =>
        fire_computation_node (cn_comp fused_node) (cn_deps fused_node)
          (cn_tars fused_node) (fs_world s)
    | (inr None, s) =>
        fire_computation_node (cn_comp cn) (cn_deps cn) (cn_tars cn) (fs_world s)
    | (inl e, s) => (inl e, fs_world s)
    end.
End Operators.

(** ** Batch-normalization folding: the arithmetic of [bn_folding] *)
Module BnFolding.
Section Kernels.
(** The element type of the buffers with the arithmetic of the BLAS and
    VML kernels and of the engine's sum primitive, which are not part of
    the sources; [f_1_0] and [f_m1_0] are the literals [(float)(1.0)] and
    [(float)(-1.0)]. *)
Context {F : Type}.
Variables (fadd fsub fmul fdiv : F → F → F) (fsqrt : F → F).
Variables (f_1_0 f_m1_0 : F).

(** A buffer is the list of its elements; a kernel told to process [n]
    elements touches the first [n] and leaves the rest. *)
Definition fast_memset (a : F) (n : nat) : list F := replicate n a.

(** [cblas_saxpy(n, a, x, 1, y, 1)]: y := a*x + y. *)
Definition cblas_saxpy (n : nat) (a : F) (x y : list F) : list F :=
  zip_with (λ xi yi, fadd (fmul a xi) yi) (take n x) (take n y) ++ drop n y.

(** [vsSqrt(n, a, y)]: y := sqrt(a). *)
Definition vsSqrt (n : nat) (a : list F) : list F :=
  fsqrt <$> take n a.

(** [vsDiv(n, a, b, y)]: y := a / b. *)
Definition vsDiv (n : nat) (a b : list F) : list F :=
  zip_with fdiv (take n a) (take n b).

(** [vsMul(n, a, b, y)]: y := a * b. *)
Definition vsMul (n : nat) (a b : list F) : list F :=
  zip_with fmul (take n a) (take n b).

(** [cblas_sscal(n, a, x + off, 1)]: x[off .. off+n) := a * x[off .. off+n). *)
Definition cblas_sscal (n : nat) (a : F) (x : list F) (off : nat) : list F :=
  take off x ++ (fmul a <$> take n (drop off x)) ++ drop (off + n) x.

(** [ideep::sum::compute(scales, {x, y}, output)] with two inputs:
    output := scales[0] * x + scales[1] * y. *)
Definition sum_compute (s0 s1 : F) (x y : list F) : list F :=
  zip_with (λ xi yi, fadd (fmul s0 xi) (fmul s1 yi)) x y.

(** The loop [for (o = 0; o < dims.at(0); o++) cblas_sscal(blk, f_base[o],
    w_base + o * blk, 1)], from [o] on with [count] iterations left.
    [None] when [f_base[o]] reads past the buffer. *)
Fixpoint scale_blocks (blk : nat) (f_base w : list F) (o count : nat)
    : option (list F) :=
  match count with
  | O => Some w
  | S count' =>
      fo ← f_base !! o;
      scale_blocks blk f_base (cblas_sscal blk fo w (o * blk)) (S o) count'
  end.

(** [bn_folding<data_type_t>(weights, bn_attrs, epsilon)] on the
    elements: [w_dims] and [w] are the dims and the elements of
    [_weights], the weights in their public format, [var] and [scale] are
    [bn_attrs[1]] and [bn_attrs[2]].  The result is [factor] and the
    elements of [_weights_res]; [None] when [at] throws. *)
Definition bn_folding_weights (w_dims : dims) (w var scale : list F)
    (epsilon : F) : option (list F * list F) :=
  let factor := var in
  let tmp := fast_memset f_1_0 (length var) in
  (* var + eps *)
  let factor := cblas_saxpy (length factor) epsilon tmp factor in
  (* sqr_root(var + eps) *)
  let factor := vsSqrt (length factor) factor in
  (* scale / sqr_root(var + eps) *)
  let factor := vsDiv (length factor) scale factor in
  d0 ← w_dims !! 0%nat;
  d1 ← w_dims !! 1%nat;
  d2 ← w_dims !! 2%nat;
  d3 ← w_dims !! 3%nat;
  let blk := Z.to_nat (d1 * d2 * d3) in
  w_res ← scale_blocks blk factor w 0 (Z.to_nat d0);
  Some (factor, w_res).

(** [bn_folding<data_type_t>(weights, bias, bn_attrs, epsilon)] on the
    elements, with [bn_attrs = {mean, var, scale, shift}]: [factor], the
    folded weights and the folded bias. *)
Definition bn_folding (w_dims : dims) (w bias mean var scale shift : list F)
    (epsilon : F) : option (list F * list F * list F) :=
  folding_weights ← bn_folding_weights w_dims w var scale epsilon;
  let factor := folding_weights.1 in
  (* bias - mean *)
  let _bias := sum_compute f_1_0 f_m1_0 bias mean in
  (* scale / sqr_root(var + eps) * (bias - mean) *)
  let _bias := vsMul (length _bias) _bias factor in
  (* scale / sqr_root(var + eps) * (bias - mean) + shift *)
  let _bias := sum_compute f_1_0 f_1_0 _bias shift in
  Some (factor, folding_weights.2, _bias).

(** The claim as the spec words it: one factor per output channel; the
    weights scaled by the factor of their output channel, the elements
    being shared out evenly among the channels in order (element [j] of
    the weights is of channel [j / per_channel]); and the bias. *)
Definition spec_factor (var scale : list F) (epsilon : F) : list F :=
  zip_with (λ s v, fdiv s (fsqrt (fadd v epsilon))) scale var.

Definition spec_weights (w factor : list F) : list F :=
  let per_channel := (length w / length factor)%nat in
  imap (λ j x, match factor !! (j / per_channel)%nat with
               | Some f => fmul x f
               | None => x
               end) w.

Definition spec_bias (factor bias mean shift : list F) : list F :=
  zip_with (λ fb s, fadd fb s)
    (zip_with (λ f bm, fmul f bm) factor (zip_with fsub bias mean)) shift.
End Kernels.

(** The kernels on IEEE binary32 numbers, rounding to nearest even. *)
Definition f32_add : float → float → float := SFadd 24 128.
Definition f32_sub : float → float → float := SFsub 24 128.
Definition f32_mul : float → float → float := SFmul 24 128.
Definition f32_div : float → float → float := SFdiv 24 128.
Definition f32_sqrt : float → float := SFsqrt 24 128.
Definition f32_of_Z (z : Z) : float := binary_normalize 24 128 z 0 false.
End BnFolding.

(** ** An environment to evaluate the operators in

    Concrete encoders and a concrete engine for the examples: numbers are
    written in binary digits, enumerations as one letter, vectors with
    [x] between the elements and the pieces of a key with [*] between
    them; every configuration compiles and every submitted primitive runs;
    a convolution expects its source as [nchw] and its weights in a
    blocked layout; the public format of a blocked layout is [oihw]; a
    sum expects of its output the descriptor of its first input. *)
Module Sample.
Fixpoint positive_bytes (p : positive) : bytestring :=
  match p with
  | xH => [x31]
  | xO p' => x30 :: positive_bytes p'
  | xI p' => x31 :: positive_bytes p'
  end.

Definition Z_bytes (z : Z) : bytestring :=
  match z with
  | Z0 => [x30]
  | Zpos p => x2b :: positive_bytes p
  | Zneg p => x2d :: positive_bytes p
  end.

Definition bool_byte (b : bool) : byte := if b then x2d else x2b.

Definition float_to_bytes (f : float) : bytestring :=
  match f with
  | S754_zero s => [x7a; bool_byte s]
  | S754_infinity s => [x69; bool_byte s]
  | S754_nan => [x6e]
  | S754_finite s m e => x66 :: bool_byte s :: positive_bytes m ++ x65 :: Z_bytes e
  end.

Fixpoint sep_by (sep : byte) (l : list bytestring) : bytestring :=
  match l with
  | [] => []
  | [b] => b
  | b :: l' => b ++ sep :: sep_by sep l'
  end.

#[export] Instance kind_bytes : ToBytes kind.t := λ k,
  match k with
  | kind.undef => [x75] | kind.memory => [x6d] | kind.view => [x76]
  | kind.reorder => [x72] | kind.concat => [x63] | kind.sum => [x73]
  | kind.convolution => [x43] | kind.eltwise => [x65]
  end.
#[export] Instance float_bytes : ToBytes float := float_to_bytes.
#[export] Instance algorithm_bytes : ToBytes algorithm.t := λ a,
  match a with
  | algorithm.convolution_direct => [x63]
  | algorithm.deconvolution_direct => [x64]
  | algorithm.eltwise_relu => [x72]
  | algorithm.lrn_across_channels => [x6c]
  end.
#[export] Instance floats_bytes : ToBytes (list float) := λ l,
  sep_by x78 (float_to_bytes <$> l).
#[export] Instance int_bytes : ToBytes Z := Z_bytes.
#[export] Instance dims_bytes : ToBytes dims := λ l, sep_by x78 (Z_bytes <$> l).
#[export] Instance data_type_bytes : ToBytes data_type.t := λ d,
  match d with
  | data_type.data_undef => [x30] | data_type.f32 => [x31]
  | data_type.s32 => [x32] | data_type.s16 => [x33]
  | data_type.s8 => [x34] | data_type.u8 => [x35]
  end.
#[export] Instance format_bytes : ToBytes format.t := λ f,
  match f with
  | format.format_undef => [x30] | format.any => [x31] | format.x => [x32]
  | format.nc => [x33] | format.nchw => [x34] | format.oi => [x35]
  | format.oihw => [x36] | format.goihw => [x37]
  | format.blocked tag => x62 :: Z_bytes tag
  end.
#[export] Instance prop_kind_bytes : ToBytes prop_kind.t := λ k,
  match k with
  | prop_kind.forward_training => [x74] | prop_kind.forward_inference => [x69]
  | prop_kind.backward => [x62] | prop_kind.backward_data => [x64]
  end.
#[export] Instance padding_kind_bytes : ToBytes padding_kind.t := λ _, [x7a].

Definition nchw_of (d : dims) : descriptor :=
  Descriptor d data_type.f32 format.nchw.

#[export] Instance env : Env := {|
  capacity := 2;
  build_ok := λ _ _, true;
  execute_ok := λ _, true;
  join_key := sep_by x2a;
  expected_src_descriptor := λ _, nchw_of [1; 3; 8; 8];
  expected_weights_descriptor := λ _,
    Descriptor [4; 3; 3; 3] data_type.f32 (format.blocked 8);
  expected_dst_descriptor := λ _, nchw_of [1; 4; 8; 8];
  is_empty := λ t, bool_decide (get_dims t = []);
  as_weights := λ t,
    if decide (get_internal_format t = format.nchw)
    then Tensor (Descriptor (get_dims t) (get_data_type t) format.oihw)
           (get_data_handle t) (is_materialized t) (opts t)
    else t;
  reinit := λ t d h, if decide (get_descriptor t = d) then t else init d h;
  tensor_eq := λ t u,
    bool_decide (get_descriptor t = get_descriptor u
                 ∧ get_data_handle t = get_data_handle u);
  deps_built := λ _ _ _, true;
  public_compatible_format := λ d,
    match desc_format d with
    | format.blocked _ => format.oihw
    | f => f
    end;
  sum_build_ok := λ _ _ _, true;
  sum_expected_dst_descriptor := λ _ inputs_desc,
    default (nchw_of []) (head inputs_desc)
|}.

(** The process before the first call: empty caches, an empty web,
    nothing submitted; buffers 1 to 9 are the caller's. *)
Definition start : world := World Cache.no_caches [] [] 10%N.

(** The tensors of the scenario of the spec: a source of dims
    [1,3,8,8], weights [4,3,3,3], a bias of 4 and the destination. *)
Definition src : tensor := init (nchw_of [1; 3; 8; 8]) 1%N.
Definition weights : tensor :=
  init (Descriptor [4; 3; 3; 3] data_type.f32 format.oihw) 2%N.
Definition bias : tensor := init (Descriptor [4] data_type.f32 format.x) 3%N.
Definition dst : tensor := init (nchw_of [1; 4; 8; 8]) 4%N.
Definition dst_dims : dims := [1; 4; 8; 8].

(** The statistics of a normalization: mean, variance, scale, shift. *)
Definition stats : list tensor :=
  [init (Descriptor [4] data_type.f32 format.x) 5%N;
   init (Descriptor [4] data_type.f32 format.x) 6%N;
   init (Descriptor [4] data_type.f32 format.x) 7%N;
   init (Descriptor [4] data_type.f32 format.x) 8%N].

(** What a convolution on these tensors captures. *)
Definition captured : capture :=
  Capture src weights bias dst_dims [1; 1] [1; 1] [1; 1] [1; 1]
    algorithm.convolution_direct prop_kind.forward padding_kind.zero.

(** A convolution built with [web_opt]: both closures are set. *)
Definition conv : computation_t :=
  Computation (Cache.Computation [] 0) (Some captured) (Some (captured, src)).

(** The first convolution of the process on these tensors. *)
Definition convolution_run : (error + created) * world :=
  create_computation true src weights bias dst_dims dst [1; 1] [1; 1] [1; 1]
    [1; 1] attr_t.create algorithm.convolution_direct prop_kind.forward
    padding_kind.zero start.
Definition convolution : created :=
  Eval vm_compute in
    match convolution_run.1 with
    | inr r => r
    | inl _ => Created conv dst weights src weights
    end.

(** Weights of three dims, on which the fold throws, and weights that
    carry the fold results for the statistics [stats]. *)
Definition short_weights : tensor :=
  init (Descriptor [4; 3; 3] data_type.f32 format.any) 2%N.
Definition short_captured : capture :=
  Capture src short_weights bias dst_dims [1; 1] [1; 1] [1; 1] [1; 1]
    algorithm.convolution_direct prop_kind.forward padding_kind.zero.
Definition folded_weights : tensor :=
  Tensor (Descriptor [4; 3; 3; 3] data_type.f32 format.oihw) 2%N true
    (Some [init (Descriptor [4; 3; 3; 3] data_type.f32 format.oihw) 20%N;
           init (Descriptor [4] data_type.f32 format.x) 21%N;
           init (Descriptor [4] data_type.f32 format.x) 7%N]).


(** The process after two reorders, of the source and of the weights
    into buffers of the caller: the cache of the reorders is full. *)
Definition busy : world :=
  (bind (reorder_compute true false src (init (nchw_of [1; 3; 8; 8]) 5%N)
           attr_t.create)
     (λ _, reorder_compute true false weights
             (init (Descriptor [4; 3; 3; 3] data_type.f32 (format.blocked 8)) 6%N)
             attr_t.create) start).2.

(** The key of the first of these reorders. *)
Definition first_reorder_key : bytestring :=
  create_key
    [to_bytes (get_dims src); to_bytes (get_data_type src);
     to_bytes (get_internal_format src); to_bytes [1; 3; 8; 8];
     to_bytes data_type.f32; to_bytes format.nchw;
     attr_t.to_bytes attr_t.create].

(** Fusion attributes of a later relu and of a later in-place sum. *)
Definition relu_attr : fusion_attr_t :=
  FusionAttr CN_FUSION_RELU [float_0_0; float_0_0] [].
Definition sum_attr : fusion_attr_t :=
  FusionAttr CN_FUSION_SUM [float_1_0] [].
Definition bn_attr : fusion_attr_t :=
  FusionAttr CN_FUSION_BN [float_0_0] stats.
End Sample.

(** ** Claims as the spec words them, and what is said in their place *)



(** A failed fold leaves the cached computation objects as they were:
    whatever is resident in a cache before a fold that throws is resident
    after it. *)
Definition failed_fold_keeps_caches `{!Env} : Prop :=
  ∀ c src_in deps epsilon s e s',
    conv_bn_folding c src_in deps epsilon s = (inl e, s') →
    ∀ kind key obj,
      Cache.resident_in (caches (fs_world s)) kind key obj →
      Cache.resident_in (caches (fs_world s')) kind key obj.

(** A computation on the state that leaves the queue of the web and the
    caches of all operator kinds but [reorder] as they are, however it
    ends. *)
Definition keeps_other_caches {A} (m : M world A) : Prop :=
  ∀ w r w',
    m w = (r, w') →
    web w' = web w ∧
    ∀ kind, kind ≠ op_reorder → caches w' kind = caches w kind.

(** The post-ops are serialized with an explicit count in front: some
    encoding of counts, never empty, and some encoding of items such that
    the bytes of a sequence are the bytes of its length followed by the
    bytes of its items. *)
Definition count_prefixed (serialize : post_ops.t → bytestring) : Prop :=
  ∃ (count : nat → bytestring) (item : post_op → bytestring),
    (∀ n, count n ≠ []) ∧
    ∀ p, serialize p = count (length p) ++ mjoin (item <$> p).

(** Keys for the examples on the cache. *)
Definition key_a : bytestring := [x61].
Definition key_b : bytestring := [x62].
Definition key_c : bytestring := [x63].

(** * Operators that run on the host

  The channel shuffles, the random mask of dropout and the sums of
  [sum_array] move and add the elements themselves instead of calling
  the engine. *)

(** ** Failures, loops and raw buffers *)

(** The status codes the operators of this file throw [error] with. *)
Inductive mkldnn_status :=
  | mkldnn_invalid_arguments
  | mkldnn_unimplemented
  | mkldnn_runtime_error.

(** How a call that does not reach the engine can end: a failed
    [IDEEP_ENFORCE(condition, message)], a [throw error(status, message)],
    or behaviour that the language leaves undefined (a read or write
    outside a buffer or a vector, a division by zero). *)
Inductive failure :=
  | enforce_failed (message : string)
  | mkldnn_error (status : mkldnn_status) (message : string)
  | undefined.

Definition result (A : Type) : Type := failure + A.

Definition ok {A} (a : A) : result A := inr a.
Definition rbind {A B} (m : result A) (f : A → result B) : result B :=
  match m with
  | inr a => f a
  | inl e => inl e
  end.

Declare Scope R_scope.
Delimit Scope R_scope with R.
Notation "x <- m ;; k" := (rbind m (λ x, k))
  (at level 100, m at next level, right associativity) : R_scope.
Notation "m ;; k" := (rbind m (λ _, k))
  (at level 100, right associativity) : R_scope.

(** [IDEEP_ENFORCE(condition, message)]. *)
Definition IDEEP_ENFORCE (condition : bool) (message : string) : result unit :=
  if condition then ok tt else inl (enforce_failed message).

(** [for (x : l) body], the state threaded through the iterations; a C
    loop [for (auto i = 0; i < n; i++)] runs over [seqZ 0 n].  Integers
    are unbounded here: the properties below say when the [int]s of the
    source stay in range. *)
Fixpoint for_each {A St} (l : list A) (body : A → St → result St) (s : St)
    : result St :=
  match l with
  | [] => ok s
  | a :: l =>
      match body a s with
      | inr s' => for_each l body s'
      | inl e => inl e
      end
  end.

(** [t.get_dim(i)] and [v[i]] on dims: entry [i]; what is read outside
    the dims is not determined by these sources. *)
Definition get_dim (d : dims) (i : Z) : result Z :=
  if bool_decide (0 ≤ i)
  then match d !! Z.to_nat i with
       | Some x => ok x
       | None => inl undefined
       end
  else inl undefined.

(** [std::memcpy(dst + d, src + s, sizeof(T) * count)] between two
    separate buffers. *)
Definition memcpy {T} (dst : list T) (d : Z) (src : list T) (s : Z) (count : Z)
    : result (list T) :=
  if bool_decide (0 ≤ count ∧ 0 ≤ d ∧ d + count ≤ Z.of_nat (length dst)
                  ∧ 0 ≤ s ∧ s + count ≤ Z.of_nat (length src))
  then ok (take (Z.to_nat d) dst
           ++ take (Z.to_nat count) (drop (Z.to_nat s) src)
           ++ drop (Z.to_nat (d + count)) dst)
  else inl undefined.

(** [v[i]] on a raw buffer, read and written. *)
Definition read {T} (v : list T) (i : Z) : result T :=
  if bool_decide (0 ≤ i)
  then match v !! Z.to_nat i with
       | Some x => ok x
       | None => inl undefined
       end
  else inl undefined.

Definition write {T} (v : list T) (i : Z) (x : T) : result (list T) :=
  if bool_decide (0 ≤ i < Z.of_nat (length v))
  then ok (<[Z.to_nat i := x]> v)
  else inl undefined.

(** ** [channel_shuffle_forward] and [channel_shuffle_backward] *)

(** What [compute_impl] of a channel shuffle did: it handed the tensors to
    [direct_copy::compute], or it filled the destination buffer itself. *)
Inductive shuffle_outcome (T : Type) :=
  | by_direct_copy
  | shuffled (data : list T).
Arguments by_direct_copy {T}.
Arguments shuffled {T} data.

Module channel_shuffle_forward.
Section compute_impl.
Context {T : Type}.
Open Scope R_scope.

(** [compute_impl(src, dst, group)] on the dims and data type of [src],
    the buffer [X] of [src] and the buffer [Y] of [dst] (the branch
    without [__AVX2__]). *)
Definition compute_impl (src_dims : dims) (src_data_type : data_type.t)
    (X Y : list T) (group : Z) : result (shuffle_outcome T) :=
  C <- get_dim src_dims 1 ;;
  (if bool_decide (group = 0) then inl undefined else ok tt) ;;
  let K := C `quot` group in
  d2 <- get_dim src_dims 2 ;;
  d3 <- get_dim src_dims 3 ;;
  let S := d2 * d3 in (* h * w *)
  IDEEP_ENFORCE (bool_decide (C `rem` group = 0)) "Invalid channel and group" ;;
  IDEEP_ENFORCE (bool_decide (src_data_type = data_type.f32)) "invalid data type" ;;
  if bool_decide (group ≤ 1) then ok by_direct_copy
  else
    N <- get_dim src_dims 0 ;;
    Y <- for_each (seqZ 0 N) (λ n,
           for_each (seqZ 0 group) (λ g,
             for_each (seqZ 0 K) (λ i Y,
               let X_offset := g * K * S + n * C * S + S * i in
               let Y_offset := g * S + n * C * S + group * S * i in
               memcpy Y Y_offset X X_offset S))) Y ;;
    ok (shuffled Y).
End compute_impl.
End channel_shuffle_forward.

Module channel_shuffle_backward.
Section compute_impl.
Context {T : Type}.
Open Scope R_scope.

(** [compute_impl(grady, gradx, group)] on the dims and data type of
    [grady] and the buffers [dY] of [grady] and [dX] of [gradx]. *)
Definition compute_impl (grady_dims : dims) (grady_data_type : data_type.t)
    (dY dX : list T) (group : Z) : result (shuffle_outcome T) :=
  C <- get_dim grady_dims 1 ;;
  (if bool_decide (group = 0) then inl undefined else ok tt) ;;
  let K := C `quot` group in
  d2 <- get_dim grady_dims 2 ;;
  d3 <- get_dim grady_dims 3 ;;
  let S := d2 * d3 in (* h * w *)
  IDEEP_ENFORCE (bool_decide (C `rem` group = 0)) "Invalid channel and group" ;;
  IDEEP_ENFORCE (bool_decide (grady_data_type = data_type.f32)) "invalid data type" ;;
  if bool_decide (group ≤ 1) then ok by_direct_copy
  else
    N <- get_dim grady_dims 0 ;;
    dX <- for_each (seqZ 0 N) (λ n,
            for_each (seqZ 0 group) (λ g,
              for_each (seqZ 0 K) (λ i dX,
                let dY_offset := g * S + n * C * S + group * S * i in
                let dX_offset := g * K * S + n * C * S + S * i in
                memcpy dX dX_offset dY dY_offset S))) dX ;;
    ok (shuffled dX).
End compute_impl.
End channel_shuffle_backward.

(** ** [dropout_forward] *)

Module dropout_forward.
(** The part of the buffer [r] of [n] numbers that thread [ithr] of
    [nthr] fills in [bernoulli_generate(n, p, r)]: [my_amount] numbers from
    [my_offset] on, when [my_amount] is positive. *)
Definition my_part (n nthr ithr : Z) : Z * Z :=
  let avg_amount := (n + nthr - 1) `quot` nthr in
  let my_offset := ithr * avg_amount in
  let my_amount := Z.min (my_offset + avg_amount) n - my_offset in
  (my_offset, my_amount).

(** The indices of [r] that [bernoulli_generate] has written when all
    threads of the parallel region are done, in thread order. *)
Definition bernoulli_generate_indices (n nthr : Z) : list Z :=
  ithr ← seqZ 0 nthr;
  let '(my_offset, my_amount) := my_part n nthr ithr in
  if bool_decide (my_amount > 0) then seqZ my_offset my_amount else [].
End dropout_forward.

(** ** [sum_array] *)

Module sum_array.

(** The memory formats [optimized_format] and [sum_fast_along_axis]
    tell apart, and all others. *)
Inductive mkldnn_memory_format_t :=
  | mkldnn_nChw16c
  | mkldnn_nChw8c
  | mkldnn_OIhw8i8o
  | mkldnn_OIhw16i16o
  | mkldnn_OIhw8i16o2i
  | mkldnn_OIhw8o16i2o
  | mkldnn_OIhw8o8i
  | mkldnn_OIhw16o16i
  | mkldnn_Oihw8o
  | mkldnn_Oihw16o
  | mkldnn_format_other.

(** [err_num_t]; the functions report the negated value. *)
Definition NOERR : Z := 0.
Definition UNSUPPORT_AXIS_COMMON_SUM : Z := 1.
Definition UNSUPPORT_AXIS_FAST_SUM : Z := 2.
Definition UNSUPPORT_DATA_TYPE : Z := 3.

(** [(unsigned)a] of an [int]. *)
Definition to_unsigned (a : Z) : Z := a `mod` 2 ^ 32.

(** [optimized_format(t)]. *)
Definition optimized_format (format : mkldnn_memory_format_t) : bool :=
  match format with
  | mkldnn_nChw16c
  | mkldnn_nChw8c
  | mkldnn_OIhw8i8o
  | mkldnn_OIhw16i16o
  | mkldnn_OIhw8i16o2i
  | mkldnn_OIhw8o16i2o
  | mkldnn_OIhw8o8i
  | mkldnn_OIhw16o16i
  | mkldnn_Oihw8o
  | mkldnn_Oihw16o => true
  | _ => false
  end.

(** [get_dst_dims(src_dims, axis)]: the inner loop leaves in [a] the first
    position of [axis] that holds [d], or the size of [axis]. *)
Definition get_dst_dims (src_dims : dims) (axis : list Z) : dims :=
  foldl (λ dst_dims '(d, src_dims_d),
           let a := default (length axis)
                      (fst <$> list_find (λ axis_a, Z.of_nat d = to_unsigned axis_a) axis) in
           if bool_decide (length axis ≤ a)%nat
           then dst_dims ++ [src_dims_d]
           else dst_dims)
        [] (imap pair src_dims).

(** The tensor the sums return: the empty [tensor()], or a tensor [dst]
    of one data type, dims and format that is the target of an enqueued
    node or has been filled by [do_compute]. *)
Inductive dst_format := format_x | default_format (ndims : Z).
Inductive how := enqueued | computed.
Inductive sum_tensor :=
  | empty_tensor
  | dst_tensor (dst_dims : dims) (data_type : data_type.t) (format : dst_format)
      (by_ : how).

(** The end of both sums: with [web_opt] the node is enqueued when
    [build_deps] succeeds ([deps_built]), else [do_compute] runs. *)
Definition launch (web_opt deps_built : bool) : how :=
  if web_opt && deps_built then enqueued else computed.

(** The lambda [valid_axis(axises, axis, valid_axis)]. *)
Definition valid_axis (axises : nat) (axis valid_axis : list Z) : bool :=
  forallb (λ i, bool_decide (valid_axis !! i = axis !! i)) (seq 0 axises).

(** [sum_fast_along_axis<web_opt>(src, axis, err)]: the tensor returned
    and [err]. *)
Definition sum_fast_along_axis (web_opt deps_built : bool) (src_dims : dims)
    (src_data_type : data_type.t) (src_format : mkldnn_memory_format_t)
    (axis : list Z) : sum_tensor * Z :=
  let axises := length axis in
  let valid_axis_4dim := [0; 2; 3] in
  if bool_decide (length src_dims ≠ 4%nat ∨ axises ≠ 3%nat)
  then (empty_tensor, - UNSUPPORT_AXIS_FAST_SUM)
  else
    let err :=
      match src_format with
      | mkldnn_nChw8c | mkldnn_nChw16c =>
          if negb (valid_axis axises axis valid_axis_4dim)
          then - UNSUPPORT_AXIS_FAST_SUM else NOERR
      | _ => - UNSUPPORT_AXIS_FAST_SUM
      end in
    if bool_decide (err = - UNSUPPORT_AXIS_FAST_SUM) then (empty_tensor, err)
    else
      (dst_tensor [default 0 (src_dims !! 1%nat)] src_data_type format_x
         (launch web_opt deps_built), err).

(** [sum_common_along_axis<web_opt>(src, axis, err)]. *)
Definition sum_common_along_axis (web_opt deps_built : bool) (src_dims : dims)
    (src_data_type : data_type.t) (axis : list Z) : sum_tensor * Z :=
  let dst_ndims := Z.of_nat (length src_dims) - Z.of_nat (length axis) in
  if bool_decide ((dst_ndims ≠ 1 ∧ dst_ndims ≠ 2 ∧ dst_ndims ≠ 4)
                  ∨ length axis = 0%nat)
  then (empty_tensor, - UNSUPPORT_AXIS_COMMON_SUM)
  else
    (dst_tensor (get_dst_dims src_dims axis) src_data_type
       (default_format dst_ndims) (launch web_opt deps_built), NOERR).

(** [compute<web_opt>(src, axis, err)]. *)
Definition compute (web_opt deps_built : bool) (src_dims : dims)
    (src_data_type : data_type.t) (src_format : mkldnn_memory_format_t)
    (axis : list Z) : sum_tensor * Z :=
  match src_data_type with
  | data_type.f32 | data_type.s32 | data_type.s16 | data_type.s8
  | data_type.u8 =>
      if optimized_format src_format
      then sum_fast_along_axis web_opt deps_built src_dims src_data_type
             src_format axis
      else sum_common_along_axis web_opt deps_built src_dims src_data_type axis
  | _ => (empty_tensor, - UNSUPPORT_DATA_TYPE)
  end.

(** The split of [mb] items over the threads of a parallel region, as
    [sum_nChwXC_along_channel] and [sum_along_axis] compute it from
    [omp_get_max_threads()]: the number of threads of the region, the
    length of a block and the number of threads with one item more. *)
Definition blocks (max_threads mb : Z) : Z * Z * Z :=
  let blk_nthr := max_threads in
  let blk_num := blk_nthr in
  let blk_len := mb `quot` blk_num in
  let blk_len_ex := mb `rem` blk_num in
  let blk_nthr := if bool_decide (blk_len = 0) then mb else blk_nthr in
  (blk_nthr, blk_len, blk_len_ex).

(** The items [bstart, bend) of thread [ithr]. *)
Definition block_of (blk_len blk_len_ex ithr : Z) : Z * Z :=
  let blen := if bool_decide (ithr < blk_len_ex) then blk_len + 1 else blk_len in
  let bstart :=
    if bool_decide (ithr ≤ blk_len_ex) then (blk_len + 1) * ithr
    else blk_len_ex * (blk_len + 1) + (ithr - blk_len_ex) * blk_len in
  let bend := bstart + blen in
  (bstart, bend).

(** The items the threads of the region go through, in thread order:
    thread [ithr] runs [for (int b = bstart; b < bend; b++)]. *)
Definition items_of_threads (max_threads mb : Z) : list Z :=
  let '(blk_nthr, blk_len, blk_len_ex) := blocks max_threads mb in
  ithr ← seqZ 0 blk_nthr;
  let '(bstart, bend) := block_of blk_len blk_len_ex ithr in
  seqZ bstart (bend - bstart).

Section sum_along_axis.
Context {data_t : Type} (zero : data_t) (add : data_t → data_t → data_t).
Open Scope R_scope.

(** The kernel of [sum_along_axis] for one axis: [cur_src] is read as
    [cur_fore] blocks of [axis_dim] rows of [cur_tail] elements
    ([axis_dim] is [cur_dims[cur_axis[a]]]), and the fresh buffer [ws] of
    [cur_fore * cur_tail] elements receives the sums of the rows. *)
Definition sum_along_axis_kernel (cur_src : list data_t)
    (cur_fore cur_tail axis_dim : Z) : result (list data_t) :=
  let cur_ws_size := cur_fore * cur_tail in
  (if bool_decide (cur_ws_size < 0) then inl undefined else ok tt) ;;
  let ws := replicate (Z.to_nat cur_ws_size) zero in
  (* kernel *)
  st <- for_each (seqZ 0 cur_ws_size) (λ w '(ws, base, off),
          ws <- for_each (seqZ 0 axis_dim) (λ t ws,
                  x <- read cur_src (off + t * cur_tail) ;;
                  y <- read ws w ;;
                  write ws w (add y x)) ws ;;
          let w := w + 1 in
          if bool_decide (0 = w `rem` cur_tail)
          then let off := base + cur_tail * axis_dim in ok (ws, off, off)
          else ok (ws, base, off + 1))
        (ws, 0, 0) ;;
  ok st.1.1.
End sum_along_axis.
End sum_array.

(** ** The vocabulary of the properties of the channel shuffles *)

(** Copies of whole blocks of [S] elements: block [p.2] of [X] to block
    [p.1] of [Y], for every [p] of [ps] in order. *)
Definition copy_blocks {T} (S : Z) (X : list T) (ps : list (Z * Z))
    (Y : list T) : result (list T) :=
  for_each ps (λ p Y, memcpy Y (S * p.1) X (S * p.2) S) Y.

(** The iteration space of the loop nest over [n], [g] and [i]. *)
Definition iterations (N group K : Z) : list (Z * (Z * Z)) :=
  n ← seqZ 0 N; (λ p, (n, p)) <$> (g ← seqZ 0 group; (λ i, (g, i)) <$> seqZ 0 K).

(** The block that is channel [g * K + i] of batch item [n], and the one
    that is channel [i * group + g], with [C] channels per item. *)
Definition grouped (C K : Z) (it : Z * (Z * Z)) : Z :=
  it.1 * C + (it.2.1 * K + it.2.2).
Definition interleaved (C group : Z) (it : Z * (Z * Z)) : Z :=
  it.1 * C + (it.2.2 * group + it.2.1).

(** ** The vocabulary of the properties of the sums *)

(** The element of [cur_src] at [i], [zero] outside the buffer. *)
Definition at_or_zero {data_t} (zero : data_t) (cur_src : list data_t) (i : Z)
    : data_t :=
  default zero (cur_src !! Z.to_nat i).

(** The sum of row [f], column [j]: the elements
    [cur_src[(f * axis_dim + t) * cur_tail + j]], added to [zero] in the
    order of [t]. *)
Definition row_sum {data_t} (zero : data_t) (add : data_t → data_t → data_t)
    (cur_src : list data_t) (cur_tail axis_dim f j : Z) : data_t :=
  foldl add zero
    ((λ t, at_or_zero zero cur_src ((f * axis_dim + t) * cur_tail + j))
       <$> seqZ 0 axis_dim).

(** The state of the kernel's loop after [n] rounds: the buffer [ws],
    [base] and [off]. *)
Definition kernel_state {data_t} (zero : data_t)
    (add : data_t → data_t → data_t) (cur_src : list data_t)
    (cur_fore cur_tail axis_dim n : Z) : list data_t * Z * Z :=
  (((λ w, row_sum zero add cur_src cur_tail axis_dim
            (w `div` cur_tail) (w `mod` cur_tail)) <$> seqZ 0 n)
     ++ replicate (Z.to_nat (cur_fore * cur_tail - n)) zero,
   (n `div` cur_tail) * cur_tail * axis_dim,
   (n `div` cur_tail) * cur_tail * axis_dim + n `mod` cur_tail).


(** ** [concat] and [spliter]: joining and splitting along an axis *)

(** [d.insert(d.begin() + axis, x)], [d.erase(d.begin() + axis)] and
    [d[axis] = x] on dims. *)
Definition insert_dim (d : dims) (axis x : Z) : result dims :=
  if bool_decide (0 ≤ axis ≤ Z.of_nat (length d))
  then ok (take (Z.to_nat axis) d ++ x :: drop (Z.to_nat axis) d)
  else inl undefined.

Definition erase_dim (d : dims) (axis : Z) : result dims :=
  if bool_decide (0 ≤ axis < Z.of_nat (length d))
  then ok (delete (Z.to_nat axis) d)
  else inl undefined.

Definition set_dim (d : dims) (axis x : Z) : result dims :=
  if bool_decide (0 ≤ axis < Z.of_nat (length d))
  then ok (<[Z.to_nat axis := x]> d)
  else inl undefined.

(** [t.create_view(volume, start)]: the box of [volume] elements of [t]
    that begins at [start]. *)
Record view := View {
  view_volume : dims;
  view_start : dims
}.

#[global] Instance view_eq_dec : EqDecision view.
Proof. solve_decision. Defined.

Section Views.
(** What the engine does with one view: [create_view], the [init] of the
    reorder between the view and a whole tensor, and its execution; each
    of them may throw. *)
Variable reorder_view : view → result unit.
Open Scope R_scope.

(** [offset_dims[axis] += a]. *)
Definition advance (offset_dims : dims) (axis a : Z) : result dims :=
  o <- get_dim offset_dims axis ;;
  set_dim offset_dims axis (o + a).

(** What [concat::compute(inputs, axis, add_axis, dst)] returns and leaves
    in [dst]: the extents of the inputs along the axis, the descriptor
    [dst] was reinitialised with (without a format when an axis is added),
    and the views of [dst] that the inputs were copied into, in order. *)
Record joined := Joined {
  joined_axis_info : list Z;
  joined_dst_dims : dims;
  joined_dst_data_type : data_type.t;
  joined_dst_format : option format.t;
  joined_views : list view
}.

(** [concat::compute(inputs, axis, add_axis, dst)], the overload that
    returns [axis_info]. *)
Definition concat_compute (inputs : list tensor) (axis : Z) (add_axis : bool)
    : result joined :=
  inputs_0 <- match inputs !! 0%nat with
              | Some t => ok t
              | None => inl undefined
              end ;;
  let ndims := Z.of_nat (length (get_dims inputs_0)) in
  IDEEP_ENFORCE (bool_decide (axis < ndims + (if add_axis then 1 else 0)))
    "invalid axis in concat" ;;
  for_each (seqZ 0 ndims) (λ i _,
    if bool_decide (i = axis) && negb add_axis then ok tt
    else
      for_each (drop 1 inputs) (λ inputs_j _,
        dj <- get_dim (get_dims inputs_j) i ;;
        d0 <- get_dim (get_dims inputs_0) i ;;
        IDEEP_ENFORCE (bool_decide (dj = d0)) "invalid input dims in concat")
      tt) tt ;;
  st <- for_each inputs (λ inputs_k '(axis_info, dst_channels),
          a <- (if add_axis then ok 1 else get_dim (get_dims inputs_k) axis) ;;
          ok (axis_info ++ [a], dst_channels + a))
        ([], 0) ;;
  let '(axis_info, dst_channels) := st in
  dst_dims <- (if add_axis
               then insert_dim (get_dims inputs_0) axis dst_channels
               else set_dim (get_dims inputs_0) axis dst_channels) ;;
  let offset_dims := replicate (length dst_dims) 0 in
  let dst_format :=
    if add_axis then None else Some (get_internal_format inputs_0) in
  st <- for_each (zip inputs axis_info)
          (λ '(inputs_i, axis_info_i) '(views, offset_dims),
             in_dims <- (if add_axis
                         then insert_dim (get_dims inputs_i) axis 1
                         else ok (get_dims inputs_i)) ;;
             let view := View in_dims offset_dims in
             reorder_view view ;;
             offset_dims <- advance offset_dims axis axis_info_i ;;
             ok (views ++ [view], offset_dims))
          ([], offset_dims) ;;
  ok (Joined axis_info dst_dims (get_data_type inputs_0) dst_format st.1).

(** [spliter::compute(input, axis_info, axis, add_axis)] on the dims of
    [input]: for every output, in order, the view of [input] it was copied
    from and, when the axis is dropped, the dims it was reshaped to. *)
Definition spliter_compute (input_dims : dims) (axis_info : list Z) (axis : Z)
    (add_axis : bool) : result (list (view * option dims)) :=
  let output_dims := input_dims in
  let offset_dims := replicate (length output_dims) 0 in
  IDEEP_ENFORCE (bool_decide (axis < Z.of_nat (length input_dims)))
    "invalid axis in split" ;;
  st <- for_each axis_info
          (λ axis_info_i '(outputs, output_dims, offset_dims),
             output_dims <- set_dim output_dims axis axis_info_i ;;
             let view := View output_dims offset_dims in
             reorder_view view ;;
             reshaped <- (if add_axis
                          then out_dims <- erase_dim output_dims axis ;;
                               ok (Some out_dims)
                          else ok None) ;;
             offset_dims <- advance offset_dims axis axis_info_i ;;
             ok (outputs ++ [(view, reshaped)], output_dims, offset_dims))
          ([], output_dims, offset_dims) ;;
  ok st.1.1.
End Views.

(** ** The vocabulary of the properties of [concat] and [spliter] *)

(** The sum of extents, as the loops accumulate it. *)
Definition total (l : list Z) : Z := foldl Z.add 0 l.

(** The views of the given volumes laid one after the other along
    [axis], from [offset_dims] on; [extents] are their sizes along the
    axis. *)
Fixpoint laid_out (axis : nat) (offset_dims : dims) (volumes : list dims)
    (extents : list Z) : list view :=
  match volumes, extents with
  | volume :: volumes, extent :: extents =>
      View volume offset_dims
      :: laid_out axis
           (<[axis := default 0 (offset_dims !! axis) + extent]> offset_dims)
           volumes extents
  | _, _ => []
  end.

(** The extent of an input of [concat] along the axis, and the volume it
    takes in [dst]. *)
Definition extent_of (axis : nat) (add_axis : bool) (t : tensor) : Z :=
  if add_axis then 1 else default 0 (get_dims t !! axis).

Definition volume_of (axis : nat) (add_axis : bool) (t : tensor) : dims :=
  if add_axis
  then take axis (get_dims t) ++ 1 :: drop axis (get_dims t)
  else get_dims t.

(** The inputs agree with the first on their number of dims and on every
    dim that [concat] compares. *)
Definition compatible (axis : nat) (add_axis : bool) (inputs_0 : tensor)
    (inputs : list tensor) : Prop :=
  ∀ t, t ∈ inputs →
    length (get_dims t) = length (get_dims inputs_0) ∧
    ∀ i, (i ≠ axis ∨ add_axis = true) → get_dims t !! i = get_dims inputs_0 !! i.

(** The dims of [dst]: the dims of the first input with the sum of the
    extents put at the axis, or inserted there. *)
Definition joined_dims (axis : nat) (add_axis : bool) (inputs_0_dims : dims)
    (dst_channels : Z) : dims :=
  if add_axis
  then take axis inputs_0_dims ++ dst_channels :: drop axis inputs_0_dims
  else <[axis := dst_channels]> inputs_0_dims.

(** Two tensors to join, for the examples; they differ in dim 1. *)
Definition piece_a : tensor :=
  init (Descriptor [2; 3; 4] data_type.f32 format.nchw) 1%N.
Definition piece_b : tensor :=
  init (Descriptor [2; 5; 4] data_type.f32 format.nchw) 2%N.

(** ** The convolution as a whole *)

Section Calls.
Context `{!Env}.
Open Scope M_scope.

(** [convolution_forward::compute_impl<alloc, web_opt>(src, weights, bias,
    dst_dims, dst, args...)], the overload with a bias, which is all that
    [compute(src, weights, bias, result_dims, dst, strides, ...)] calls;
    it hands back [dst]. *)
Definition compute_impl (web_opt : bool) (src weights bias : tensor)
    (dst_dims : dims) (dst : tensor)
    (strides dilates padding_l padding_r : dims) (attr : attr_t.t)
    (aalogorithm : algorithm.t) (aprop_kind : prop_kind.t)
    (appading_kind : padding_kind.t) : M world tensor :=
  r <- create_computation web_opt src weights bias dst_dims dst strides dilates
         padding_l padding_r attr aalogorithm aprop_kind appading_kind ;;
  let comp := cr_comp r in
  let dst := cr_dst r in
  let _weights := cr_weights r in
  let src_in := cr_src_in r in
  let weights_in := cr_weights_in r in
  if web_opt then
    let cn := create op_convolution_forward comp CN_PROP_FORWARD no_fusion dst in
    b <- build_deps cn [src; _weights; bias; src_in; weights_in] ;;
    if b.1 then enqueue b.2 ;; ret dst
    else do_compute comp src _weights bias src_in weights_in dst ;; ret dst
  else do_compute comp src _weights bias src_in weights_in dst ;; ret dst.
End Calls.

(** ** The vocabulary of the properties of these operators *)

(** A state with another queue of pending nodes. *)
Definition with_web (w : world) (nodes : list computation_node) : world :=
  World (caches w) nodes (trace w) (next_buffer w).

(** A computation on the state that neither looks at the queue of the
    web nor changes it. *)
Definition web_blind {A} (m : M world A) : Prop :=
  ∀ w nodes,
    m (with_web w nodes) = let '(r, w') := m w in (r, with_web w' nodes).

(** The first convolution of the sample process, called with [web_opt]. *)
Definition deferred_convolution : (error + tensor) * world :=
  compute_impl (H:=Sample.env) true Sample.src Sample.weights Sample.bias
    Sample.dst_dims Sample.dst [1; 1] [1; 1] [1; 1] [1; 1] attr_t.create
    algorithm.convolution_direct prop_kind.forward padding_kind.zero
    Sample.start.

(** ** What the nodes of [reorder] and [eltwise_forward] do when fired *)

Section Fired.
Context `{!Env}.
Open Scope M_scope.

(** [reorder::fire_computation_node(deps, tars)]. *)
Definition reorder_fire_computation_node (comp : computation_t)
    (deps tars : list tensor) : M world unit :=
  d0 <- index_ deps 0 ;;
  t0 <- index_ tars 0 ;;
  reorder_do_compute (comp_cached comp) d0 t0.

(** [eltwise_forward::do_compute(src, dst)], that is [execute(src, dst)]. *)
Definition eltwise_forward_do_compute (comp : computation_t)
    (src dst : tensor) : M world unit :=
  submit (ev_execute op_eltwise_forward (comp_cached comp) [src] dst).

(** [eltwise_forward::fire_computation_node(deps, tars)]. *)
Definition eltwise_forward_fire_computation_node (comp : computation_t)
    (deps tars : list tensor) : M world unit :=
  d0 <- index_ deps 0 ;;
  t0 <- index_ tars 0 ;;
  eltwise_forward_do_compute comp d0 t0.
End Fired.

(** A reorder and a relu of the sample process, called with [web_opt]. *)
Definition deferred_reorder : (error + unit) * world :=
  reorder_compute (H:=Sample.env) false true Sample.src Sample.dst
    attr_t.create Sample.start.
Definition deferred_relu : (error + tensor) * world :=
  eltwise_forward_compute (H:=Sample.env) true Sample.src Sample.dst
    algorithm.eltwise_relu prop_kind.forward float_0_0 float_0_0 Sample.start.

(** * Properties *)

(** ** The computation cache *)
Section CacheFacts.
Context {K : Type} `{EqDecision K}.
Variable capacity : nat.
Variable build_ok : K → bool.

Local Abbreviation find := (Cache.find (K:=K)).
Local Abbreviation remove := (Cache.remove (K:=K)).
Local Abbreviation fetch_or_create := (Cache.fetch_or_create capacity build_ok).

Lemma find_Some_elem k c l : find k l = Some c → k ∈ l.*1.
Proof.
  induction l as [|[k' c'] l IH]; simpl; [done|].
  case_decide; [intros _; subst; left | intros ?; right; auto].
Qed.

Lemma find_None_not_elem k l : find k l = None → k ∉ l.*1.
Proof.
  induction l as [|[k' c'] l IH]; simpl; [intros _; apply not_elem_of_nil|].
  case_decide; [done|]. intros Hf. apply not_elem_of_cons. auto.
Qed.

Lemma find_remove_ne k k' l : k ≠ k' → find k (remove k' l) = find k l.
Proof.
  intros Hne. induction l as [|[k2 c2] l IH]; simpl; [done|].
  destruct (decide (k' = k2)) as [->|]; simpl.
  - rewrite IH. by rewrite decide_False.
  - by rewrite IH.
Qed.

Lemma remove_keys_subseteq k l x : x ∈ (remove k l).*1 → x ∈ l.*1 ∧ x ≠ k.
Proof.
  induction l as [|[k2 c2] l IH]; simpl; [by intros ?%elem_of_nil|].
  destruct (decide (k = k2)) as [->|Hne]; simpl.
  - intros [? ?]%IH. split; [by right|done].
  - intros [->|Hx]%elem_of_cons; [split; [by left|done]|].
    destruct (IH Hx). split; [by right|done].
Qed.

Lemma remove_keys_elem k l x : x ∈ l.*1 → x ≠ k → x ∈ (remove k l).*1.
Proof.
  induction l as [|[k2 c2] l IH]; simpl; [done|].
  intros Hx Hne. destruct (decide (k = k2)) as [->|]; simpl.
  - apply elem_of_cons in Hx as [->|]; [done|auto].
  - apply elem_of_cons in Hx as [->|]; [by left|right; auto].
Qed.

Lemma remove_NoDup k l : NoDup l.*1 → NoDup (remove k l).*1.
Proof.
  induction l as [|[k2 c2] l IH]; simpl; [done|].
  intros [Hn Hd]%NoDup_cons. destruct (decide (k = k2)); simpl; [auto|].
  apply NoDup_cons. split; [|auto].
  intros [? _]%remove_keys_subseteq. done.
Qed.

Lemma resident_inv_empty (U : list K) : Cache.resident_inv U Cache.empty.
Proof.
  split; [apply NoDup_nil_2|]. split; [by intros ? ?%elem_of_nil|].
  split; [done|apply NoDup_nil_2].
Qed.

Lemma resident_length (U : list K) (st : Cache.t) :
  Cache.resident_inv U st → (length (Cache.store st) ≤ length (remove_dups U))%nat.
Proof.
  intros (Hnd & HU & _). rewrite <-(length_fmap fst).
  apply submseteq_length, NoDup_submseteq; [done|].
  intros x Hx. apply elem_of_remove_dups. auto.
Qed.

(** A hit returns the resident object and keeps every entry. *)
Lemma fetch_hit k c st :
  find k (Cache.store st) = Some c →
  fetch_or_create k st =
    (Some c, Cache.Make (Cache.touch k c (Cache.store st)) (Cache.serial st) (Cache.built st)).
Proof. intros Hf. unfold Cache.fetch_or_create. by rewrite Hf. Qed.

Lemma fetch_step (U : list K) k st r st' :
  (length (remove_dups U) ≤ capacity)%nat →
  Cache.resident_inv U st → k ∈ U →
  fetch_or_create k st = (r, st') →
  Cache.resident_inv U st' ∧
  (∀ c, r = Some c → find k (Cache.store st') = Some c) ∧
  (∀ k' c', find k' (Cache.store st) = Some c' → find k' (Cache.store st') = Some c').
Proof.
  intros Hcap Hinv HkU. pose proof (resident_length _ _ Hinv) as Hlen.
  destruct Hinv as (Hnd & HU & Hb & Hndb).
  unfold Cache.fetch_or_create.
  destruct (find k (Cache.store st)) as [c|] eqn:Hf.
  - intros [= <- <-]. simpl. split; [|split].
    + split; [|split; [|split]]; simpl; [| | |done].
      * apply NoDup_cons. split; [|by apply remove_NoDup].
        intros [_ ?]%remove_keys_subseteq. done.
      * intros x [->|[? _]%remove_keys_subseteq]%elem_of_cons; auto.
      * intros x. rewrite Hb. split.
        -- intros Hx. destruct (decide (x = k)) as [->|]; [by left|].
           right. by apply remove_keys_elem.
        -- intros [->|[? _]%remove_keys_subseteq]%elem_of_cons; [|done].
           by eapply find_Some_elem.
    + intros c' [= <-]. unfold Cache.touch. simpl. by rewrite decide_True.
    + intros k' c' Hk'. unfold Cache.touch. simpl.
      destruct (decide (k' = k)) as [->|Hne]; [congruence|].
      by rewrite find_remove_ne.
  - apply find_None_not_elem in Hf as Hnk.
    destruct (build_ok k); intros [= <- <-]; simpl.
    + assert (Cache.insert capacity k (Cache.Computation k (Cache.serial st)) (Cache.store st)
              = (k, Cache.Computation k (Cache.serial st)) :: Cache.store st) as ->.
      { unfold Cache.insert. apply take_ge. simpl.
        assert (length ((k :: (Cache.store st).*1)) ≤ length (remove_dups U))%nat; [|simpl in *; rewrite length_fmap in *; lia].
        apply submseteq_length, NoDup_submseteq; [by apply NoDup_cons|].
        intros x [->|?]%elem_of_cons; apply elem_of_remove_dups; auto. }
      split; [|split].
      * split; [|split; [|split]]; simpl.
        -- by apply NoDup_cons.
        -- intros x [->|?]%elem_of_cons; auto.
        -- intros x. rewrite !elem_of_cons, Hb. done.
        -- apply NoDup_cons. split; [|done]. by rewrite Hb.
      * intros c' [= <-]. simpl. by rewrite decide_True.
      * intros k' c' Hk'. simpl. rewrite decide_False; [done|].
        intros ->. apply find_Some_elem in Hk'. done.
    + split; [done|]. split; [done|auto].
Qed.
End CacheFacts.

Section CachesFacts.
Context {K : Type} `{EqDecision K}.
Variable capacity : nat.
Variable build_ok : op_kind → K → bool.
Variable U : op_kind → list K.
Hypothesis U_fits : ∀ kind, (length (remove_dups (U kind)) ≤ capacity)%nat.

Local Abbreviation fetch_or_create_m := (Cache.fetch_or_create_m capacity build_ok).
Local Abbreviation run_m := (Cache.run_m capacity build_ok).
Local Abbreviation resident_all := (Cache.resident_all U).
Local Abbreviation resident_in := (Cache.resident_in (K:=K)).

Lemma fetch_m_step kind k cs r cs' :
  resident_all cs → k ∈ U kind →
  fetch_or_create_m kind k cs = (r, cs') →
  resident_all cs' ∧
  (∀ c, r = Some c → resident_in cs' kind k c) ∧
  (∀ kind' k' c', resident_in cs kind' k' c' → resident_in cs' kind' k' c').
Proof.
  intros Hall HkU. unfold Cache.fetch_or_create_m.
  destruct (Cache.fetch_or_create capacity (build_ok kind) k (cs kind))
    as [r0 st] eqn:Hfetch.
  intros [= <- <-].
  destruct (fetch_step capacity (build_ok kind) (U kind) k (cs kind) r0 st)
    as (Hinv & Hres & Hkeep); [done..|].
  unfold Cache.resident_in. split; [|split].
  - intros kind'. destruct (decide (kind' = kind)) as [->|]; [done|apply Hall].
  - intros c Hc. rewrite decide_True by done. auto.
  - intros kind' k' c'. destruct (decide (kind' = kind)) as [->|]; auto.
Qed.

Lemma fetch_m_resident kind k cs c :
  resident_in cs kind k c → (fetch_or_create_m kind k cs).1 = Some c.
Proof.
  unfold Cache.resident_in, Cache.fetch_or_create_m. intros Hf. simpl.
  by rewrite (fetch_hit capacity (build_ok kind) _ _ _ Hf).
Qed.

Lemma run_m_step kind k calls cs :
  run_m ((kind, k) :: calls) cs =
    ((fetch_or_create_m kind k cs).1 :: (run_m calls (fetch_or_create_m kind k cs).2).1,
     (run_m calls (fetch_or_create_m kind k cs).2).2).
Proof.
  cbn [Cache.run_m]. destruct (fetch_or_create_m kind k cs) as [r cs1].
  cbn [fst snd]. by destruct (run_m calls cs1) as [rs cs2].
Qed.

Lemma run_m_spec calls : ∀ cs,
  resident_all cs →
  (∀ kind k, (kind, k) ∈ calls → k ∈ U kind) →
  resident_all (run_m calls cs).2 ∧
  (∀ kind k c, resident_in cs kind k c → resident_in (run_m calls cs).2 kind k c) ∧
  (∀ i kind k c, calls !! i = Some (kind, k) → resident_in cs kind k c →
     (run_m calls cs).1 !! i = Some (Some c)) ∧
  (∀ i j call c, (i ≤ j)%nat → calls !! i = Some call → calls !! j = Some call →
     (run_m calls cs).1 !! i = Some (Some c) → (run_m calls cs).1 !! j = Some (Some c)).
Proof.
  induction calls as [|[kind k] calls IH]; intros cs Hall Hin.
  - simpl. split; [done|]. split; [done|]. split; intros; simplify_eq.
  - rewrite run_m_step. simpl.
    destruct (fetch_or_create_m kind k cs) as [r cs1] eqn:Hfetch. simpl.
    destruct (fetch_m_step kind k cs r cs1) as (Hall1 & Hres1 & Hkeep1);
      [done|apply Hin; by left|done|].
    destruct (IH cs1) as (Hall2 & Hkeep2 & Hhit2 & Hsame2);
      [done|intros; apply Hin; by right|].
    split; [done|]. split; [auto|]. split.
    + intros [|i] kind' k' c Hi Hc; simpl in *.
      * simplify_eq. f_equal.
        pose proof (fetch_m_resident _ _ _ _ Hc) as Hr. by rewrite Hfetch in Hr.
      * eauto.
    + intros [|i] [|j] [kind' k'] c Hij Hi Hj Hri; simpl in *; try lia; simplify_eq.
      * done.
      * eapply Hhit2; eauto.
      * apply (Hsame2 i j (kind', k') c); [lia|done..].
Qed.
End CachesFacts.

(** Whatever the bound of a cache is, one more distinct key than it holds
    evicts the first key, and asking for it again constructs it again. *)
Section Eviction.
Variable capacity : nat.

Local Abbreviation fresh l := ((λ k : nat, (k, Cache.Computation k k)) <$> l).

Lemma find_not_elem_None {K} `{EqDecision K} (k : K) l :
  k ∉ l.*1 → Cache.find k l = None.
Proof.
  induction l as [|[k' c'] l IH]; simpl; [done|].
  intros [Hne Hnin]%not_elem_of_cons. rewrite decide_False by done. auto.
Qed.

Lemma take_cons_take {A} n (x : A) l : take n (x :: take n l) = take n (x :: l).
Proof.
  destruct n as [|n]; simpl; [done|]. f_equal.
  rewrite take_take. f_equal. lia.
Qed.

Lemma fresh_keys l : (fresh l).*1 = l.
Proof. induction l; simpl; by f_equal. Qed.

Lemma taken_fresh_keys n l k : k ∈ (take n (fresh l)).*1 → k ∈ l.
Proof.
  rewrite fmap_take, fresh_keys. intros Hin.
  exact (subseteq_take n l k Hin).
Qed.

Lemma run_app {K} `{EqDecision K} (build_ok : K → bool) l1 l2 st :
  Cache.run capacity build_ok (l1 ++ l2) st
  = Cache.run capacity build_ok l2 (Cache.run capacity build_ok l1 st).
Proof. apply foldl_app. Qed.

Lemma run_fresh m :
  Cache.run capacity (λ _, true) (seq 0 m) Cache.empty
  = Cache.Make (take capacity (fresh (reverse (seq 0 m)))) m (reverse (seq 0 m)).
Proof.
  induction m as [|m IH]; [by destruct capacity|].
  rewrite seq_S. unfold Cache.run in *. rewrite foldl_app, IH. simpl.
  unfold Cache.fetch_or_create. simpl.
  rewrite find_not_elem_None.
  - simpl. unfold Cache.insert. rewrite reverse_snoc. simpl.
    by rewrite take_cons_take.
  - intros Hin%taken_fresh_keys. apply elem_of_reverse, elem_of_seq in Hin. lia.
Qed.

Lemma run_m_one_kind {K} `{EqDecision K} (build_ok : op_kind → K → bool)
    (kind : op_kind) (ks : list K) : ∀ cs,
  (Cache.run_m capacity build_ok ((λ k, (kind, k)) <$> ks) cs).2 kind
  = Cache.run capacity (build_ok kind) ks (cs kind).
Proof.
  induction ks as [|k ks IH]; intros cs; [done|].
  rewrite fmap_cons, run_m_step. cbn [snd]. rewrite IH. simpl.
  unfold Cache.fetch_or_create_m.
  destruct (Cache.fetch_or_create capacity (build_ok kind) k (cs kind)) as [r st].
  simpl. by rewrite decide_True.
Qed.

Lemma eviction_rebuilds :
  ¬ Cache.at_most_once capacity (λ _ _, true) (Cache.overflowing capacity).
Proof.
  unfold Cache.at_most_once, Cache.overflowing.
  destruct (Cache.run_m _ _ _ _) as [rs cs] eqn:Hrun.
  intros [Hnd _]. specialize (Hnd op_convolution_forward).
  apply (f_equal snd) in Hrun. cbn [snd] in Hrun. subst cs.
  rewrite run_m_one_kind in Hnd.
  change (Cache.no_caches op_convolution_forward) with (Cache.empty (K:=nat)) in Hnd.
  rewrite run_app, run_fresh in Hnd. unfold Cache.run in Hnd. simpl in Hnd.
  unfold Cache.fetch_or_create in Hnd. simpl in Hnd.
  rewrite find_not_elem_None in Hnd.
  - simpl in Hnd. apply NoDup_cons in Hnd as [Hnin _]. apply Hnin.
    apply elem_of_reverse. by left.
  - intros Hin. change (seq 0 (S capacity)) with (0%nat :: seq 1 capacity) in Hin.
    rewrite reverse_cons, fmap_app, take_app_length' in Hin
      by (by rewrite length_fmap, length_reverse, length_seq).
    rewrite fresh_keys in Hin. apply elem_of_reverse, elem_of_seq in Hin. lia.
Qed.
End Eviction.

Lemma keys_of_elem {K} (kind : op_kind) (k : K) calls :
  (kind, k) ∈ calls → k ∈ Cache.keys_of kind calls.
Proof.
  intros Hin. unfold Cache.keys_of. apply list_elem_of_fmap.
  exists (kind, k). split; [done|]. by apply list_elem_of_filter.
Qed.

(** C1 (as amended): over any sequence of calls in which no operator kind
    is asked for more distinct keys than its cache holds, every (operator
    kind, key) pair is constructed at most once and every later call with
    an equal pair returns the object that was built first. *)
Theorem cache_builds_once_within_capacity {K} `{EqDecision K}
    (capacity : nat) (build_ok : op_kind → K → bool) (calls : list (op_kind * K)) :
  Cache.within_capacity capacity calls →
  Cache.at_most_once capacity build_ok calls.
Proof.
  intros Hcap. unfold Cache.at_most_once.
  destruct (run_m_spec capacity build_ok (λ kind, Cache.keys_of kind calls) Hcap
              calls Cache.no_caches) as (Hall & _ & _ & Hsame).
  - intros kind. apply resident_inv_empty.
  - intros kind k. apply keys_of_elem.
  - destruct (Cache.run_m capacity build_ok calls Cache.no_caches) as [rs cs].
    split; [|exact Hsame]. intros kind. apply (Hall kind).
Qed.

(** Two kinds, two keys each, on caches of two entries: nothing is
    evicted and nothing is built twice. *)
Lemma cache_builds_once_witness :
  Cache.at_most_once 2 (λ _ _, true)
    [(op_convolution_forward, key_a); (op_reorder, key_a);
     (op_convolution_forward, key_b); (op_convolution_forward, key_a);
     (op_reorder, key_c); (op_reorder, key_a)].
Proof.
  apply cache_builds_once_within_capacity.
  intros kind. destruct kind; vm_compute; lia.
Defined.

(** C1 (as stated) fails: on a cache of two entries the calls a, b, c, a
    of one operator kind evict a before it is asked for again, and a is
    constructed a second time. *)
Lemma cache_rebuilds_after_eviction :
  ¬ Cache.at_most_once 2 (λ _ _, true)
      [(op_convolution_forward, key_a); (op_convolution_forward, key_b);
       (op_convolution_forward, key_c); (op_convolution_forward, key_a)].
Proof.
  unfold Cache.at_most_once.
  destruct (Cache.run_m _ _ _ _) as [rs cs] eqn:Hrun.
  intros [Hnd Hsame].
  specialize (Hsame 0%nat 3%nat (op_convolution_forward, key_a) (Cache.Computation key_a 0)).
  assert (rs = [Some (Cache.Computation key_a 0); Some (Cache.Computation key_b 1);
                Some (Cache.Computation key_c 2); Some (Cache.Computation key_a 3)]) as ->.
  { apply (f_equal fst) in Hrun. by vm_compute in Hrun. }
  specialize (Hsame ltac:(lia) eq_refl eq_refl eq_refl). discriminate Hsame.
Qed.

(** ** Reordering *)

Ltac unfold_M :=
  unfold deref, index_, at_, in_world, get_dst, put_dst, get_pre_comp,
    put_pre_comp, get_weights, put_weights in *;
  unfold bind, ret, throw in *.

(** C10: when the input or the output is empty, [reorder::compute]
    returns at once: whatever the key encoders, the cache contents, the
    web and the engine are, the call succeeds and leaves the caches, the
    queue of the web, the calls submitted to the engine (so the buffer of
    the output) and the allocator as they were. *)
Theorem reorder_compute_empty `{!Env} (sync_reorder web_opt : bool)
    (input output : tensor) (attr : attr_t.t) (w : world) :
  is_empty input = true ∨ is_empty output = true →
  reorder_compute sync_reorder web_opt input output attr w = (inr tt, w).
Proof.
  intros Hempty. unfold reorder_compute.
  assert (is_empty input || is_empty output = true) as ->; [|done].
  destruct Hempty as [-> | ->]; [done|apply orb_true_r].
Qed.

Lemma reorder_compute_empty_witness :
  reorder_compute (H:=Sample.env) true true (init (Sample.nchw_of []) 1%N)
    Sample.dst attr_t.create Sample.start = (inr tt, Sample.start).
Proof.
  apply (reorder_compute_empty (H:=Sample.env)). left. reflexivity.
Defined.

(** ** Fusion dispatch *)

Section Fusion.
Context `{!Env}.

Lemma fetch_or_create_m_ok kind key w :
  build_ok kind key = true →
  ∃ c w', fetch_or_create_m kind key w = (inr c, w').
Proof.
  intros Hok. unfold fetch_or_create_m, Cache.fetch_or_create_m, Cache.fetch_or_create.
  destruct (Cache.find key (Cache.store (caches w kind))) as [c|] eqn:Hfind.
  - by eexists _, _.
  - rewrite Hok. by eexists _, _.
Qed.

Lemma negotiate_ok provided expected w :
  ∃ t w', negotiate provided expected w = (inr t, w').
Proof.
  unfold negotiate. case_decide; by eexists _, _.
Qed.

Lemma create_computation_ok web_opt src weights bias dst_dims dst strides
    dilates padding_l padding_r attr alg prop pad w :
  build_ok op_convolution_forward
    (create_computation_key src weights bias dst_dims strides dilates
       padding_l padding_r attr alg prop pad) = true →
  ∃ r w', create_computation web_opt src weights bias dst_dims dst strides
            dilates padding_l padding_r attr alg prop pad w = (inr r, w').
Proof.
  intros Hok. unfold create_computation.
  destruct (fetch_or_create_m_ok _ _ w Hok) as (c & w1 & Hfetch).
  unfold_M. rewrite Hfetch.
  destruct (negotiate_ok src (expected_src_descriptor c) w1) as (t1 & w2 & ->).
  destruct (negotiate_ok (as_weights weights) (expected_weights_descriptor c) w2)
    as (t2 & w3 & ->).
  simpl. by eexists _, _.
Qed.

(** When the fused computation compiles and its producers can be tracked,
    [conv_fuse] returns a node. *)
Lemma conv_fuse_fuses c attr s :
  build_ok op_convolution_forward
    (create_computation_key (cap_src c) (cap_weights c) (cap_bias c)
       (cap_dst_dims c) (cap_strides c) (cap_dilates c) (cap_padding_l c)
       (cap_padding_r c) attr (cap_algorithm c) (cap_prop_kind c)
       (cap_padding_kind c)) = true →
  (∀ nodes cn producers, deps_built nodes cn producers = true) →
  ∃ node s', conv_fuse c attr s = (inr (Some node), s').
Proof.
  intros Hok Hdeps. unfold conv_fuse.
  destruct (create_computation_ok true (cap_src c) (cap_weights c) (cap_bias c)
              (cap_dst_dims c) (fs_dst s) (cap_strides c) (cap_dilates c)
              (cap_padding_l c) (cap_padding_r c) attr (cap_algorithm c)
              (cap_prop_kind c) (cap_padding_kind c) (fs_world s) Hok)
    as (r & w' & Hcreate).
  unfold_M. simpl. rewrite Hcreate. simpl. unfold build_deps. simpl.
  rewrite Hdeps. by eexists _, _.
Qed.

(** Where the relu attribute comes from: with [web_opt], a relu whose
    producers can be tracked is enqueued with the attribute
    [CN_FUSION_RELU] and its [alpha] and [beta]; nothing in the call looks
    at the materialization of [src] or [dst]. *)
Lemma eltwise_relu_offers_fusion src dst prop alpha beta w dst' w' :
  (∀ nodes cn producers, deps_built nodes cn producers = true) →
  eltwise_forward_compute true src dst algorithm.eltwise_relu prop alpha beta w
    = (inr dst', w') →
  ∃ cn, web w' = web w ++ [cn] ∧
        cn_fattr cn = FusionAttr CN_FUSION_RELU [alpha; beta] [] ∧
        cn_deps cn = [src] ∧ cn_tars cn = [dst'] ∧ trace w' = trace w.
Proof.
  intros Hdeps. unfold eltwise_forward_compute, bind.
  destruct (fetch_or_create_m _ _ w) as [[e|c] w1] eqn:Hfetch; [done|].
  assert (web w1 = web w ∧ trace w1 = trace w) as [Hweb Htrace].
  { unfold fetch_or_create_m in Hfetch.
    destruct (Cache.fetch_or_create_m _ _ _ _ _) as [[c0|] cs];
      by simplify_eq. }
  destruct (tensor_eq dst src); simpl; unfold build_deps, enqueue; simpl;
    rewrite Hdeps; simpl; intros [= <- <-]; simpl; rewrite Hweb, Htrace;
    by eexists.
Qed.

(** C3: a pending convolution whose target carries a residual-sum
    attribute while the destination is not materialized: [fuse_if_necessary]
    returns no node, raises no error, calls neither closure and leaves the
    process state, the destination and [pre_comp] as they are; the node
    then fires as the plain operator it is.  A fused node comes back for a
    sum attribute only when the destination is materialized. *)
Theorem residual_sum_skipped_when_unmaterialized
    (self : computation_t) (tar_attr : fusion_attr_t) (c : capture)
    (f : capture * tensor) :
  conv_fuse_ self = Some c →
  conv_bn_folding_ self = Some f →
  ftype tar_attr = CN_FUSION_SUM →
  (∀ w dst pre_comp, is_materialized dst = false →
     fuse_if_necessary self tar_attr (FuseState w dst pre_comp None)
     = (inr None, FuseState w dst pre_comp (Some (cap_weights f.1)))) ∧
  (∀ w dst cn, is_materialized dst = false → cn_comp cn = self →
     fire cn tar_attr dst w
     = fire_computation_node (cn_comp cn) (cn_deps cn) (cn_tars cn) w) ∧
  (∀ s node s', fuse_if_necessary self tar_attr s = (inr (Some node), s') →
     is_materialized (fs_dst s) = true).
Proof.
  intros Hfuse Hfold Hsum.
  assert (∀ w dst pre_comp, is_materialized dst = false →
     fuse_if_necessary self tar_attr (FuseState w dst pre_comp None)
     = (inr None, FuseState w dst pre_comp (Some (cap_weights f.1)))) as Hskip.
  { intros w dst pre_comp Hdst. unfold fuse_if_necessary.
    rewrite Hfuse, Hfold, Hsum. unfold_M. simpl. by rewrite Hdst. }
  split; [done|]. split.
  - intros w dst cn Hdst <-. unfold fire. by rewrite Hskip.
  - intros s node s'. unfold fuse_if_necessary.
    rewrite Hfuse, Hfold, Hsum. unfold_M. simpl.
    destruct (is_materialized (fs_dst s)); [done|]. simpl. intros [=].
Qed.

(** X16: [fuse_if_necessary] itself does not look at the
    materialization of [dst] for an activation: for a relu attribute with
    parameters [a0] and [a1] it is the closure [conv_fuse] applied to the
    attribute [fuse_relu(1.0, a0, a1)], whose post-ops are the one relu
    pass, in whatever state [dst] is; and that closure returns a fused
    node whenever the fused computation compiles and its producers can be
    tracked.  (Which nodes the web asks, and when the tensors of a node
    become materialized, is decided in web.hpp and tensor.hpp.) *)
Theorem activation_fusion_regardless_of_materialization
    (self : computation_t) (tar_attr : fusion_attr_t) (c : capture)
    (f : capture * tensor) (a0 a1 : float) (rest : list float) :
  conv_fuse_ self = Some c →
  conv_bn_folding_ self = Some f →
  ftype tar_attr = CN_FUSION_RELU →
  fattrs tar_attr = a0 :: a1 :: rest →
  let attr := attr_t.fuse_relu float_1_0 a0 a1 in
  attr_t.get_post_ops attr = [post_eltwise float_1_0 algorithm.eltwise_relu a0 a1] ∧
  (∀ s, fuse_if_necessary self tar_attr s
        = conv_fuse c attr
            (FuseState (fs_world s) (fs_dst s) (fs_pre_comp s)
               (Some (cap_weights f.1)))) ∧
  (build_ok op_convolution_forward
     (create_computation_key (cap_src c) (cap_weights c) (cap_bias c)
        (cap_dst_dims c) (cap_strides c) (cap_dilates c) (cap_padding_l c)
        (cap_padding_r c) attr (cap_algorithm c) (cap_prop_kind c)
        (cap_padding_kind c)) = true →
   (∀ nodes cn producers, deps_built nodes cn producers = true) →
   ∀ s, ∃ node s', fuse_if_necessary self tar_attr s = (inr (Some node), s')).
Proof.
  intros Hfuse Hfold Hrelu Hattrs attr.
  assert (∀ s, fuse_if_necessary self tar_attr s
        = conv_fuse c attr
            (FuseState (fs_world s) (fs_dst s) (fs_pre_comp s)
               (Some (cap_weights f.1)))) as Heq.
  { intros s. unfold fuse_if_necessary.
    rewrite Hfuse, Hfold, Hrelu, Hattrs. unfold_M. simpl. done. }
  split; [done|]. split; [done|].
  intros Hok Hdeps s. rewrite Heq. by apply conv_fuse_fuses.
Qed.
End Fusion.

Lemma residual_sum_skipped_witness :
  fuse_if_necessary (H:=Sample.env) Sample.conv Sample.sum_attr
    (FuseState Sample.start
       (Tensor (Sample.nchw_of [1; 4; 8; 8]) 4%N false None) Sample.conv None)
  = (inr None,
     FuseState Sample.start
       (Tensor (Sample.nchw_of [1; 4; 8; 8]) 4%N false None) Sample.conv
       (Some Sample.weights)).
Proof.
  apply (residual_sum_skipped_when_unmaterialized (H:=Sample.env)
           Sample.conv Sample.sum_attr Sample.captured (Sample.captured, Sample.src)
           eq_refl eq_refl eq_refl).
  reflexivity.
Defined.

Lemma activation_fusion_witness :
  ∃ node s',
    fuse_if_necessary (H:=Sample.env) Sample.conv Sample.relu_attr
      (FuseState Sample.start Sample.dst Sample.conv None)
    = (inr (Some node), s').
Proof.
  apply (activation_fusion_regardless_of_materialization (H:=Sample.env)
           Sample.conv Sample.relu_attr Sample.captured
           (Sample.captured, Sample.src) float_0_0 float_0_0 []
           eq_refl eq_refl eq_refl eq_refl).
  - reflexivity.
  - reflexivity.
Defined.

(** ** Format negotiation *)

Section Negotiation.
Context `{!Env}.


(** What [negotiate] returns: the provided tensor itself when its
    descriptor is the expected one, a tensor on the allocator's next
    buffer otherwise. *)
Lemma negotiate_spec provided expected w :
  negotiate provided expected w =
    if decide (get_descriptor provided = expected)
    then (inr provided, w)
    else (inr (init expected (next_buffer w)),
          World (caches w) (web w) (trace w) (N.succ (next_buffer w))).
Proof.
  unfold negotiate. destruct (decide (get_descriptor provided = expected)).
  - by rewrite decide_False by naive_solver.
  - by rewrite decide_True by done.
Qed.






Lemma fetch_or_create_m_resident kind key w c w' :
  (1 ≤ capacity)%nat →
  fetch_or_create_m kind key w = (inr c, w') →
  Cache.find key (Cache.store (caches w' kind)) = Some c.
Proof.
  intros Hcap. unfold fetch_or_create_m, Cache.fetch_or_create_m,
    Cache.fetch_or_create.
  destruct (Cache.find key (Cache.store (caches w kind))) as [c0|] eqn:Hfind.
  - intros [= <- <-]. simpl. rewrite decide_True by done.
    unfold Cache.touch. simpl. by rewrite decide_True.
  - destruct (build_ok kind key); [|done]. intros [= <- <-]. simpl.
    rewrite decide_True by done. unfold Cache.insert. simpl.
    destruct capacity as [|n]; [lia|]. simpl. by rewrite decide_True.
Qed.

Lemma fetch_or_create_m_hit kind key w c :
  Cache.find key (Cache.store (caches w kind)) = Some c →
  ∃ w', fetch_or_create_m kind key w = (inr c, w') ∧
        next_buffer w' = next_buffer w ∧
        ∀ kind', Cache.built (caches w' kind') = Cache.built (caches w kind').
Proof.
  intros Hfind. unfold fetch_or_create_m, Cache.fetch_or_create_m,
    Cache.fetch_or_create. rewrite Hfind. eexists. split; [done|].
  split; [done|]. intros kind'. simpl. by case_decide; subst.
Qed.

Lemma create_computation_fetches web_opt src weights bias dst_dims dst strides
    dilates padding_l padding_r attr alg prop pad w r w' :
  create_computation web_opt src weights bias dst_dims dst strides dilates
    padding_l padding_r attr alg prop pad w = (inr r, w') →
  ∃ w1, fetch_or_create_m op_convolution_forward
          (create_computation_key src weights bias dst_dims strides dilates
             padding_l padding_r attr alg prop pad) w
        = (inr (comp_cached (cr_comp r)), w1) ∧
        caches w' = caches w1.
Proof.
  unfold create_computation, bind.
  destruct (fetch_or_create_m _ _ w) as [[e|c] w1] eqn:Hfetch; [done|].
  rewrite !negotiate_spec.
  destruct (decide (get_descriptor src = expected_src_descriptor c));
    cbn beta iota; rewrite negotiate_spec;
    destruct (decide (get_descriptor (as_weights weights) = expected_weights_descriptor c));
    cbn beta iota; unfold allocate, ret; cbn; intros [= <- <-]; cbn;
    exists w1; (split; [|done]); by destruct web_opt.
Qed.

Lemma create_computation_after_fetch web_opt src weights bias dst_dims dst
    strides dilates padding_l padding_r attr alg prop pad w c w1 :
  fetch_or_create_m op_convolution_forward
    (create_computation_key src weights bias dst_dims strides dilates
       padding_l padding_r attr alg prop pad) w = (inr c, w1) →
  ∃ r w', create_computation web_opt src weights bias dst_dims dst strides
            dilates padding_l padding_r attr alg prop pad w = (inr r, w') ∧
          comp_cached (cr_comp r) = c ∧ caches w' = caches w1.
Proof.
  intros Hfetch. unfold create_computation, bind. rewrite Hfetch.
  rewrite !negotiate_spec.
  destruct (decide (get_descriptor src = expected_src_descriptor c));
    cbn beta iota; rewrite negotiate_spec;
    destruct (decide (get_descriptor (as_weights weights) = expected_weights_descriptor c));
    cbn beta iota; unfold allocate, ret; cbn;
    eexists _, _; (split; [done|]); (split; [|done]); by destruct web_opt.
Qed.

(** The scenario of the spec for C1 and C5: the first call builds and
    caches; a second call whose semantic inputs give the same key, on
    whatever buffers, gets the very object of the first and constructs
    nothing, provided the cache holds at least one object. *)
Lemma second_call_reuses_cached_computation (web_opt web_opt' : bool)
    (src weights bias src' weights' bias' : tensor) (dst_dims : dims)
    (dst dst' : tensor) (strides dilates padding_l padding_r : dims)
    (attr attr' : attr_t.t) (alg : algorithm.t) (prop : prop_kind.t)
    (pad : padding_kind.t) (w w1 : world) (r1 : created) :
  (1 ≤ capacity)%nat →
  create_computation_key src weights bias dst_dims strides dilates padding_l
    padding_r attr alg prop pad
  = create_computation_key src' weights' bias' dst_dims strides dilates
      padding_l padding_r attr' alg prop pad →
  create_computation web_opt src weights bias dst_dims dst strides dilates
    padding_l padding_r attr alg prop pad w = (inr r1, w1) →
  ∃ r2 w2,
    create_computation web_opt' src' weights' bias' dst_dims dst' strides
      dilates padding_l padding_r attr' alg prop pad w1 = (inr r2, w2) ∧
    comp_cached (cr_comp r2) = comp_cached (cr_comp r1) ∧
    ∀ kind, Cache.built (caches w2 kind) = Cache.built (caches w1 kind).
Proof.
  intros Hcap Hkey Hfirst.
  destruct (create_computation_fetches _ _ _ _ _ _ _ _ _ _ _ _ _ _ _ _ _ Hfirst)
    as (wa & Hfetch & Hcaches).
  apply (fetch_or_create_m_resident _ _ _ _ _ Hcap) in Hfetch.
  rewrite <-Hcaches, Hkey in Hfetch.
  destruct (fetch_or_create_m_hit _ _ _ _ Hfetch) as (wb & Hsecond & _ & Hbuilt).
  destruct (create_computation_after_fetch web_opt' src' weights' bias' dst_dims
              dst' strides dilates padding_l padding_r attr' alg prop pad
              w1 _ wb Hsecond) as (r2 & w2 & Hcreate & Hcomp & Hcaches2).
  exists r2, w2. split; [done|]. split; [done|].
  intros kind. by rewrite Hcaches2.
Qed.
End Negotiation.



(** ** Folding a normalization into the weights *)

Section Folding.
Context `{!Env}.


Lemma fold_is_cached_miss weights deps s :
  fold_not_cached weights deps →
  fold_is_cached weights deps s = (inr false, s).
Proof.
  intros [Hopts | (o2 & d2 & Ho2 & Hd2 & Hh)]; unfold fold_is_cached, has_opts.
  - by rewrite Hopts.
  - destruct (opts weights) as [os|] eqn:Hopts; [|done].
    unfold_M. simpl in *. rewrite Ho2, Hd2. by case_bool_decide.
Qed.



Lemma keeps_ret {A} (a : A) : keeps_other_caches (ret a).
Proof. by intros w r w' [= <- <-]. Qed.

Lemma keeps_throw {A} (e : error) : keeps_other_caches (throw (A:=A) e).
Proof. by intros w r w' [= <- <-]. Qed.

Lemma keeps_bind {A B} (m : M world A) (f : A → M world B) :
  keeps_other_caches m → (∀ a, keeps_other_caches (f a)) →
  keeps_other_caches (bind m f).
Proof.
  intros Hm Hf w r w'. unfold bind.
  destruct (m w) as [[e|a] w1] eqn:Hrun; apply Hm in Hrun as [Hweb Hcaches].
  { by intros [= <- <-]. }
  intros Hrun. apply Hf in Hrun as [Hweb' Hcaches']. split; [congruence|].
  intros kind Hkind. by rewrite Hcaches', Hcaches.
Qed.

Lemma keeps_index {A} (v : list A) i : keeps_other_caches (index_ v i).
Proof. unfold index_. destruct (v !! i); [apply keeps_ret|apply keeps_throw]. Qed.

Lemma keeps_at {A} (v : list A) i : keeps_other_caches (at_ v i).
Proof. unfold at_. destruct (v !! i); [apply keeps_ret|apply keeps_throw]. Qed.

Lemma keeps_init_scratch d : keeps_other_caches (init_scratch d).
Proof. by intros w r w' [= <- <-]. Qed.

Lemma keeps_submit e : keeps_other_caches (submit e).
Proof.
  intros w r w'. unfold submit. by destruct (execute_ok e); intros [= <- <-].
Qed.

Lemma keeps_fetch_reorder key :
  keeps_other_caches (fetch_or_create_m op_reorder key).
Proof.
  intros w r w'. unfold fetch_or_create_m, Cache.fetch_or_create_m.
  destruct (Cache.fetch_or_create _ _ _ _) as [[c|] st]; intros [= <- <-];
    (split; [done|]); intros kind Hkind; simpl; by rewrite decide_False.
Qed.

Lemma keeps_reorder_compute sync_reorder input output attr :
  keeps_other_caches (reorder_compute sync_reorder false input output attr).
Proof.
  unfold reorder_compute. destruct (is_empty input || is_empty output).
  { apply keeps_ret. }
  apply keeps_bind; [apply keeps_fetch_reorder|]. intros op.
  rewrite andb_false_l. apply keeps_submit.
Qed.

Lemma keeps_sum_compute scales inputs output :
  keeps_other_caches (sum_compute scales inputs output).
Proof.
  unfold sum_compute. apply keeps_bind; [apply keeps_index|]. intros inputs_0.
  destruct (negb (tensor_eq output inputs_0)).
  - apply keeps_bind.
    { unfold sum_init. destruct (sum_build_ok _ _ _);
        [apply keeps_ret|apply keeps_throw]. }
    intros _. apply keeps_bind.
    { by intros w r w' [= <- <-]. }
    intros h. apply keeps_bind; [apply keeps_submit|]. intros _.
    apply keeps_ret.
  - apply keeps_bind.
    { unfold sum_init. destruct (sum_build_ok _ _ _);
        [apply keeps_ret|apply keeps_throw]. }
    intros _. apply keeps_bind; [apply keeps_submit|]. intros _.
    apply keeps_ret.
Qed.

Lemma keeps_bn_folding_weights weights bn_attrs epsilon :
  keeps_other_caches (bn_folding_weights weights bn_attrs epsilon).
Proof.
  unfold bn_folding_weights.
  apply keeps_bind; [apply keeps_index|]. intros var.
  apply keeps_bind; [apply keeps_index|]. intros scale.
  apply keeps_bind; [apply keeps_init_scratch|]. intros factor.
  apply keeps_bind; [apply keeps_init_scratch|]. intros tmp.
  apply keeps_bind; [apply keeps_init_scratch|]. intros _weights.
  apply keeps_bind; [apply keeps_reorder_compute|]. intros _.
  apply keeps_bind; [apply keeps_at|]. intros d1.
  apply keeps_bind; [apply keeps_at|]. intros d2.
  apply keeps_bind; [apply keeps_at|]. intros d3.
  apply keeps_bind; [apply keeps_at|]. intros d0.
  apply keeps_bind; [|intros; apply keeps_ret].
  destruct (decide _); [|apply keeps_ret].
  apply keeps_bind; [apply keeps_init_scratch|]. intros _weights_res.
  apply keeps_bind; [apply keeps_reorder_compute|]. intros _. apply keeps_ret.
Qed.

(** However [bn_folding] ends, it leaves the queue of the web and the
    caches of all operator kinds but [reorder] as they were. *)
Lemma keeps_bn_folding weights bias bn_attrs epsilon :
  keeps_other_caches (bn_folding weights bias bn_attrs epsilon).
Proof.
  unfold bn_folding.
  apply keeps_bind; [apply keeps_bn_folding_weights|]. intros folding_weights.
  apply keeps_bind; [apply keeps_index|]. intros factor.
  apply keeps_bind; [apply keeps_index|]. intros mean.
  apply keeps_bind; [apply keeps_index|]. intros shift.
  apply keeps_bind; [apply keeps_init_scratch|]. intros _bias.
  apply keeps_bind; [apply keeps_sum_compute|]. intros _bias1.
  apply keeps_bind; [apply keeps_sum_compute|]. intros _bias2.
  apply keeps_ret.
Qed.

(** C8 (as amended): when [bn_folding] throws, the lambda
    [conv_bn_folding] and with it [fuse_if_necessary] throw the same error
    and have written nothing of their own: the [opts] of the weights, the
    computation [pre_comp] points to and the destination are as before and
    no node was made.  The process state is the one the fold itself left:
    the queue of the web and the caches of all operator kinds but
    [reorder] are as before; the cache of the reorders, the calls
    submitted to the engine and the allocator are as the calls that
    [bn_folding] made before it threw have left them. *)
Theorem failed_fold_writes_nothing (c : capture) (src_in : tensor)
    (deps : list tensor) (epsilon : float) (s : fuse_state)
    (weights : tensor) (e : error) (w' : world) :
  fs_weights s = Some weights →
  fold_not_cached weights deps →
  bn_folding weights (cap_bias c) deps epsilon (fs_world s) = (inl e, w') →
  conv_bn_folding c src_in deps epsilon s
    = (inl e, FuseState w' (fs_dst s) (fs_pre_comp s) (Some weights)) ∧
  (∀ self tar_attr c_fuse rest,
     conv_fuse_ self = Some c_fuse →
     conv_bn_folding_ self = Some (c, src_in) →
     cap_weights c = weights →
     tar_attr = FusionAttr CN_FUSION_BN (epsilon :: rest) deps →
     fuse_if_necessary self tar_attr s
       = (inl e, FuseState w' (fs_dst s) (fs_pre_comp s) (Some weights))) ∧
  web w' = web (fs_world s) ∧
  (∀ kind, kind ≠ op_reorder → caches w' kind = caches (fs_world s) kind).
Proof.
  intros Hweights Hmiss Hfold.
  assert (∀ s0, fs_weights s0 = Some weights → fs_world s0 = fs_world s →
    conv_bn_folding c src_in deps epsilon s0
    = (inl e, FuseState w' (fs_dst s0) (fs_pre_comp s0) (Some weights))) as Hlambda.
  { intros s0 Hw0 Hworld. unfold conv_bn_folding, folded_weights_and_bias.
    unfold bind at 1. unfold bind at 1. unfold get_weights. rewrite Hw0.
    unfold bind at 1. rewrite (fold_is_cached_miss _ _ _ Hmiss).
    unfold_M. simpl. rewrite Hworld, Hfold, Hw0. done. }
  split; [by apply Hlambda|]. split; [|by apply keeps_bn_folding in Hfold].
  intros self tar_attr c_fuse rest Hfuse Hfolding Hcap ->.
  unfold fuse_if_necessary. rewrite Hfuse, Hfolding. unfold_M. simpl.
  rewrite Hcap. rewrite Hlambda; done.
Qed.
End Folding.

(** Weights of three dims: the fold throws [out_of_range] at the [at]
    calls that follow its first reorder.  Nothing is written to the
    weights, the convolution cache is as before; the reorder was cached,
    one call reached the engine and three scratch buffers are taken. *)
Lemma failed_fold_writes_nothing_witness :
  ∃ w',
    conv_bn_folding (H:=Sample.env) Sample.short_captured Sample.src Sample.stats
      float_0_0
      (FuseState Sample.busy Sample.dst Sample.conv (Some Sample.short_weights))
    = (inl out_of_range,
       FuseState w' Sample.dst Sample.conv (Some Sample.short_weights)) ∧
    caches w' op_convolution_forward = caches Sample.busy op_convolution_forward ∧
    length (trace w') = S (length (trace Sample.busy)) ∧
    next_buffer w' = (next_buffer Sample.busy + 3)%N.
Proof.
  exists (bn_folding (H:=Sample.env) Sample.short_weights
            (cap_bias Sample.short_captured) Sample.stats float_0_0 Sample.busy).2.
  destruct (failed_fold_writes_nothing (H:=Sample.env) Sample.short_captured
              Sample.src Sample.stats float_0_0
              (FuseState Sample.busy Sample.dst Sample.conv
                 (Some Sample.short_weights))
              Sample.short_weights out_of_range
              (bn_folding (H:=Sample.env) Sample.short_weights
                 (cap_bias Sample.short_captured) Sample.stats float_0_0
                 Sample.busy).2
              eq_refl (or_introl eq_refl) eq_refl)
    as (Hlambda & _ & _ & Hcaches).
  split; [exact Hlambda|]. split; [by apply Hcaches|].
  split; reflexivity.
Defined.

(** C8 (as stated) fails: the cache of the reorders is full; a fold on
    weights of three dims caches its first reorder, which evicts the
    oldest resident reorder, and then throws [out_of_range]. *)
Lemma failed_fold_evicts_cached_reorder :
  ¬ failed_fold_keeps_caches (H:=Sample.env).
Proof.
  intros Hkeeps.
  specialize (Hkeeps Sample.short_captured Sample.src Sample.stats float_0_0
    (FuseState Sample.busy Sample.dst Sample.conv (Some Sample.short_weights))
    out_of_range
    (conv_bn_folding (H:=Sample.env) Sample.short_captured Sample.src Sample.stats
       float_0_0
       (FuseState Sample.busy Sample.dst Sample.conv
          (Some Sample.short_weights))).2
    eq_refl op_reorder Sample.first_reorder_key
    (Cache.Computation Sample.first_reorder_key 0) eq_refl).
  vm_compute in Hkeeps. discriminate Hkeeps.
Qed.


(** ** Keys *)

Section PostOpsBytes.
Context `{!ToBytes kind.t, !ToBytes float, !ToBytes algorithm.t}.

Lemma fold_left_append (p : post_ops.t) (acc : bytestring) :
  fold_left (λ ret op, ret ++ post_ops.item_bytes op) p acc
  = acc ++ mjoin (post_ops.item_bytes <$> p).
Proof.
  revert acc. induction p as [|op p IH]; intros acc; simpl.
  - by rewrite app_nil_r.
  - rewrite IH. by rewrite <-app_assoc.
Qed.

(** The bytes of a sequence are the bytes of its items, one after the
    other. *)
Lemma to_bytes_items (p : post_ops.t) :
  post_ops.to_bytes p = mjoin (post_ops.item_bytes <$> p).
Proof. unfold post_ops.to_bytes. by rewrite fold_left_append. Qed.

Lemma to_bytes_app (p q : post_ops.t) :
  post_ops.to_bytes (p ++ q) = post_ops.to_bytes p ++ post_ops.to_bytes q.
Proof. rewrite !to_bytes_items, fmap_app. apply join_app. Qed.

(** Every item has at least its dot. *)
Lemma item_bytes_not_nil (op : post_op) : post_ops.item_bytes op ≠ [].
Proof.
  destruct op; unfold post_ops.item_bytes; simpl; intros Hnil;
    apply (f_equal length) in Hnil; rewrite length_app in Hnil;
    simpl in Hnil; lia.
Qed.

(** C6 (as amended): [post_ops::to_bytes] emits no count: the empty
    sequence has no bytes and a sequence has the bytes of its items in
    order, each item being its kind, a dot and its parameters separated by
    dots.  Two sequences, of equal or different lengths, reordered or not,
    have different bytes unless they are equal, provided that among their
    items none has bytes that are a prefix of the bytes of a different
    one. *)
Theorem post_ops_bytes_concatenate_items (p q : post_ops.t) :
  (∀ a b, a ∈ p → b ∈ q →
     post_ops.item_bytes a `prefix_of` post_ops.item_bytes b ∨
     post_ops.item_bytes b `prefix_of` post_ops.item_bytes a → a = b) →
  post_ops.to_bytes [] = [] ∧
  post_ops.to_bytes p = mjoin (post_ops.item_bytes <$> p) ∧
  (post_ops.to_bytes p = post_ops.to_bytes q → p = q).
Proof.
  intros Hprefix. split; [done|]. split; [apply to_bytes_items|].
  rewrite !to_bytes_items. revert q Hprefix.
  induction p as [|a p IH]; intros [|b q] Hprefix; simpl; [done| | |].
  - intros Heq. symmetry in Heq. apply app_eq_nil in Heq as [Hb _].
    by apply item_bytes_not_nil in Hb.
  - intros Heq. apply app_eq_nil in Heq as [Ha _].
    by apply item_bytes_not_nil in Ha.
  - intros Heq.
    assert (a = b) as ->.
    { apply Hprefix; [by left..|].
      apply app_eq_inv in Heq as [(k & -> & _)|(k & -> & _)];
        [right|left]; by apply prefix_app_r. }
    apply app_inv_head in Heq. f_equal. apply IH; [|done].
    intros a' b' Ha' Hb'. apply Hprefix; by right.
Qed.
End PostOpsBytes.

(** C5: the key of a convolution is a function of the semantic inputs
    alone: two derivations on tensors with the same data type and dims and
    on attributes with the same post-ops and output scales, with the same
    dims of the result, strides, dilates, paddings, algorithm, propagation
    kind and padding kind, give the same bytes, whatever the buffers, the
    layouts, the materialization and the [opts] of the tensors and the
    rounding mode of the attributes are, and in whatever state the process
    is. *)
Theorem key_derivation_deterministic `{!Env}
    (src src' weights weights' bias bias' : tensor)
    (dst_dims strides dilates padding_l padding_r : dims)
    (attr attr' : attr_t.t) (alg : algorithm.t) (prop : prop_kind.t)
    (pad : padding_kind.t) :
  get_data_type src = get_data_type src' →
  get_dims src = get_dims src' →
  get_dims weights = get_dims weights' →
  get_dims bias = get_dims bias' →
  attr_t.get_post_ops attr = attr_t.get_post_ops attr' →
  attr_t.output_scales attr = attr_t.output_scales attr' →
  attr_t.to_bytes attr = attr_t.to_bytes attr' ∧
  create_computation_key src weights bias dst_dims strides dilates padding_l
    padding_r attr alg prop pad
  = create_computation_key src' weights' bias' dst_dims strides dilates
      padding_l padding_r attr' alg prop pad.
Proof.
  intros Htype Hsrc Hweights Hbias Hops Hscales.
  assert (attr_t.to_bytes attr = attr_t.to_bytes attr') as Hattr.
  { unfold attr_t.to_bytes. by rewrite Hops, Hscales. }
  split; [done|]. unfold create_computation_key.
  by rewrite Htype, Hsrc, Hweights, Hbias, Hattr.
Qed.

Section KeyExamples.
Import Sample.

(** A sum followed by a relu, and the same two reordered: different
    bytes. *)
Lemma post_ops_bytes_witness :
  post_ops.to_bytes (post_ops.residual float_1_0 float_0_0 float_0_0)
  ≠ post_ops.to_bytes [post_eltwise float_1_0 algorithm.eltwise_relu float_0_0 float_0_0;
                       post_sum float_1_0].
Proof.
  intros Heq.
  apply post_ops_bytes_concatenate_items in Heq; [discriminate Heq|].
  intros a b Ha Hb Hpre.
  apply list_elem_of_In in Ha, Hb. simpl in Ha, Hb.
  destruct Ha as [<-|[<-|[]]], Hb as [<-|[<-|[]]]; try reflexivity;
    exfalso; destruct Hpre as [Hpre|Hpre]; revert Hpre;
    lazymatch goal with
    | |- ?x `prefix_of` ?y → False =>
        apply (proj1 (bool_decide_eq_false (x `prefix_of` y))); reflexivity
    end.
Defined.

(** C6 (as stated) fails: no count is emitted, the empty sequence of
    post-ops is serialized to no byte at all. *)
Lemma post_ops_bytes_have_no_count :
  ¬ count_prefixed post_ops.to_bytes.
Proof.
  intros (count & item & Hcount & Hbytes).
  specialize (Hbytes []). simpl in Hbytes.
  apply (Hcount 0%nat). symmetry in Hbytes.
  by apply app_eq_nil in Hbytes as [? _].
Qed.

(** The same configuration on other buffers, in another layout, with
    another rounding mode: the same key. *)
Lemma key_derivation_witness :
  create_computation_key src weights bias dst_dims [1; 1] [1; 1] [1; 1] [1; 1]
    attr_t.create algorithm.convolution_direct prop_kind.forward
    padding_kind.zero
  = create_computation_key
      (Tensor (Descriptor [1; 3; 8; 8] data_type.f32 (format.blocked 8)) 31%N false None)
      folded_weights (init (Descriptor [4] data_type.f32 format.x) 33%N)
      dst_dims [1; 1] [1; 1] [1; 1] [1; 1]
      (attr_t.set_int_output_round_mode attr_t.create round_mode.round_down)
      algorithm.convolution_direct prop_kind.forward padding_kind.zero.
Proof.
  apply key_derivation_deterministic; reflexivity.
Defined.
End KeyExamples.

(** ** Batch-normalization folding *)

Section BnFoldingFacts.
Context {F : Type}.
Variables (fadd fsub fmul fdiv : F → F → F) (fsqrt : F → F).
Variables (f_1_0 f_m1_0 : F).

Local Abbreviation cblas_sscal := (BnFolding.cblas_sscal fmul).
Local Abbreviation scale_blocks := (BnFolding.scale_blocks fmul).

Lemma cblas_sscal_length n a x off :
  (off + n ≤ length x)%nat → length (cblas_sscal n a x off) = length x.
Proof.
  intros Hle. unfold BnFolding.cblas_sscal.
  rewrite !length_app, length_fmap, !length_take, !length_drop. lia.
Qed.

Lemma cblas_sscal_lookup n a x off j :
  (off + n ≤ length x)%nat →
  cblas_sscal n a x off !! j =
    if decide (off ≤ j < off + n)%nat then fmul a <$> x !! j else x !! j.
Proof.
  intros Hle. unfold BnFolding.cblas_sscal.
  destruct (decide (j < off)%nat) as [Hlt|Hge].
  - rewrite lookup_app_l by (rewrite length_take; lia).
    rewrite lookup_take_lt by lia. by rewrite decide_False by lia.
  - rewrite lookup_app_r by (rewrite length_take; lia).
    rewrite length_take, Nat.min_l by lia.
    destruct (decide (j < off + n)%nat) as [Hlt2|Hge2].
    + rewrite lookup_app_l by (rewrite length_fmap, length_take, length_drop; lia).
      rewrite list_lookup_fmap, lookup_take_lt, lookup_drop by lia.
      rewrite decide_True by lia. do 2 f_equal. lia.
    + rewrite lookup_app_r by (rewrite length_fmap, length_take, length_drop; lia).
      rewrite length_fmap, length_take, length_drop, Nat.min_l by lia.
      rewrite lookup_drop, decide_False by lia. f_equal. lia.
Qed.

(** The loop over the output channels, element by element. *)
Lemma scale_blocks_lookup blk f count : ∀ o w,
  (o + count ≤ length f)%nat →
  ((o + count) * blk ≤ length w)%nat →
  ∃ w', scale_blocks blk f w o count = Some w' ∧
        length w' = length w ∧
        ∀ j, w' !! j =
          if decide (o * blk ≤ j < (o + count) * blk)%nat
          then x ← w !! j; fo ← f !! (j / blk)%nat; Some (fmul fo x)
          else w !! j.
Proof.
  induction count as [|count IH]; intros o w Hf Hw; simpl.
  - exists w. split; [done|]. split; [done|]. intros j.
    by rewrite decide_False by lia.
  - destruct (lookup_lt_is_Some_2 f o) as [fo Hfo]; [lia|].
    rewrite Hfo. simpl.
    assert (o * blk + blk ≤ length w)%nat as Hin by lia.
    destruct (IH (S o) (cblas_sscal blk fo w (o * blk))) as (w' & -> & Hlen & Hlook);
      [lia|rewrite cblas_sscal_length by done; lia|].
    exists w'. split; [done|]. split; [by rewrite Hlen, cblas_sscal_length|].
    intros j. rewrite Hlook, !cblas_sscal_lookup by done.
    destruct (decide (o * blk ≤ j < o * blk + blk)%nat) as [Hj|Hj].
    + rewrite decide_False by lia. rewrite decide_True by lia.
      assert (j / blk = o)%nat as ->.
      { symmetry. apply (Nat.div_unique j blk o (j - o * blk)); lia. }
      rewrite Hfo. by destruct (w !! j).
    + destruct (decide (S o * blk ≤ j < (S o + count) * blk)%nat).
      * by rewrite decide_True by lia.
      * by rewrite decide_False by lia.
Qed.

(** The laws of the arithmetic that relate what the kernels compute to the
    formulas of the spec; they hold of the IEEE operations on numbers. *)
Hypothesis mul_1_l : ∀ x, fmul f_1_0 x = x.
Hypothesis mul_comm : ∀ x y, fmul x y = fmul y x.
Hypothesis add_comm : ∀ x y, fadd x y = fadd y x.
Hypothesis sub_def : ∀ x y, fadd x (fmul f_m1_0 y) = fsub x y.

Local Abbreviation spec_factor := (BnFolding.spec_factor fadd fdiv fsqrt).
Local Abbreviation spec_weights := (BnFolding.spec_weights fmul).
Local Abbreviation spec_bias := (BnFolding.spec_bias fadd fsub fmul).

Lemma factor_is_spec_factor var scale epsilon :
  length scale = length var →
  let n := length var in
  BnFolding.vsDiv fdiv n scale
    (BnFolding.vsSqrt fsqrt n
       (BnFolding.cblas_saxpy fadd fmul n epsilon
          (BnFolding.fast_memset f_1_0 n) var))
  = spec_factor var scale epsilon.
Proof.
  intros Hlen n. unfold BnFolding.cblas_saxpy, BnFolding.fast_memset.
  rewrite (take_ge var), (drop_ge var), app_nil_r by done.
  rewrite take_replicate, Nat.min_id, zip_with_replicate_l by done.
  unfold BnFolding.vsSqrt, BnFolding.vsDiv.
  rewrite (take_ge (_ <$> var)) by (rewrite length_fmap; subst n; lia).
  rewrite (take_ge scale), (take_ge (_ <$> _))
    by (rewrite ?length_fmap; subst n; lia).
  rewrite <-list_fmap_compose, zip_with_fmap_r.
  unfold BnFolding.spec_factor. apply zip_with_ext; [|done..].
  intros s v. simpl. by rewrite (mul_comm epsilon), mul_1_l, add_comm.
Qed.

Lemma bias_is_spec_bias factor bias mean shift :
  length mean = length bias → length factor = length bias →
  BnFolding.sum_compute fadd fmul f_1_0 f_1_0
    (BnFolding.vsMul fmul
       (length (BnFolding.sum_compute fadd fmul f_1_0 f_m1_0 bias mean))
       (BnFolding.sum_compute fadd fmul f_1_0 f_m1_0 bias mean) factor)
    shift
  = spec_bias factor bias mean shift.
Proof.
  intros Hmean Hfactor. unfold BnFolding.sum_compute, BnFolding.vsMul.
  rewrite !take_ge by (rewrite ?length_zip_with; lia).
  unfold BnFolding.spec_bias.
  assert (zip_with (λ xi yi, fadd (fmul f_1_0 xi) (fmul f_m1_0 yi)) bias mean
          = zip_with fsub bias mean) as ->.
  { apply zip_with_ext; [|done..]. intros x y. by rewrite mul_1_l, sub_def. }
  clear Hmean Hfactor. generalize (zip_with fsub bias mean). intros bm.
  revert factor shift.
  induction bm as [|x bm IH]; intros [|f factor] [|s shift]; simpl; try done.
  rewrite IH. by rewrite !mul_1_l, (mul_comm x).
Qed.

Lemma weights_are_spec_weights (o blk : nat) w factor w' :
  length w = (o * blk)%nat → length factor = o →
  length w' = length w →
  (∀ j, w' !! j =
     if decide (0 * blk ≤ j < (0 + o) * blk)%nat
     then x ← w !! j; fo ← factor !! (j / blk)%nat; Some (fmul fo x)
     else w !! j) →
  w' = spec_weights w factor.
Proof.
  intros Hw Hf Hlen Hlook. apply list_eq. intros j. rewrite Hlook.
  unfold BnFolding.spec_weights. rewrite list_lookup_imap.
  destruct (w !! j) as [x|] eqn:Hj; [|by case_decide].
  apply lookup_lt_Some in Hj as Hlt.
  rewrite decide_True by lia. simpl.
  assert (length w / length factor = blk)%nat as ->.
  { rewrite Hw, Hf, Nat.mul_comm. apply Nat.div_mul. lia. }
  assert (blk ≠ 0)%nat by lia.
  destruct (lookup_lt_is_Some_2 factor (j / blk)%nat) as [fo ->].
  { rewrite Hf. apply Nat.Div0.div_lt_upper_bound. lia. }
  simpl. by rewrite mul_comm.
Qed.

(** Supporting C2: on weights of four dims [O, I, H, W], with statistics
    and bias of [O] elements, [bn_folding] computes what the spec asks:
    the factor [scale / sqrt(var + epsilon)] of every output channel, the
    weights of every output channel scaled by its factor, and the bias
    [factor * (bias - mean) + shift]. *)
Lemma bn_folding_four_dims (o i h wd : Z) (w bias mean var scale shift : list F)
    (epsilon : F) :
  0 ≤ o → 0 ≤ i → 0 ≤ h → 0 ≤ wd →
  length w = Z.to_nat (o * i * h * wd) →
  length var = Z.to_nat o → length scale = Z.to_nat o →
  length bias = Z.to_nat o → length mean = Z.to_nat o →
  let factor := spec_factor var scale epsilon in
  BnFolding.bn_folding fadd fmul fdiv fsqrt f_1_0 f_m1_0 [o; i; h; wd]
    w bias mean var scale shift epsilon
  = Some (factor, spec_weights w factor, spec_bias factor bias mean shift).
Proof.
  intros Ho Hi Hh Hwd Hw Hvar Hscale Hbias Hmean factor.
  unfold BnFolding.bn_folding, BnFolding.bn_folding_weights. simpl.
  assert (length (BnFolding.cblas_saxpy fadd fmul (length var) epsilon
            (BnFolding.fast_memset f_1_0 (length var)) var) = length var) as Hl1.
  { unfold BnFolding.cblas_saxpy, BnFolding.fast_memset.
    rewrite length_app, length_zip_with, !length_take, length_replicate,
      length_drop. lia. }
  rewrite Hl1.
  assert (length (BnFolding.vsSqrt fsqrt (length var)
            (BnFolding.cblas_saxpy fadd fmul (length var) epsilon
               (BnFolding.fast_memset f_1_0 (length var)) var)) = length var) as Hl2.
  { unfold BnFolding.vsSqrt. rewrite length_fmap, length_take. lia. }
  rewrite Hl2, factor_is_spec_factor by lia. fold factor.
  assert (length factor = Z.to_nat o) as Hfactor.
  { unfold factor, BnFolding.spec_factor. rewrite length_zip_with. lia. }
  destruct (scale_blocks_lookup (Z.to_nat (i * h * wd)) factor (Z.to_nat o) 0%nat w)
    as (w' & -> & Hlen & Hlook); [lia|nia|].
  simpl. rewrite bias_is_spec_bias by lia.
  do 3 f_equal.
  apply (weights_are_spec_weights (Z.to_nat o) (Z.to_nat (i * h * wd))); try done.
  rewrite Hw. nia.
Qed.
End BnFoldingFacts.

(** The lemma on integers, whose arithmetic has the laws: two output
    channels of two elements each. *)
Example bn_folding_four_dims_on_integers :
  BnFolding.bn_folding Z.add Z.mul Z.div Z.sqrt 1 (-1) [2; 1; 1; 2]
    [1; 2; 3; 4] [5; 7] [1; 1] [3; 8] [6; 9] [10; 20] 1
  = Some ([3; 3], [3; 6; 9; 12], [22; 38]).
Proof.
  rewrite (bn_folding_four_dims Z.add Z.sub Z.mul Z.div Z.sqrt 1 (-1));
    try done; intros; lia.
Qed.

(** C2: the weights [g, oc/g, ic/g, kh, kw] = [2, 1, 1, 1, 2] of a grouped
    convolution, all 1.0, with the factors 2.0 and 3.0 of its two output
    channels (scale 2.0 and 3.0, variance 0.0, epsilon 1.0), in binary32
    arithmetic.  [bn_folding] scales the blocks of
    [dims[1] * dims[2] * dims[3] = 1] element of the first [dims[0] = 2]
    indices, the first and the second element, and leaves the other two;
    the spec asks for the two elements of the first output channel scaled
    by 2.0 and the two of the second by 3.0. *)
Theorem bn_folding_grouped_weights :
  let f := BnFolding.f32_of_Z in
  let w := [f 1; f 1; f 1; f 1] in
  BnFolding.bn_folding BnFolding.f32_add BnFolding.f32_mul BnFolding.f32_div
    BnFolding.f32_sqrt (f 1) (f (-1)) [2; 1; 1; 1; 2]
    w [f 0; f 0] [f 0; f 0] [f 0; f 0] [f 2; f 3] [f 0; f 0] (f 1)
  = Some ([f 2; f 3], [f 2; f 3; f 1; f 1], [f 0; f 0]) ∧
  BnFolding.spec_weights BnFolding.f32_mul w [f 2; f 3]
  = [f 2; f 2; f 3; f 3] ∧
  [f 2; f 3; f 1; f 1] ≠ [f 2; f 2; f 3; f 3].
Proof. split; [|split]; vm_compute; [reflexivity..|discriminate]. Qed.

(** ** Loops and raw buffers *)

Lemma rbind_ok {A B} (a : A) (f : A → result B) : rbind (ok a) f = f a.
Proof. done. Qed.

Lemma get_dim_lookup (d : dims) (i x : Z) :
  0 ≤ i → d !! Z.to_nat i = Some x → get_dim d i = ok x.
Proof.
  intros Hi Hx. unfold get_dim. by rewrite bool_decide_eq_true_2, Hx.
Qed.

Lemma for_each_app {A St} (l1 l2 : list A) (body : A → St → result St) s :
  for_each (l1 ++ l2) body s =
  match for_each l1 body s with
  | inr s' => for_each l2 body s'
  | inl e => inl e
  end.
Proof.
  revert s. induction l1 as [|a l1 IH]; intros s; simpl; [done|].
  destruct (body a s); [done|]. apply IH.
Qed.

Lemma for_each_ext {A St} (l : list A) (body1 body2 : A → St → result St) s :
  (∀ a s, a ∈ l → body1 a s = body2 a s) →
  for_each l body1 s = for_each l body2 s.
Proof.
  revert s. induction l as [|a l IH]; intros s Hext; simpl; [done|].
  rewrite Hext by left. destruct (body2 a s); [done|].
  apply IH. intros. apply Hext. by right.
Qed.

(** A loop nest is one loop over the iteration space in lexicographic
    order. *)
Lemma for_each_nest {A B St} (l : list A) (inner : A → list B)
    (body : A → B → St → result St) s :
  for_each l (λ a, for_each (inner a) (body a)) s =
  for_each (a ← l; (λ b, (a, b)) <$> inner a) (λ p, body p.1 p.2) s.
Proof.
  revert s. induction l as [|a l IH]; intros s; [done|].
  rewrite bind_cons, for_each_app. cbn [for_each].
  assert (∀ s, for_each ((λ b, (a, b)) <$> inner a) (λ p, body p.1 p.2) s
               = for_each (inner a) (body a) s) as ->.
  { clear. induction (inner a) as [|b bs IH]; intros s; simpl; [done|].
    destruct (body a b s); [done|]. apply IH. }
  destruct (for_each (inner a) (body a) s); [done|]. apply IH.
Qed.

Section Memcpy.
Context {T : Type}.
Implicit Types X Y : list T.

Lemma memcpy_ok Y d X s count :
  0 ≤ count → 0 ≤ d → d + count ≤ Z.of_nat (length Y) →
  0 ≤ s → s + count ≤ Z.of_nat (length X) →
  ∃ Y', memcpy Y d X s count = inr Y' ∧ length Y' = length Y ∧
    (∀ k, 0 ≤ k < count →
       Y' !! Z.to_nat (d + k) = X !! Z.to_nat (s + k)) ∧
    (∀ p, (p < Z.to_nat d ∨ Z.to_nat (d + count) ≤ p)%nat → Y' !! p = Y !! p).
Proof.
  intros Hc Hd HdY Hs HsX. unfold memcpy.
  rewrite bool_decide_eq_true_2 by done.
  eexists; split; [done|].
  assert (length (take (Z.to_nat d) Y) = Z.to_nat d) as Hl1
    by (rewrite length_take; lia).
  assert (length (take (Z.to_nat count) (drop (Z.to_nat s) X)) = Z.to_nat count)
    as Hl2 by (rewrite length_take, length_drop; lia).
  split; [|split].
  - rewrite !length_app, Hl1, Hl2, length_drop. lia.
  - intros k Hk.
    rewrite lookup_app_r by lia. rewrite Hl1.
    rewrite lookup_app_l by lia.
    rewrite lookup_take_lt by lia. rewrite lookup_drop.
    f_equal. lia.
  - intros p [Hp|Hp].
    + rewrite lookup_app_l by lia. by rewrite lookup_take_lt by lia.
    + rewrite lookup_app_r by lia. rewrite Hl1.
      rewrite lookup_app_r by lia. rewrite Hl2.
      rewrite lookup_drop. f_equal. lia.
Qed.

Lemma copy_blocks_spec S B X ps Y :
  0 ≤ S → 0 ≤ B →
  Z.of_nat (length X) = B * S → Z.of_nat (length Y) = B * S →
  (∀ p, p ∈ ps → 0 ≤ p.1 < B ∧ 0 ≤ p.2 < B) →
  NoDup ps.*1 →
  ∃ Y', copy_blocks S X ps Y = inr Y' ∧ length Y' = length Y ∧
    (∀ p k, p ∈ ps → 0 ≤ k < S →
       Y' !! Z.to_nat (S * p.1 + k) = X !! Z.to_nat (S * p.2 + k)) ∧
    (∀ b k, b ∉ ps.*1 → 0 ≤ b → 0 ≤ k < S →
       Y' !! Z.to_nat (S * b + k) = Y !! Z.to_nat (S * b + k)).
Proof.
  intros HS HB HX. unfold copy_blocks.
  revert Y. induction ps as [|p ps IH]; intros Y HY Hin Hnd.
  { eexists; split; [done|]. split; [done|]. split; [|done].
    intros p k Hp. by apply elem_of_nil in Hp. }
  rewrite fmap_cons in Hnd. apply NoDup_cons in Hnd as [Hp Hnd].
  destruct (Hin p) as [Hp1 Hp2]; [by left|].
  destruct (memcpy_ok Y (S * p.1) X (S * p.2) S) as (Y1 & HY1 & Hlen1 & Hin1 & Hout1);
    [nia..|].
  destruct (IH Y1) as (Y' & HY' & Hlen' & Hin' & Hout');
    [congruence|by intros; apply Hin; right|done|].
  exists Y'. cbn [for_each]. rewrite HY1. split; [done|].
  split; [congruence|]. split.
  - intros q k [->|Hq]%elem_of_cons Hk.
    + rewrite Hout' by done || lia. by apply Hin1.
    + by apply Hin'.
  - intros b k Hb Hb0 Hk. rewrite fmap_cons in Hb.
    apply not_elem_of_cons in Hb as [Hne Hb].
    rewrite Hout' by done. apply Hout1. nia.
Qed.
End Memcpy.

Lemma for_each_fmap {A B St} (f : A → B) (l : list A)
    (body : B → St → result St) s :
  for_each (f <$> l) body s = for_each l (λ a, body (f a)) s.
Proof.
  revert s. induction l as [|a l IH]; intros s; simpl; [done|].
  destruct (body (f a) s); [done|]. apply IH.
Qed.

(** Two digits [a < m] and [b] determine each other's number [a + m * b]. *)
Lemma digits_inj m a b a' b' :
  0 ≤ a < m → 0 ≤ a' < m → a + m * b = a' + m * b' → a = a' ∧ b = b'.
Proof. intros Ha Ha' Heq. assert (b = b') by nia. subst. lia. Qed.

Section Shuffle.
Context {T : Type}.
Variables N C S group K : Z.
Hypothesis HN : 0 ≤ N.
Hypothesis HS : 0 ≤ S.
Hypothesis Hgroup : 0 < group.
Hypothesis HK : 0 ≤ K.
Hypothesis HC : C = group * K.

Local Abbreviation iterations := (iterations N group K).
Local Abbreviation grouped := (grouped C K).
Local Abbreviation interleaved := (interleaved C group).

Lemma elem_of_iterations n g i :
  (n, (g, i)) ∈ iterations ↔ 0 ≤ n < N ∧ 0 ≤ g < group ∧ 0 ≤ i < K.
Proof.
  unfold iterations. rewrite list_elem_of_bind. split.
  - intros (n' & Hin & Hn). apply list_elem_of_fmap in Hin as (p & Heq & Hp).
    simplify_eq. apply list_elem_of_bind in Hp as (g' & Hin & Hg).
    apply list_elem_of_fmap in Hin as (i' & Heq & Hi). simplify_eq.
    apply elem_of_seqZ in Hn, Hg, Hi. lia.
  - intros (Hn & Hg & Hi). exists n. split; [|apply elem_of_seqZ; lia].
    apply list_elem_of_fmap. exists (g, i). split; [done|].
    apply list_elem_of_bind. exists g. split; [|apply elem_of_seqZ; lia].
    apply list_elem_of_fmap. exists i. split; [done|]. apply elem_of_seqZ; lia.
Qed.

Lemma NoDup_iterations : NoDup iterations.
Proof.
  unfold iterations. apply NoDup_bind.
  - intros n n' p _ _ (? & ? & _)%list_elem_of_fmap
      (? & ? & _)%list_elem_of_fmap. by simplify_eq.
  - intros n _. apply NoDup_fmap_2; [by intros ?? [=]|].
    apply NoDup_bind.
    + intros g g' p _ _ (? & ? & _)%list_elem_of_fmap
        (? & ? & _)%list_elem_of_fmap. by simplify_eq.
    + intros g _. apply NoDup_fmap_2; [by intros ?? [=]|]. apply NoDup_seqZ.
    + apply NoDup_seqZ.
  - apply NoDup_seqZ.
Qed.

Lemma grouped_range it : it ∈ iterations → 0 ≤ grouped it < N * C.
Proof.
  destruct it as [n [g i]]. rewrite elem_of_iterations. unfold grouped. simpl.
  intros (Hn & Hg & Hi). nia.
Qed.

Lemma interleaved_range it : it ∈ iterations → 0 ≤ interleaved it < N * C.
Proof.
  destruct it as [n [g i]]. rewrite elem_of_iterations. unfold interleaved. simpl.
  intros (Hn & Hg & Hi). nia.
Qed.

Lemma grouped_inj it it' :
  it ∈ iterations → it' ∈ iterations → grouped it = grouped it' → it = it'.
Proof.
  destruct it as [n [g i]], it' as [n' [g' i']]. rewrite !elem_of_iterations.
  unfold grouped. simpl. intros (Hn & Hg & Hi) (Hn' & Hg' & Hi') Heq.
  destruct (digits_inj C (g * K + i) n (g' * K + i') n') as [Heq' ->]; [nia..|].
  destruct (digits_inj K i g i' g') as [-> ->]; [lia..|done].
Qed.

Lemma interleaved_inj it it' :
  it ∈ iterations → it' ∈ iterations → interleaved it = interleaved it' → it = it'.
Proof.
  destruct it as [n [g i]], it' as [n' [g' i']]. rewrite !elem_of_iterations.
  unfold interleaved. simpl. intros (Hn & Hg & Hi) (Hn' & Hg' & Hi') Heq.
  destruct (digits_inj C (i * group + g) n (i' * group + g') n') as [Heq' ->]; [nia..|].
  destruct (digits_inj group g i g' i') as [-> ->]; [lia..|done].
Qed.

(** Every channel of every batch item is the grouped block of an
    iteration. *)
Lemma grouped_surj b : 0 ≤ b < N * C → ∃ it, it ∈ iterations ∧ grouped it = b.
Proof.
  intros Hb. assert (0 < K) by nia. assert (0 < C) by nia.
  exists (b `div` C, ((b `mod` C) `div` K, (b `mod` C) `mod` K)).
  pose proof (Z.div_mod b C ltac:(lia)).
  pose proof (Z.mod_pos_bound b C ltac:(lia)).
  pose proof (Z.div_mod (b `mod` C) K ltac:(lia)).
  pose proof (Z.mod_pos_bound (b `mod` C) K ltac:(lia)).
  assert (0 ≤ b `div` C < N).
  { split; [apply Z.div_pos; lia|apply Z.div_lt_upper_bound; lia]. }
  assert (0 ≤ (b `mod` C) `div` K < group).
  { split; [apply Z.div_pos; lia|apply Z.div_lt_upper_bound; lia]. }
  split; [by apply elem_of_iterations|]. unfold grouped. simpl. lia.
Qed.

Lemma interleaved_surj b :
  0 ≤ b < N * C → ∃ it, it ∈ iterations ∧ interleaved it = b.
Proof.
  intros Hb. assert (0 < K) by nia. assert (0 < C) by nia.
  exists (b `div` C, ((b `mod` C) `mod` group, (b `mod` C) `div` group)).
  pose proof (Z.div_mod b C ltac:(lia)).
  pose proof (Z.mod_pos_bound b C ltac:(lia)).
  pose proof (Z.div_mod (b `mod` C) group ltac:(lia)).
  pose proof (Z.mod_pos_bound (b `mod` C) group ltac:(lia)).
  assert (0 ≤ b `div` C < N).
  { split; [apply Z.div_pos; lia|apply Z.div_lt_upper_bound; lia]. }
  assert (0 ≤ (b `mod` C) `div` group < K).
  { split; [apply Z.div_pos; lia|apply Z.div_lt_upper_bound; lia]. }
  split; [by apply elem_of_iterations|]. unfold interleaved. simpl. lia.
Qed.

(** The loop nest of the forward shuffle copies, block by block, the
    grouped channel of every iteration to its interleaved channel; the
    backward one copies the other way. *)
Lemma forward_loops (X Y : list T) :
  for_each (seqZ 0 N) (λ n,
    for_each (seqZ 0 group) (λ g,
      for_each (seqZ 0 K) (λ i Y,
        memcpy Y (g * S + n * C * S + group * S * i)
               X (g * K * S + n * C * S + S * i) S))) Y
  = copy_blocks S X ((λ it, (interleaved it, grouped it)) <$> iterations) Y.
Proof.
  unfold copy_blocks, iterations. rewrite for_each_fmap.
  rewrite <- (for_each_nest (seqZ 0 N) (λ _, _)
                (λ n p Y, memcpy Y (S * interleaved (n, p)) X (S * grouped (n, p)) S)).
  apply for_each_ext. intros n Y' _.
  rewrite <- (for_each_nest (seqZ 0 group) (λ _, seqZ 0 K)
                (λ g i Y, memcpy Y (S * interleaved (n, (g, i))) X
                                 (S * grouped (n, (g, i))) S)).
  apply for_each_ext. intros g Y'' _. apply for_each_ext. intros i Y''' _.
  unfold interleaved, grouped. simpl. f_equal; lia.
Qed.

Lemma backward_loops (dY dX : list T) :
  for_each (seqZ 0 N) (λ n,
    for_each (seqZ 0 group) (λ g,
      for_each (seqZ 0 K) (λ i dX,
        memcpy dX (g * K * S + n * C * S + S * i)
               dY (g * S + n * C * S + group * S * i) S))) dX
  = copy_blocks S dY ((λ it, (grouped it, interleaved it)) <$> iterations) dX.
Proof.
  unfold copy_blocks, iterations. rewrite for_each_fmap.
  rewrite <- (for_each_nest (seqZ 0 N) (λ _, _)
                (λ n p dX, memcpy dX (S * grouped (n, p)) dY (S * interleaved (n, p)) S)).
  apply for_each_ext. intros n Y' _.
  rewrite <- (for_each_nest (seqZ 0 group) (λ _, seqZ 0 K)
                (λ g i dX, memcpy dX (S * grouped (n, (g, i))) dY
                                 (S * interleaved (n, (g, i))) S)).
  apply for_each_ext. intros g Y'' _. apply for_each_ext. intros i Y''' _.
  unfold interleaved, grouped. simpl. f_equal; lia.
Qed.

Lemma forward_loops_spec (X Y : list T) :
  Z.of_nat (length X) = N * C * S → Z.of_nat (length Y) = N * C * S →
  ∃ Y', copy_blocks S X ((λ it, (interleaved it, grouped it)) <$> iterations) Y
          = inr Y' ∧ length Y' = length Y ∧
    ∀ it k, it ∈ iterations → 0 ≤ k < S →
      Y' !! Z.to_nat (S * interleaved it + k) = X !! Z.to_nat (S * grouped it + k).
Proof.
  intros HX HY.
  destruct (copy_blocks_spec S (N * C) X
              ((λ it, (interleaved it, grouped it)) <$> iterations) Y)
    as (Y' & HY' & Hlen & Hin & _); [done|nia|done|done| | |].
  - intros p (it & -> & Hit)%list_elem_of_fmap. simpl.
    split; [by apply interleaved_range|by apply grouped_range].
  - rewrite <- list_fmap_compose. apply NoDup_fmap_2_strong; [|apply NoDup_iterations].
    intros it it'. apply interleaved_inj.
  - exists Y'. split; [done|]. split; [done|]. intros it k Hit Hk.
    apply (Hin (interleaved it, grouped it)); [|done].
    apply list_elem_of_fmap. by exists it.
Qed.

Lemma backward_loops_spec (dY dX : list T) :
  Z.of_nat (length dY) = N * C * S → Z.of_nat (length dX) = N * C * S →
  ∃ dX', copy_blocks S dY ((λ it, (grouped it, interleaved it)) <$> iterations) dX
          = inr dX' ∧ length dX' = length dX ∧
    ∀ it k, it ∈ iterations → 0 ≤ k < S →
      dX' !! Z.to_nat (S * grouped it + k) = dY !! Z.to_nat (S * interleaved it + k).
Proof.
  intros HX HY.
  destruct (copy_blocks_spec S (N * C) dY
              ((λ it, (grouped it, interleaved it)) <$> iterations) dX)
    as (Y' & HY' & Hlen & Hin & _); [done|nia|done|done| | |].
  - intros p (it & -> & Hit)%list_elem_of_fmap. simpl.
    split; [by apply grouped_range|by apply interleaved_range].
  - rewrite <- list_fmap_compose. apply NoDup_fmap_2_strong; [|apply NoDup_iterations].
    intros it it'. apply grouped_inj.
  - exists Y'. split; [done|]. split; [done|]. intros it k Hit Hk.
    apply (Hin (grouped it, interleaved it)); [|done].
    apply list_elem_of_fmap. by exists it.
Qed.

(** Two buffers of [N * C] blocks that agree on the blocks [f it] of all
    iterations are equal, when [f] reaches every block. *)
Lemma blocks_eq (f : Z * (Z * Z) → Z) (X X' : list T) :
  (∀ b, 0 ≤ b < N * C → ∃ it, it ∈ iterations ∧ f it = b) →
  Z.of_nat (length X) = N * C * S → length X' = length X →
  (∀ it k, it ∈ iterations → 0 ≤ k < S →
     X' !! Z.to_nat (S * f it + k) = X !! Z.to_nat (S * f it + k)) →
  X' = X.
Proof.
  intros Hsurj HX Hlen Heq. apply list_eq. intros p.
  destruct (decide (p < length X)%nat) as [Hp|Hp].
  - assert (0 < S).
    { destruct (decide (S = 0)) as [HS0|]; [|lia].
      rewrite HS0, Z.mul_0_r in HX. lia. }
    pose proof (Z.div_mod (Z.of_nat p) S ltac:(lia)).
    pose proof (Z.mod_pos_bound (Z.of_nat p) S ltac:(lia)).
    destruct (Hsurj (Z.of_nat p `div` S)) as (it & Hit & Hb).
    { split; [apply Z.div_pos; lia|apply Z.div_lt_upper_bound; nia]. }
    specialize (Heq it (Z.of_nat p `mod` S) Hit ltac:(lia)).
    rewrite Hb in Heq.
    replace (Z.to_nat (S * (Z.of_nat p `div` S) + Z.of_nat p `mod` S)) with p in Heq by lia.
    done.
  - rewrite !lookup_ge_None_2 by lia. done.
Qed.
End Shuffle.

Section ShuffleCalls.
Context {T : Type}.
Variables N C H W group : Z.
Hypothesis Hgroup : 1 < group.
Hypothesis HN : 0 ≤ N.
Hypothesis HC : 0 ≤ C.
Hypothesis HS : 0 ≤ H * W.
Hypothesis Hrem : C `rem` group = 0.

Local Abbreviation K := (C `quot` group).

Lemma channels_per_group : 0 ≤ K ∧ C = group * K.
Proof.
  pose proof (Z.quot_rem' C group). split; [|lia].
  apply Z.quot_pos; lia.
Qed.

Lemma forward_compute_impl (X Y : list T) :
  channel_shuffle_forward.compute_impl [N; C; H; W] data_type.f32 X Y group =
  rbind (copy_blocks (H * W) X
           ((λ it, (interleaved C group it, grouped C K it))
              <$> iterations N group K) Y)
        (λ Y, ok (shuffled Y)).
Proof.
  unfold channel_shuffle_forward.compute_impl, get_dim, rbind, ok, IDEEP_ENFORCE.
  simpl. rewrite (bool_decide_eq_false_2 (group = 0)) by lia.
  rewrite (bool_decide_eq_true_2 (C `rem` group = 0)) by done.
  rewrite (bool_decide_eq_false_2 (group ≤ 1)) by lia.
  by rewrite forward_loops.
Qed.

Lemma backward_compute_impl (dY dX : list T) :
  channel_shuffle_backward.compute_impl [N; C; H; W] data_type.f32 dY dX group =
  rbind (copy_blocks (H * W) dY
           ((λ it, (grouped C K it, interleaved C group it))
              <$> iterations N group K) dX)
        (λ dX, ok (shuffled dX)).
Proof.
  unfold channel_shuffle_backward.compute_impl, get_dim, rbind, ok, IDEEP_ENFORCE.
  simpl. rewrite (bool_decide_eq_false_2 (group = 0)) by lia.
  rewrite (bool_decide_eq_true_2 (C `rem` group = 0)) by done.
  rewrite (bool_decide_eq_false_2 (group ≤ 1)) by lia.
  by rewrite backward_loops.
Qed.
End ShuffleCalls.

(** X1: on a four-dimensional f32 tensor [N; C; H; W] whose channels split
    into [group > 1] groups of [K = C / group], with both buffers holding
    [N * C * H * W] elements (a number that fits an [int]), the forward
    channel shuffle succeeds, keeps the size of the destination, and writes
    to channel [i * group + g] of batch item [n] the [H * W] elements of
    channel [g * K + i] of the source. *)
Theorem channel_shuffle_forward_interleaves {T} (N C H W group : Z)
    (X Y : list T) :
  1 < group → 0 ≤ N → 0 ≤ C → 0 ≤ H * W → C `rem` group = 0 →
  Z.of_nat (length X) = N * C * (H * W) →
  Z.of_nat (length Y) = N * C * (H * W) →
  N * C * (H * W) ≤ 2147483647 →
  ∃ Y',
    channel_shuffle_forward.compute_impl [N; C; H; W] data_type.f32 X Y group
      = inr (shuffled Y') ∧
    length Y' = length Y ∧
    ∀ n g i s,
      0 ≤ n < N → 0 ≤ g < group → 0 ≤ i < C `quot` group → 0 ≤ s < H * W →
      Y' !! Z.to_nat ((n * C + (i * group + g)) * (H * W) + s)
      = X !! Z.to_nat ((n * C + (g * (C `quot` group) + i)) * (H * W) + s).
Proof.
  intros Hgroup HN HC HS Hrem HX HY _.
  destruct (channels_per_group C group Hgroup HC Hrem) as [HK HCK].
  destruct (forward_loops_spec (T:=T) N C (H * W) group (C `quot` group)
              HN HS ltac:(lia) HK HCK X Y HX HY) as (Y' & HY' & Hlen & Hin).
  exists Y'. rewrite forward_compute_impl, HY' by done. split; [done|].
  split; [done|]. intros n g i s Hn Hg Hi Hs.
  specialize (Hin (n, (g, i)) s). unfold interleaved, grouped in Hin.
  simpl in Hin.
  replace ((n * C + (i * group + g)) * (H * W) + s)
    with (H * W * (n * C + (i * group + g)) + s) by lia.
  replace ((n * C + (g * (C `quot` group) + i)) * (H * W) + s)
    with (H * W * (n * C + (g * (C `quot` group) + i)) + s) by lia.
  apply Hin; [|done]. by apply elem_of_iterations.
Qed.

Lemma channel_shuffle_forward_interleaves_witness :
  ∃ Y',
    channel_shuffle_forward.compute_impl [1; 4; 1; 1] data_type.f32
      [10; 11; 12; 13] [0; 0; 0; 0] 2 = inr (shuffled Y') ∧
    length Y' = length [0; 0; 0; 0] ∧
    ∀ n g i s,
      0 ≤ n < 1 → 0 ≤ g < 2 → 0 ≤ i < 4 `quot` 2 → 0 ≤ s < 1 * 1 →
      Y' !! Z.to_nat ((n * 4 + (i * 2 + g)) * (1 * 1) + s)
      = [10; 11; 12; 13] !! Z.to_nat ((n * 4 + (g * (4 `quot` 2) + i)) * (1 * 1) + s).
Proof.
  apply (channel_shuffle_forward_interleaves 1 4 1 1 2 [10; 11; 12; 13] [0; 0; 0; 0]);
    (reflexivity || lia).
Defined.

(** X2: the two channel shuffles undo each other.  On a four-dimensional
    f32 tensor [N; C; H; W] whose channels split into [group > 1] groups,
    with buffers of [N * C * H * W] elements (a number that fits an
    [int]), the backward shuffle of what the forward shuffle wrote gives
    the source buffer back, and the forward shuffle of what the backward
    shuffle wrote gives the gradient buffer back. *)
Theorem channel_shuffle_backward_undoes_forward {T} (N C H W group : Z)
    (X Y dX : list T) :
  1 < group → 0 ≤ N → 0 ≤ C → 0 ≤ H * W → C `rem` group = 0 →
  Z.of_nat (length X) = N * C * (H * W) →
  Z.of_nat (length Y) = N * C * (H * W) →
  Z.of_nat (length dX) = N * C * (H * W) →
  N * C * (H * W) ≤ 2147483647 →
  (∃ Y',
     channel_shuffle_forward.compute_impl [N; C; H; W] data_type.f32 X Y group
       = inr (shuffled Y') ∧
     channel_shuffle_backward.compute_impl [N; C; H; W] data_type.f32 Y' dX group
       = inr (shuffled X)) ∧
  (∃ dX',
     channel_shuffle_backward.compute_impl [N; C; H; W] data_type.f32 X dX group
       = inr (shuffled dX') ∧
     channel_shuffle_forward.compute_impl [N; C; H; W] data_type.f32 dX' Y group
       = inr (shuffled X)).
Proof.
  intros Hgroup HN HC HS Hrem HX HY HdX _.
  destruct (channels_per_group C group Hgroup HC Hrem) as [HK HCK].
  assert (0 < group) as Hg0 by lia.
  split.
  - destruct (forward_loops_spec (T:=T) N C (H * W) group _
                HN HS Hg0 HK HCK X Y HX HY) as (Y' & HY' & Hlen & Hin).
    destruct (backward_loops_spec (T:=T) N C (H * W) group _
                HN HS Hg0 HK HCK Y' dX ltac:(lia) HdX) as (X' & HX' & Hlen' & Hin').
    exists Y'. rewrite forward_compute_impl, HY' by done. split; [done|].
    rewrite backward_compute_impl, HX' by done. simpl. do 2 f_equal.
    eapply (blocks_eq N C (H * W) group _ HS HCK (grouped C (C `quot` group)));
      [by apply grouped_surj|done|lia|].
    intros it k Hit Hk. rewrite Hin' by done. by apply Hin.
  - destruct (backward_loops_spec (T:=T) N C (H * W) group _
                HN HS Hg0 HK HCK X dX HX HdX) as (dX' & HdX' & Hlen & Hin).
    destruct (forward_loops_spec (T:=T) N C (H * W) group _
                HN HS Hg0 HK HCK dX' Y ltac:(lia) HY) as (Y' & HY' & Hlen' & Hin').
    exists dX'. rewrite backward_compute_impl, HdX' by done. split; [done|].
    rewrite forward_compute_impl, HY' by done. simpl. do 2 f_equal.
    eapply (blocks_eq N C (H * W) group _ HS HCK (interleaved C group));
      [by apply interleaved_surj|done|lia|].
    intros it k Hit Hk. rewrite Hin' by done. by apply Hin.
Qed.

Lemma channel_shuffle_backward_undoes_forward_witness :
  (∃ Y',
     channel_shuffle_forward.compute_impl [2; 6; 1; 2] data_type.f32
       (seqZ 0 24) (replicate 24 0) 3 = inr (shuffled Y') ∧
     channel_shuffle_backward.compute_impl [2; 6; 1; 2] data_type.f32 Y'
       (replicate 24 0) 3 = inr (shuffled (seqZ 0 24))) ∧
  (∃ dX',
     channel_shuffle_backward.compute_impl [2; 6; 1; 2] data_type.f32
       (seqZ 0 24) (replicate 24 0) 3 = inr (shuffled dX') ∧
     channel_shuffle_forward.compute_impl [2; 6; 1; 2] data_type.f32 dX'
       (replicate 24 0) 3 = inr (shuffled (seqZ 0 24))).
Proof.
  apply (channel_shuffle_backward_undoes_forward 2 6 1 2 3);
    (reflexivity || lia).
Defined.

(** X3: what the two shuffles do before any element moves, on a tensor
    with at least four dims, [C] channels and a group count other than
    zero: a group count that does not divide [C] fails the check "Invalid
    channel and group", whatever the data type; with a dividing group
    count a data type other than f32 fails the check "invalid data type";
    and with both checks passed a group count of 1 or less (negative ones
    included) hands the tensors to [direct_copy::compute] and moves
    nothing itself. *)
Theorem channel_shuffle_checks {T} (src_dims : dims)
    (src_data_type : data_type.t) (X Y : list T) (group C d2 d3 : Z) :
  src_dims !! 1%nat = Some C → src_dims !! 2%nat = Some d2 →
  src_dims !! 3%nat = Some d3 → group ≠ 0 →
  let forward :=
    channel_shuffle_forward.compute_impl src_dims src_data_type X Y group in
  let backward :=
    channel_shuffle_backward.compute_impl src_dims src_data_type X Y group in
  (C `rem` group ≠ 0 →
   forward = inl (enforce_failed "Invalid channel and group") ∧
   backward = inl (enforce_failed "Invalid channel and group")) ∧
  (C `rem` group = 0 → src_data_type ≠ data_type.f32 →
   forward = inl (enforce_failed "invalid data type") ∧
   backward = inl (enforce_failed "invalid data type")) ∧
  (C `rem` group = 0 → src_data_type = data_type.f32 → group ≤ 1 →
   forward = inr by_direct_copy ∧ backward = inr by_direct_copy).
Proof.
  intros HC Hd2 Hd3 Hgroup forward backward. subst forward backward.
  unfold channel_shuffle_forward.compute_impl,
    channel_shuffle_backward.compute_impl, IDEEP_ENFORCE.
  rewrite (get_dim_lookup _ 1 C), (get_dim_lookup _ 2 d2),
    (get_dim_lookup _ 3 d3) by done.
  rewrite !rbind_ok.
  rewrite (bool_decide_eq_false_2 (group = 0)) by done. rewrite !rbind_ok.
  split; [|split].
  - intros Hrem. by rewrite (bool_decide_eq_false_2 (C `rem` group = 0)).
  - intros Hrem Hdt. rewrite (bool_decide_eq_true_2 (C `rem` group = 0)) by done.
    simpl. by rewrite (bool_decide_eq_false_2 (src_data_type = data_type.f32)).
  - intros Hrem Hdt Hle. rewrite (bool_decide_eq_true_2 (C `rem` group = 0)) by done.
    simpl. rewrite (bool_decide_eq_true_2 (src_data_type = data_type.f32)) by done.
    simpl. by rewrite (bool_decide_eq_true_2 (group ≤ 1)).
Qed.

Lemma channel_shuffle_checks_witness :
  (6 `rem` (-3) ≠ 0 →
   channel_shuffle_forward.compute_impl [1; 6; 2; 2] data_type.s8
     [1; 2] [3; 4] (-3) = inl (enforce_failed "Invalid channel and group") ∧
   channel_shuffle_backward.compute_impl [1; 6; 2; 2] data_type.s8
     [1; 2] [3; 4] (-3) = inl (enforce_failed "Invalid channel and group")) ∧
  (6 `rem` (-3) = 0 → data_type.s8 ≠ data_type.f32 →
   channel_shuffle_forward.compute_impl [1; 6; 2; 2] data_type.s8
     [1; 2] [3; 4] (-3) = inl (enforce_failed "invalid data type") ∧
   channel_shuffle_backward.compute_impl [1; 6; 2; 2] data_type.s8
     [1; 2] [3; 4] (-3) = inl (enforce_failed "invalid data type")) ∧
  (6 `rem` (-3) = 0 → data_type.s8 = data_type.f32 → -3 ≤ 1 →
   channel_shuffle_forward.compute_impl [1; 6; 2; 2] data_type.s8
     [1; 2] [3; 4] (-3) = inr by_direct_copy ∧
   channel_shuffle_backward.compute_impl [1; 6; 2; 2] data_type.s8
     [1; 2] [3; 4] (-3) = inr by_direct_copy).
Proof.
  apply (channel_shuffle_checks [1; 6; 2; 2] data_type.s8 [1; 2] [3; 4]
           (-3) 6 2 2); (reflexivity || lia).
Defined.

(** ** The work of the threads *)


Lemma nondecreasing_le (f : Z → Z) (n : Z) :
  0 ≤ n → (∀ i, 0 ≤ i < n → f i ≤ f (i + 1)) → f 0 ≤ f n.
Proof.
  intros Hn. revert n Hn. apply (natlike_ind (λ n, _ → f 0 ≤ f n)); [lia|].
  intros n Hn IH Hmono. replace (Z.succ n) with (n + 1) by lia.
  etrans. { apply IH. intros. apply Hmono. lia. } apply Hmono. lia.
Qed.

(** Consecutive chunks [f i, f (i + 1)) of a nondecreasing [f] make up
    the interval from [f 0] to [f n]. *)
Lemma seqZ_chunks (f : Z → Z) (n : Z) :
  0 ≤ n → (∀ i, 0 ≤ i < n → f i ≤ f (i + 1)) →
  (i ← seqZ 0 n; seqZ (f i) (f (i + 1) - f i)) = seqZ (f 0) (f n - f 0).
Proof.
  intros Hn. revert n Hn. apply (natlike_ind (λ n, _ → _ = _)).
  - intros _. by rewrite Z.sub_diag.
  - intros n Hn IH Hmono.
    assert (f 0 ≤ f n) by (apply (nondecreasing_le f n); [done|intros; apply Hmono; lia]).
    replace (Z.succ n) with (n + 1) by lia.
    rewrite seqZ_app by lia. rewrite bind_app, IH by (intros; apply Hmono; lia).
    simpl. rewrite app_nil_r.
    specialize (Hmono n ltac:(lia)).
    replace (f (n + 1) - f 0) with ((f n - f 0) + (f (n + 1) - f n)) by lia.
    rewrite (seqZ_app (f 0)) by lia.
    replace (Z.of_nat 0 + (0 + n)) with n by lia.
    do 2 f_equal. lia.
Qed.

(** X4: with at least one thread, the blocks of batch items that the
    threads of [sum_nChwXC_along_channel] and [sum_along_axis] work on are
    consecutive and make up [0, mb): every item is summed by exactly one
    thread. *)
Theorem sum_array_blocks_partition (max_threads mb : Z) :
  1 ≤ max_threads → 1 ≤ mb → mb + max_threads ≤ 2147483647 →
  sum_array.items_of_threads max_threads mb = seqZ 0 mb.
Proof.
  intros Hthr Hmb _. unfold sum_array.items_of_threads, sum_array.blocks.
  pose proof (Z.quot_rem' mb max_threads) as Hqr.
  pose proof (Z.rem_bound_pos mb max_threads ltac:(lia) ltac:(lia)) as Hr.
  pose proof (Z.quot_pos mb max_threads ltac:(lia) ltac:(lia)) as Hq.
  set (len := mb `quot` max_threads) in *.
  set (ex := mb `rem` max_threads) in *.
  set (f := λ ithr, if bool_decide (ithr ≤ ex) then (len + 1) * ithr
                    else ex * (len + 1) + (ithr - ex) * len).
  assert (∀ ithr,
            sum_array.block_of len ex ithr = (f ithr, f (ithr + 1))) as Hblock.
  { intros ithr. unfold sum_array.block_of, f.
    repeat case_bool_decide; f_equal; lia. }
  assert (f 0 = 0) as Hf0 by (unfold f; rewrite bool_decide_eq_true_2; lia).
  assert (∀ n, 0 ≤ n →
            (ithr ← seqZ 0 n;
             let '(bstart, bend) := sum_array.block_of len ex ithr in
             seqZ bstart (bend - bstart)) = seqZ 0 (f n)) as Hall.
  { intros n Hn.
    trans (seqZ (f 0) (f n - f 0)); [|by rewrite Hf0, Z.sub_0_r].
    rewrite <- (seqZ_chunks f n); [|done|].
    - apply list_bind_ext; [|done]. intros ithr. by rewrite Hblock.
    - intros i Hi. unfold f. repeat case_bool_decide; nia. }
  rewrite Hall.
  - f_equal. unfold f. repeat case_bool_decide; nia.
  - case_bool_decide; lia.
Qed.

Lemma sum_array_blocks_partition_witness :
  sum_array.items_of_threads 4 10 = seqZ 0 10.
Proof. apply (sum_array_blocks_partition 4 10); lia. Defined.

(** X5: with at least one thread, the parts of [r] that the threads of
    [bernoulli_generate] fill are consecutive and make up [r[0..n)]: every
    number is generated exactly once (a thread whose part would start
    past the end generates nothing). *)
Theorem bernoulli_generate_fills_once (n nthr : Z) :
  1 ≤ nthr → 0 ≤ n → n + nthr ≤ 9223372036854775807 → nthr ≤ 2147483647 →
  dropout_forward.bernoulli_generate_indices n nthr = seqZ 0 n.
Proof.
  intros Hthr Hn _ _. unfold dropout_forward.bernoulli_generate_indices.
  set (avg := (n + nthr - 1) `quot` nthr).
  assert (0 ≤ avg) as Havg by (apply Z.quot_pos; lia).
  assert (n ≤ nthr * avg) as Hcover.
  { pose proof (Z.quot_rem' (n + nthr - 1) nthr).
    pose proof (Z.rem_bound_pos (n + nthr - 1) nthr ltac:(lia) ltac:(lia)).
    fold avg in H. lia. }
  set (f := λ ithr, Z.min (ithr * avg) n).
  trans (seqZ (f 0) (f nthr - f 0)).
  - rewrite <- (seqZ_chunks f nthr); [|lia|].
    + apply list_bind_ext; [|done]. intros ithr.
      unfold dropout_forward.my_part, f. fold avg.
      case_bool_decide as Hamount.
      * f_equal; lia.
      * symmetry. apply length_zero_iff_nil. rewrite length_seqZ. lia.
    + intros i Hi. unfold f. lia.
  - unfold f. f_equal; lia.
Qed.

Lemma bernoulli_generate_fills_once_witness :
  dropout_forward.bernoulli_generate_indices 10 4 = seqZ 0 10.
Proof. apply (bernoulli_generate_fills_once 10 4); lia. Defined.

(** ** [sum_array] *)


Lemma to_unsigned_eq (d : nat) (a : Z) :
  Z.of_nat d < 2 ^ 31 → - 2 ^ 31 ≤ a < 2 ^ 31 →
  Z.of_nat d = sum_array.to_unsigned a ↔ a = Z.of_nat d.
Proof.
  intros Hd Ha. unfold sum_array.to_unsigned.
  change (2 ^ 32) with 4294967296. change (2 ^ 31) with 2147483648 in *.
  split.
  - intros Heq. destruct (decide (0 ≤ a)).
    + rewrite Z.mod_small in Heq by lia. done.
    + assert (a `mod` 4294967296 = a + 4294967296); [|lia].
      symmetry. apply (Z.mod_unique _ _ (-1)); lia.
  - intros ->. rewrite Z.mod_small; lia.
Qed.

Lemma get_dst_dims_filter (src_dims : dims) (axis : list Z) :
  Z.of_nat (length src_dims) < 2 ^ 31 →
  (∀ a, a ∈ axis → - 2 ^ 31 ≤ a < 2 ^ 31) →
  sum_array.get_dst_dims src_dims axis =
  (filter (λ p, Z.of_nat p.1 ∉ axis) (imap pair src_dims)).*2.
Proof.
  intros Hlen Hint. unfold sum_array.get_dst_dims.
  assert (∀ (l : list (nat * Z)) acc,
    (∀ p, p ∈ l → Z.of_nat p.1 < 2 ^ 31) →
    foldl (λ dst_dims '(d, src_dims_d),
           let a := default (length axis)
                      (fst <$> list_find (λ axis_a, Z.of_nat d = sum_array.to_unsigned axis_a) axis) in
           if bool_decide (length axis ≤ a)%nat
           then dst_dims ++ [src_dims_d]
           else dst_dims) acc l
    = acc ++ (filter (λ p, Z.of_nat p.1 ∉ axis) l).*2) as Hgen.
  { induction l as [|[d x] l IH]; intros acc Hl; simpl.
    { by rewrite app_nil_r. }
    rewrite IH by (intros; apply Hl; by right).
    specialize (Hl (d, x) ltac:(left)). simpl in Hl.
    rewrite filter_cons. simpl.
    destruct (list_find _ axis) as [[a y]|] eqn:Hfind; simpl.
    - apply list_find_Some in Hfind as (Ha & Hy & _).
      apply lookup_lt_Some in Ha as Hlt.
      rewrite bool_decide_eq_false_2 by lia.
      apply list_elem_of_lookup_2 in Ha.
      apply to_unsigned_eq in Hy; [|done|by apply Hint]. subst y.
      by rewrite decide_False by (intros Hn; by apply Hn).
    - rewrite bool_decide_eq_true_2 by lia.
      rewrite decide_True.
      + by rewrite <- app_assoc.
      + intros Hin. eapply list_find_None in Hfind.
        rewrite Forall_forall in Hfind. apply (Hfind _ Hin).
        apply to_unsigned_eq; [done|by apply Hint|done]. }
  rewrite Hgen; [done|].
  intros [d x] Hp. apply list_elem_of_lookup in Hp as [i Hi].
  rewrite list_lookup_imap in Hi.
  apply fmap_Some in Hi as (z & Hz & Heq). simplify_eq.
  apply lookup_lt_Some in Hz. simpl. lia.
Qed.

Lemma filter_length_complement {A} (P : A → Prop) `{!∀ x, Decision (P x)}
    (l : list A) :
  (length (filter (λ x, ¬ P x) l) + length (filter P l) = length l)%nat.
Proof.
  rewrite <- (Permutation_length (filter_app_complement P l)), length_app. lia.
Qed.

(** X6: [get_dst_dims] keeps, in order, the dims whose position is not
    listed in [axis]; when the listed positions are distinct and exist,
    the result has as many dims as [sum_common_along_axis] takes for the
    rank of [dst]. *)
Theorem get_dst_dims_drops_axes (src_dims : dims) (axis : list Z) :
  Z.of_nat (length src_dims) < 2 ^ 31 →
  (∀ a, a ∈ axis → - 2 ^ 31 ≤ a < 2 ^ 31) →
  sum_array.get_dst_dims src_dims axis
    = (filter (λ p, Z.of_nat p.1 ∉ axis) (imap pair src_dims)).*2 ∧
  (NoDup axis → (∀ a, a ∈ axis → 0 ≤ a < Z.of_nat (length src_dims)) →
   Z.of_nat (length (sum_array.get_dst_dims src_dims axis))
     = Z.of_nat (length src_dims) - Z.of_nat (length axis)).
Proof.
  intros Hlen Hint. split; [by apply get_dst_dims_filter|].
  intros Hnd Hrange. rewrite get_dst_dims_filter by done.
  rewrite length_fmap.
  pose proof (filter_length_complement (λ p : nat * Z, Z.of_nat p.1 ∈ axis)
                (imap pair src_dims)) as Hsplit.
  rewrite length_imap in Hsplit.
  assert ((λ p : nat * Z, Z.of_nat p.1) <$>
            filter (λ p : nat * Z, Z.of_nat p.1 ∈ axis) (imap pair src_dims)
          ≡ₚ axis) as Hperm.
  { assert ((imap pair src_dims).*1 = seq 0 (length src_dims)) as Hfst.
    { rewrite fmap_imap. rewrite <- (list_fmap_id (seq 0 (length src_dims))).
      apply (imap_seq_0 src_dims id). }
    apply NoDup_Permutation; [|done|].
    - apply NoDup_fmap_2_strong.
      + intros [d x] [d' x'] [_ Hp]%list_elem_of_filter [_ Hp']%list_elem_of_filter Heq.
        simpl in Heq. apply Nat2Z.inj in Heq as ->.
        apply list_elem_of_lookup in Hp as [i Hi], Hp' as [i' Hi'].
        rewrite list_lookup_imap in Hi, Hi'.
        apply fmap_Some in Hi as (z & Hz & Heq), Hi' as (z' & Hz' & Heq').
        by simplify_eq.
      + apply NoDup_filter. apply (NoDup_fmap_1 fst). rewrite Hfst. apply NoDup_seq.
    - intros a. rewrite list_elem_of_fmap. split.
      + intros ([d x] & -> & [Hin _]%list_elem_of_filter). done.
      + intros Ha. destruct (Hrange a Ha) as [Ha0 Halt].
        destruct (lookup_lt_is_Some_2 src_dims (Z.to_nat a)) as [x Hx]; [lia|].
        exists (Z.to_nat a, x). split; [simpl; lia|].
        apply list_elem_of_filter. split; [simpl; by rewrite Z2Nat.id|].
        apply list_elem_of_lookup. exists (Z.to_nat a).
        by rewrite list_lookup_imap, Hx. }
  apply Permutation_length in Hperm. rewrite length_fmap in Hperm.
  change (2 ^ 31) with 2147483648 in *. lia.
Qed.

Lemma get_dst_dims_drops_axes_witness :
  sum_array.get_dst_dims [2; 3; 4; 5] [0; 2]
    = (filter (λ p, Z.of_nat p.1 ∉ [0; 2]) (imap pair [2; 3; 4; 5])).*2 ∧
  (NoDup [0; 2] → (∀ a, a ∈ [0; 2] → 0 ≤ a < Z.of_nat (length [2; 3; 4; 5])) →
   Z.of_nat (length (sum_array.get_dst_dims [2; 3; 4; 5] [0; 2]))
     = Z.of_nat (length [2; 3; 4; 5]) - Z.of_nat (length [0; 2])).
Proof.
  apply (get_dst_dims_drops_axes [2; 3; 4; 5] [0; 2]).
  - reflexivity.
  - intros a Ha. change (2 ^ 31) with 2147483648.
    repeat (apply elem_of_cons in Ha as [->|Ha]; [lia|]).
    by apply elem_of_nil in Ha.
Defined.



Lemma valid_axis_3 (axis : list Z) :
  length axis = 3%nat →
  sum_array.valid_axis 3 axis [0; 2; 3] = true ↔ axis = [0; 2; 3].
Proof.
  intros Hlen. destruct axis as [|a0 [|a1 [|a2 [|]]]]; simpl in Hlen; try lia.
  unfold sum_array.valid_axis. simpl.
  rewrite !andb_true_iff, !bool_decide_eq_true.
  split; [intros ([=] & [=] & [=] & _); by subst|by intros [= -> -> ->]].
Qed.

Lemma sum_fast_along_axis_accepts web_opt deps_built src_dims src_data_type
    src_format axis :
  let r := sum_array.sum_fast_along_axis web_opt deps_built src_dims
             src_data_type src_format axis in
  (r.2 = sum_array.NOERR ↔
     (src_format = sum_array.mkldnn_nChw8c
      ∨ src_format = sum_array.mkldnn_nChw16c)
     ∧ length src_dims = 4%nat ∧ axis = [0; 2; 3]) ∧
  (r.1 = sum_array.empty_tensor ↔ r.2 ≠ sum_array.NOERR).
Proof.
  unfold sum_array.sum_fast_along_axis. simpl. case_bool_decide as Hshape.
  { simpl. split; [|done]. split; [done|]. intros (_ & Hlen & ->).
    destruct Hshape; done. }
  assert (length src_dims = 4%nat ∧ length axis = 3%nat) as [Hdims Haxis].
  { destruct (decide (length src_dims = 4%nat)), (decide (length axis = 3%nat));
      naive_solver. }
  rewrite Haxis. pose proof (valid_axis_3 axis Haxis) as Hvalid.
  destruct src_format; simpl;
    try (split; [|done]; split; [done|by intros ([?|?] & _)]).
  all: destruct (sum_array.valid_axis 3 axis [0; 2; 3]); simpl.
  all: split; [|done]; split; try done.
  all: try (intros _; split; [by auto|split; [done|by apply Hvalid]]).
  all: intros (_ & _ & Heq); apply Hvalid in Heq; done.
Qed.

Lemma sum_common_along_axis_accepts web_opt deps_built src_dims src_data_type
    axis :
  let r := sum_array.sum_common_along_axis web_opt deps_built src_dims
             src_data_type axis in
  let dst_ndims := Z.of_nat (length src_dims) - Z.of_nat (length axis) in
  (r.2 = sum_array.NOERR ↔
     axis ≠ [] ∧ (dst_ndims = 1 ∨ dst_ndims = 2 ∨ dst_ndims = 4)) ∧
  (r.1 = sum_array.empty_tensor ↔ r.2 ≠ sum_array.NOERR).
Proof.
  unfold sum_array.sum_common_along_axis. simpl.
  set (dst_ndims0 := Z.of_nat (length src_dims) - Z.of_nat (length axis)).
  case_bool_decide as Hshape; simpl.
  - split; [|done]. split; [done|]. intros [Haxis Hn].
    destruct Hshape as [Hshape|Hshape]; [lia|].
    by destruct axis.
  - split; [|done]. split; [|done]. intros _. split.
    + intros ->. apply Hshape. by right.
    + destruct (decide (dst_ndims0 = 1)), (decide (dst_ndims0 = 2)),
        (decide (dst_ndims0 = 4)); try by auto.
      destruct Hshape. by left.
Qed.

(** X7: [sum_array::compute] reports [NOERR] exactly when the data type
    is one of the five it knows and either the tensor is four-dimensional
    in [nChw8c] or [nChw16c] with [axis] being [0, 2, 3] in this order, or
    the format is not an optimized one, [axis] is not empty and the source
    has 1, 2 or 4 dims more than [axis] has entries; it returns the empty
    tensor exactly when it reports an error.  A tensor in one of the eight
    blocked weights formats is never summed. *)
Theorem sum_array_compute_accepts (web_opt deps_built : bool) (src_dims : dims)
    (src_data_type : data_type.t) (src_format : sum_array.mkldnn_memory_format_t)
    (axis : list Z) :
  let r := sum_array.compute web_opt deps_built src_dims src_data_type
             src_format axis in
  let dst_ndims := Z.of_nat (length src_dims) - Z.of_nat (length axis) in
  (r.2 = sum_array.NOERR ↔
     src_data_type ≠ data_type.data_undef ∧
     ((src_format = sum_array.mkldnn_nChw8c
       ∨ src_format = sum_array.mkldnn_nChw16c)
      ∧ length src_dims = 4%nat ∧ axis = [0; 2; 3]
      ∨ sum_array.optimized_format src_format = false ∧ axis ≠ []
        ∧ (dst_ndims = 1 ∨ dst_ndims = 2 ∨ dst_ndims = 4))) ∧
  (r.1 = sum_array.empty_tensor ↔ r.2 ≠ sum_array.NOERR) ∧
  (sum_array.optimized_format src_format = true →
   src_format ≠ sum_array.mkldnn_nChw8c →
   src_format ≠ sum_array.mkldnn_nChw16c →
   r.1 = sum_array.empty_tensor).
Proof.
  intros r dst_ndims.
  destruct (decide (src_data_type = data_type.data_undef)) as [->|Hdt].
  { subst r. simpl. split; [|done]. split; [done|]. by intros [? _]. }
  destruct (sum_array.optimized_format src_format) eqn:Hopt.
  - assert (r = sum_array.sum_fast_along_axis web_opt deps_built src_dims
                  src_data_type src_format axis) as ->.
    { subst r. unfold sum_array.compute. rewrite Hopt. by destruct src_data_type. }
    destruct (sum_fast_along_axis_accepts web_opt deps_built src_dims
                src_data_type src_format axis) as [Hok Hempty].
    split; [|split; [done|]].
    + rewrite Hok. split; [by auto|]. intros [_ [?|[? _]]]; done.
    + intros _ H8 H16. apply Hempty. rewrite Hok. by intros [[?|?] _].
  - assert (r = sum_array.sum_common_along_axis web_opt deps_built src_dims
                  src_data_type axis) as ->.
    { subst r. unfold sum_array.compute. rewrite Hopt. by destruct src_data_type. }
    destruct (sum_common_along_axis_accepts web_opt deps_built src_dims
                src_data_type axis) as [Hok Hempty].
    split; [|split; [done|done]].
    rewrite Hok. split; [by auto|]. intros [_ [([->| ->] & _)|[_ ?]]]; done.
Qed.


Section KernelFacts.
Context {data_t : Type} (zero : data_t) (add : data_t → data_t → data_t).
Variable cur_src : list data_t.

Local Abbreviation at_or_zero := (at_or_zero zero cur_src).
Local Abbreviation row_sum := (row_sum zero add cur_src).
Local Abbreviation kernel_state := (kernel_state zero add cur_src).

Lemma accumulate (ws : list data_t) (w i : Z) y :
  0 ≤ w → ws !! Z.to_nat w = Some y →
  0 ≤ i < Z.of_nat (length cur_src) →
  (x <- read cur_src i ;; y <- read ws w ;; write ws w (add y x))%R
  = inr (<[Z.to_nat w := add y (at_or_zero i)]> ws).
Proof.
  intros Hw Hy Hi.
  destruct (lookup_lt_is_Some_2 cur_src (Z.to_nat i)) as [x Hx]; [lia|].
  apply lookup_lt_Some in Hy as Hwlen.
  unfold read, write, rbind, at_or_zero.
  rewrite (bool_decide_eq_true_2 (0 ≤ i)) by lia.
  rewrite (bool_decide_eq_true_2 (0 ≤ w)) by lia. rewrite Hx, Hy. simpl.
  by rewrite (bool_decide_eq_true_2 (0 ≤ w < Z.of_nat (length ws))) by lia.
Qed.

Lemma accumulate_row (ws : list data_t) (w off cur_tail : Z) (ts : list Z) y :
  0 ≤ w → ws !! Z.to_nat w = Some y →
  (∀ t, t ∈ ts → 0 ≤ off + t * cur_tail < Z.of_nat (length cur_src)) →
  for_each ts (λ t ws,
     x <- read cur_src (off + t * cur_tail) ;;
     y <- read ws w ;;
     write ws w (add y x))%R ws
  = inr (<[Z.to_nat w := foldl add y ((λ t, at_or_zero (off + t * cur_tail)) <$> ts)]> ws).
Proof.
  intros Hw. revert ws y. induction ts as [|t ts IH]; intros ws y Hy Hin.
  { simpl. by rewrite list_insert_id. }
  cbn [for_each]. rewrite (accumulate ws w _ y) by (done || apply Hin; by left).
  rewrite (IH _ (add y (at_or_zero (off + t * cur_tail)))).
  - by rewrite list_insert_insert_eq.
  - apply list_lookup_insert_eq. by apply lookup_lt_Some in Hy.
  - intros t' Ht'. apply Hin. by right.
Qed.

Lemma kernel_rounds (cur_fore cur_tail axis_dim n : Z) :
  0 ≤ cur_fore → 0 < cur_tail → 0 ≤ axis_dim →
  cur_fore * axis_dim * cur_tail ≤ Z.of_nat (length cur_src) →
  0 ≤ n ≤ cur_fore * cur_tail →
  for_each (seqZ 0 n) (λ w '(ws, base, off),
      ws <- for_each (seqZ 0 axis_dim) (λ t ws,
              x <- read cur_src (off + t * cur_tail) ;;
              y <- read ws w ;;
              write ws w (add y x)) ws ;;
      let w := w + 1 in
      if bool_decide (0 = w `rem` cur_tail)
      then let off := base + cur_tail * axis_dim in ok (ws, off, off)
      else ok (ws, base, off + 1))%R
    (kernel_state cur_fore cur_tail axis_dim 0)
  = inr (kernel_state cur_fore cur_tail axis_dim n).
Proof.
  intros Hfore Htail Hdim Hsrc [Hn0 Hn]. revert n Hn0 Hn.
  apply (natlike_ind (λ n, n ≤ _ → _ = _)); [done|].
  intros n Hn0 IH Hn. replace (Z.succ n) with (n + 1) by lia.
  rewrite seqZ_app, for_each_app, IH by lia. simpl.
  replace (Z.of_nat 0 + (0 + n)) with n by lia.
  pose proof (Z.div_mod n cur_tail ltac:(lia)) as Hdm.
  pose proof (Z.mod_pos_bound n cur_tail ltac:(lia)) as Hmod.
  assert (0 ≤ n `div` cur_tail < cur_fore) as Hdiv.
  { split; [apply Z.div_pos; lia|apply Z.div_lt_upper_bound; lia]. }
  unfold kernel_state at 1.
  erewrite accumulate_row; [| lia | |].
  2:{ rewrite lookup_app_r; rewrite length_fmap, length_seqZ; [|lia].
      apply lookup_replicate_2. lia. }
  2:{ intros t Ht%elem_of_seqZ. nia. }
  unfold rbind.
  pose proof (Z.div_mod (n + 1) cur_tail ltac:(lia)) as Hdm'.
  pose proof (Z.mod_pos_bound (n + 1) cur_tail ltac:(lia)) as Hmod'.
  rewrite Z.rem_mod_nonneg by lia.
  set (q := n `div` cur_tail) in *. set (r := n `mod` cur_tail) in *.
  assert (<[Z.to_nat n:=foldl add zero
              ((λ t, at_or_zero (q * cur_tail * axis_dim + r + t * cur_tail))
                 <$> seqZ 0 axis_dim)]>
            (((λ w, row_sum cur_tail axis_dim (w `div` cur_tail) (w `mod` cur_tail))
                <$> seqZ 0 n)
               ++ replicate (Z.to_nat (cur_fore * cur_tail - n)) zero)
          = ((λ w, row_sum cur_tail axis_dim (w `div` cur_tail) (w `mod` cur_tail))
               <$> seqZ 0 (n + 1))
              ++ replicate (Z.to_nat (cur_fore * cur_tail - (n + 1))) zero) as ->.
  { rewrite seqZ_app, fmap_app by lia. simpl.
    replace (Z.of_nat 0 + (0 + n)) with n by lia. fold q r.
    replace (Z.to_nat (cur_fore * cur_tail - n))
      with (S (Z.to_nat (cur_fore * cur_tail - (n + 1)))) by lia.
    rewrite insert_app_r_alt; rewrite length_fmap, length_seqZ; [|lia].
    replace (Z.to_nat n - Z.to_nat n)%nat with 0%nat by lia. simpl.
    rewrite <- app_assoc. simpl. do 3 f_equal. unfold row_sum. f_equal.
    apply list_fmap_ext. intros _ t _. f_equal. lia. }
  unfold kernel_state.
  case_bool_decide as Hwrap.
  - rewrite <- Hwrap in *.
    assert ((n + 1) `div` cur_tail = q + 1) as ->.
    { destruct (Z.lt_trichotomy ((n + 1) `div` cur_tail) (q + 1)) as [|[|]]; nia. }
    unfold ok. do 2 f_equal; [f_equal|]; lia.
  - set (q' := (n + 1) `div` cur_tail) in *.
    set (r' := (n + 1) `mod` cur_tail) in *.
    assert (q' = q) as ->.
    { destruct (Z.lt_trichotomy q' q) as [|[|]]; nia. }
    assert (r' = r + 1) as -> by lia.
    unfold ok. do 2 f_equal. lia.
Qed.
End KernelFacts.

(** X8: the kernel of [sum_along_axis] sums along the axis.  On a
    buffer that holds [cur_fore] blocks of [axis_dim] rows of [cur_tail]
    elements (sizes that fit an [int]), it returns a buffer of
    [cur_fore * cur_tail] elements whose element [f * cur_tail + j] is
    [zero] plus the elements [(f * axis_dim + t) * cur_tail + j] of the
    source, for [t] from 0 up to [axis_dim], added in this order. *)
Theorem sum_along_axis_kernel_sums {data_t} (zero : data_t)
    (add : data_t → data_t → data_t) (cur_src : list data_t)
    (cur_fore cur_tail axis_dim : Z) :
  0 ≤ cur_fore → 0 ≤ cur_tail → 0 ≤ axis_dim →
  cur_fore * axis_dim * cur_tail ≤ Z.of_nat (length cur_src) →
  cur_fore * axis_dim * cur_tail ≤ 2147483647 →
  cur_fore * cur_tail ≤ 2147483647 →
  ∃ ws,
    sum_array.sum_along_axis_kernel zero add cur_src cur_fore cur_tail axis_dim
      = inr ws ∧
    Z.of_nat (length ws) = cur_fore * cur_tail ∧
    ∀ f j, 0 ≤ f < cur_fore → 0 ≤ j < cur_tail →
      ws !! Z.to_nat (f * cur_tail + j)
      = Some (foldl add zero
                ((λ t, default zero
                         (cur_src !! Z.to_nat ((f * axis_dim + t) * cur_tail + j)))
                   <$> seqZ 0 axis_dim)).
Proof.
  intros Hfore Htail Hdim Hsrc _ _. unfold sum_array.sum_along_axis_kernel.
  rewrite bool_decide_eq_false_2 by nia. rewrite rbind_ok.
  destruct (decide (cur_tail = 0)) as [->|Hpos].
  { rewrite Z.mul_0_r. simpl. eexists. split; [done|]. split; [done|]. lia. }
  pose proof (kernel_rounds zero add cur_src cur_fore cur_tail axis_dim
                (cur_fore * cur_tail) Hfore ltac:(lia) Hdim Hsrc ltac:(nia))
    as Hrounds.
  unfold kernel_state at 1 in Hrounds. rewrite Zdiv_0_l, Zmod_0_l in Hrounds.
  simpl in Hrounds. rewrite Z.sub_0_r in Hrounds.
  replace (0 * cur_tail * axis_dim + 0) with 0 in Hrounds by lia.
  replace (0 * cur_tail * axis_dim) with 0 in Hrounds by lia.
  rewrite Hrounds. unfold kernel_state. simpl.
  eexists. split; [done|]. rewrite Z.sub_diag. simpl. rewrite app_nil_r.
  split; [rewrite length_fmap, length_seqZ; nia|].
  intros f j Hf Hj.
  rewrite list_lookup_fmap, lookup_seqZ_lt by nia. simpl.
  replace (0 + Z.of_nat (Z.to_nat (f * cur_tail + j))) with (j + f * cur_tail) by nia.
  rewrite Z.div_add, Z.mod_add, Z.div_small, Z.mod_small by lia.
  done.
Qed.

Lemma sum_along_axis_kernel_sums_witness :
  ∃ ws,
    sum_array.sum_along_axis_kernel 0 Z.add [1; 2; 3; 4; 5; 6; 7; 8; 9; 10; 11; 12] 2 2 3
      = inr ws ∧
    Z.of_nat (length ws) = 2 * 2 ∧
    ∀ f j, 0 ≤ f < 2 → 0 ≤ j < 2 →
      ws !! Z.to_nat (f * 2 + j)
      = Some (foldl Z.add 0
                ((λ t, default 0
                         ([1; 2; 3; 4; 5; 6; 7; 8; 9; 10; 11; 12]
                            !! Z.to_nat ((f * 3 + t) * 2 + j)))
                   <$> seqZ 0 3)).
Proof.
  apply (sum_along_axis_kernel_sums 0 Z.add
           [1; 2; 3; 4; 5; 6; 7; 8; 9; 10; 11; 12] 2 2 3); simpl; lia.
Defined.

(** ** [concat] and [spliter] *)

(** The first step of a sequence has the outcome that [H] states. *)
Ltac step_with H :=
  lazymatch type of H with
  | _ = ?r =>
      lazymatch goal with
      | |- rbind ?m _ = _ => replace m with r by (symmetry; exact H)
      end
  end.

Lemma for_each_unit_ok {A} (l : list A) (body : A → unit → result unit) :
  (∀ a, a ∈ l → body a tt = ok tt) → for_each l body tt = ok tt.
Proof.
  induction l as [|a l IH]; intros Hall; [done|]. simpl.
  rewrite Hall by left. apply IH. intros. apply Hall. by right.
Qed.

(** A loop of checks that can only fail in one way fails in this way as
    soon as one of its rounds does. *)
Lemma for_each_unit_fails {A} (l : list A) (body : A → unit → result unit) e a :
  (∀ a, a ∈ l → body a tt = ok tt ∨ body a tt = inl e) →
  a ∈ l → body a tt = inl e →
  for_each l body tt = inl e.
Proof.
  induction l as [|b l IH]; intros Hall Ha Hfail; [by apply elem_of_nil in Ha|].
  simpl. destruct (Hall b ltac:(left)) as [Hb|Hb]; rewrite Hb; [|done].
  apply elem_of_cons in Ha as [->|Ha]; [by rewrite Hfail in Hb|].
  apply IH; [|done..]. intros. apply Hall. by right.
Qed.

Lemma for_each_unit_ok_or_fails {A} (l : list A)
    (body : A → unit → result unit) e :
  (∀ a, a ∈ l → body a tt = ok tt ∨ body a tt = inl e) →
  for_each l body tt = ok tt ∨ for_each l body tt = inl e.
Proof.
  induction l as [|b l IH]; intros Hall; [by left|]. simpl.
  destruct (Hall b ltac:(left)) as [Hb|Hb]; rewrite Hb; [|by right].
  apply IH. intros. apply Hall. by right.
Qed.

Lemma set_dim_ok (d : dims) (axis : nat) (x : Z) :
  (axis < length d)%nat → set_dim d (Z.of_nat axis) x = ok (<[axis := x]> d).
Proof.
  intros Hlt. unfold set_dim. rewrite bool_decide_eq_true_2 by lia.
  by rewrite Nat2Z.id.
Qed.

Lemma insert_dim_ok (d : dims) (axis : nat) (x : Z) :
  (axis ≤ length d)%nat →
  insert_dim d (Z.of_nat axis) x = ok (take axis d ++ x :: drop axis d).
Proof.
  intros Hlt. unfold insert_dim. rewrite bool_decide_eq_true_2 by lia.
  by rewrite Nat2Z.id.
Qed.

Lemma erase_dim_ok (d : dims) (axis : nat) :
  (axis < length d)%nat → erase_dim d (Z.of_nat axis) = ok (delete axis d).
Proof.
  intros Hlt. unfold erase_dim. rewrite bool_decide_eq_true_2 by lia.
  by rewrite Nat2Z.id.
Qed.

Lemma get_dim_ok (d : dims) (axis : nat) :
  (axis < length d)%nat →
  get_dim d (Z.of_nat axis) = ok (default 0 (d !! axis)).
Proof.
  intros Hlt. destruct (lookup_lt_is_Some_2 d axis Hlt) as [x Hx].
  unfold get_dim, dims in *. rewrite bool_decide_eq_true_2 by lia.
  by rewrite Nat2Z.id, Hx.
Qed.

Lemma advance_ok (offset_dims : dims) (axis : nat) (a : Z) :
  (axis < length offset_dims)%nat →
  advance offset_dims (Z.of_nat axis) a
  = ok (<[axis := default 0 (offset_dims !! axis) + a]> offset_dims).
Proof.
  intros Hlt. unfold advance. rewrite get_dim_ok by done. rewrite rbind_ok.
  by apply set_dim_ok.
Qed.

Lemma total_app (l : list Z) (a : Z) : total (l ++ [a]) = total l + a.
Proof. unfold total. by rewrite foldl_app. Qed.

Lemma foldl_add_shift (c d : Z) (l : list Z) :
  foldl Z.add (c + d) l = c + foldl Z.add d l.
Proof.
  revert d. induction l as [|a l IH]; intros d; simpl; [done|].
  by rewrite <- IH, Z.add_assoc.
Qed.

Lemma foldl_add_total (c : Z) (l : list Z) : foldl Z.add c l = c + total l.
Proof. unfold total. by rewrite <- foldl_add_shift, Z.add_0_r. Qed.

Lemma total_cons (a : Z) (l : list Z) : total (a :: l) = a + total l.
Proof.
  unfold total at 1. cbn [foldl]. rewrite (foldl_add_total (0 + a)). lia.
Qed.

(** View [k] of a layout starts where the views before it end. *)
Lemma laid_out_lookup (axis : nat) (offset_dims : dims) (volumes : list dims)
    (extents : list Z) (k : nat) volume :
  length volumes = length extents → (axis < length offset_dims)%nat →
  volumes !! k = Some volume →
  laid_out axis offset_dims volumes extents !! k
  = Some (View volume
            (<[axis := default 0 (offset_dims !! axis) + total (take k extents)]>
               offset_dims)).
Proof.
  unfold dims in *. intros Hlen Haxis. revert offset_dims extents k Hlen Haxis.
  induction volumes as [|v volumes IH]; intros off [|e extents] k Hlen Haxis Hk;
    try done.
  destruct k as [|k]; simpl in *.
  - simplify_eq. unfold total. simpl. rewrite Z.add_0_r.
    destruct (lookup_lt_is_Some_2 off axis Haxis) as [x Hx]. rewrite Hx. simpl.
    by rewrite list_insert_id.
  - unfold dims in *. rewrite (IH _ _ k); [|lia|by rewrite length_insert|done].
    rewrite list_lookup_insert_eq by done. simpl.
    rewrite list_insert_insert_eq. do 3 f_equal.
    rewrite total_cons. lia.
Qed.

Lemma laid_out_length (axis : nat) (offset_dims : dims) (volumes : list dims)
    (extents : list Z) :
  length volumes = length extents →
  length (laid_out axis offset_dims volumes extents) = length volumes.
Proof.
  revert offset_dims extents. induction volumes as [|v volumes IH];
    intros off [|e extents] Hlen; simpl in *; try done.
  f_equal. apply IH. lia.
Qed.

Section ViewsFacts.
Variable reorder_view : view → result unit.
Hypothesis engine_ok : ∀ v, reorder_view v = ok tt.
Variables (axis : nat) (add_axis : bool).

Local Abbreviation extent := (extent_of axis add_axis).
Local Abbreviation volume := (volume_of axis add_axis).

Lemma axis_info_loop (inputs : list tensor) (axis_info : list Z) (c : Z) :
  (add_axis = false → ∀ t, t ∈ inputs → (axis < length (get_dims t))%nat) →
  for_each inputs (λ inputs_k '(axis_info, dst_channels),
     a <- (if add_axis then ok 1 else get_dim (get_dims inputs_k) (Z.of_nat axis)) ;;
     ok (axis_info ++ [a], dst_channels + a))%R
    (axis_info, c)
  = ok (axis_info ++ (extent <$> inputs), c + total (extent <$> inputs)).
Proof.
  revert axis_info c. induction inputs as [|t inputs IH]; intros axis_info c Hdims.
  { simpl. unfold total. simpl. by rewrite app_nil_r, Z.add_0_r. }
  cbn [for_each].
  assert ((if add_axis then ok 1 else get_dim (get_dims t) (Z.of_nat axis))
          = ok (extent t)) as ->.
  { unfold extent_of. destruct add_axis; [done|].
    apply get_dim_ok, Hdims; [done|by left]. }
  rewrite rbind_ok. unfold ok at 1.
  rewrite IH by (intros ? t' ?; apply Hdims; [done|by right]).
  rewrite fmap_cons, <- app_assoc, total_cons. simpl. do 2 f_equal. lia.
Qed.

Lemma views_loop (inputs : list tensor) (axis_info : list Z) (views : list view)
    (offset_dims : dims) :
  length inputs = length axis_info →
  (axis < length offset_dims)%nat →
  (add_axis = true → ∀ t, t ∈ inputs → (axis ≤ length (get_dims t))%nat) →
  ∃ offset_dims',
    for_each (zip inputs axis_info)
      (λ '(inputs_i, axis_info_i) '(views, offset_dims),
         in_dims <- (if add_axis
                     then insert_dim (get_dims inputs_i) (Z.of_nat axis) 1
                     else ok (get_dims inputs_i)) ;;
         let view := View in_dims offset_dims in
         reorder_view view ;;
         offset_dims <- advance offset_dims (Z.of_nat axis) axis_info_i ;;
         ok (views ++ [view], offset_dims))%R
      (views, offset_dims)
    = ok (views ++ laid_out axis offset_dims (volume <$> inputs) axis_info,
          offset_dims').
Proof.
  match goal with |- context [for_each _ ?b _] => set (body := b) end.
  revert axis_info views offset_dims.
  induction inputs as [|t inputs IH]; intros [|a axis_info] views off Hlen Haxis Hdims;
    try done.
  { eexists. simpl. by rewrite app_nil_r. }
  cbn [zip zip_with for_each].
  assert (body (t, a) (views, off)
          = ok (views ++ [View (volume t) off],
                <[axis := default 0 (off !! axis) + a]> off)) as ->.
  { subst body. cbn beta iota.
    assert ((if add_axis then insert_dim (get_dims t) (Z.of_nat axis) 1
             else ok (get_dims t)) = ok (volume t)) as ->.
    { unfold volume_of. destruct add_axis; [|done].
      apply insert_dim_ok, Hdims; [done|by left]. }
    rewrite rbind_ok. cbn zeta. rewrite engine_ok, rbind_ok.
    rewrite advance_ok by done. by rewrite rbind_ok. }
  unfold ok at 1.
  destruct (IH axis_info (views ++ [View (volume t) off])
              (<[axis := default 0 (off !! axis) + a]> off))
    as [off' ->]; [simpl in Hlen; lia|unfold dims; by rewrite length_insert| |].
  { intros ? t' ?. apply Hdims; [done|by right]. }
  exists off'. by rewrite <- app_assoc.
Qed.

Lemma checks_loop (inputs_0 : tensor) (inputs : list tensor) :
  compatible axis add_axis inputs_0 inputs →
  for_each (seqZ 0 (Z.of_nat (length (get_dims inputs_0)))) (λ i _,
    if bool_decide (i = Z.of_nat axis) && negb add_axis then ok tt
    else
      for_each (drop 1 inputs) (λ inputs_j _,
        dj <- get_dim (get_dims inputs_j) i ;;
        d0 <- get_dim (get_dims inputs_0) i ;;
        IDEEP_ENFORCE (bool_decide (dj = d0)) "invalid input dims in concat")%R
      tt) tt
  = ok tt.
Proof.
  intros Hcompatible. apply for_each_unit_ok. intros i Hi%elem_of_seqZ.
  destruct (bool_decide (i = Z.of_nat axis) && negb add_axis) eqn:Hskip; [done|].
  apply for_each_unit_ok. intros t Ht.
  destruct (Hcompatible t) as [Hlen Hsame].
  { by apply (subseteq_drop 1 inputs). }
  specialize (Hsame (Z.to_nat i)).
  destruct (lookup_lt_is_Some_2 (get_dims inputs_0) (Z.to_nat i)) as [d0 Hd0]; [lia|].
  rewrite (get_dim_lookup _ i d0), (get_dim_lookup _ i d0), !rbind_ok; [|lia|done|lia|].
  - unfold IDEEP_ENFORCE. by rewrite bool_decide_eq_true_2.
  - rewrite Hsame; [done|].
    apply andb_false_iff in Hskip as [Hne%bool_decide_eq_false|Hadd].
    + left. lia.
    + right. by destruct add_axis.
Qed.

Lemma concat_compute_spec (inputs_0 : tensor) (rest : list tensor) :
  compatible axis add_axis inputs_0 (inputs_0 :: rest) →
  (axis < length (get_dims inputs_0) + (if add_axis then 1 else 0))%nat →
  let inputs := inputs_0 :: rest in
  let axis_info := extent <$> inputs in
  let dst_dims := joined_dims axis add_axis (get_dims inputs_0) (total axis_info) in
  concat_compute reorder_view inputs (Z.of_nat axis) add_axis
  = ok (Joined axis_info dst_dims (get_data_type inputs_0)
          (if add_axis then None else Some (get_internal_format inputs_0))
          (laid_out axis (replicate (length dst_dims) 0) (volume <$> inputs)
             axis_info)).
Proof.
  intros Hcompatible Haxis inputs axis_info dst_dims.
  assert (∀ t, t ∈ inputs → length (get_dims t) = length (get_dims inputs_0))
    as Hlen by (intros t Ht; by apply Hcompatible).
  unfold concat_compute.
  change (inputs !! 0%nat) with (Some inputs_0). cbn iota. rewrite rbind_ok.
  unfold IDEEP_ENFORCE at 1. rewrite bool_decide_eq_true_2 by (destruct add_axis; lia).
  rewrite rbind_ok, checks_loop, rbind_ok by done.
  rewrite axis_info_loop.
  2:{ intros Hadd t Ht. rewrite Hlen by done. rewrite Hadd in Haxis. lia. }
  rewrite rbind_ok. rewrite app_nil_l, Z.add_0_l. fold inputs axis_info.
  cbn beta iota.
  assert ((if add_axis
           then insert_dim (get_dims inputs_0) (Z.of_nat axis) (total axis_info)
           else set_dim (get_dims inputs_0) (Z.of_nat axis) (total axis_info))
          = ok dst_dims) as ->.
  { subst dst_dims. unfold joined_dims. destruct add_axis.
    - apply insert_dim_ok. lia.
    - apply set_dim_ok. lia. }
  rewrite rbind_ok. cbn beta zeta.
  destruct (views_loop inputs axis_info [] (replicate (length dst_dims) 0))
    as [off' Hloop]; [..|step_with Hloop].
  - subst axis_info. by rewrite length_fmap.
  - rewrite length_replicate. subst dst_dims. unfold joined_dims, dims in *.
    destruct add_axis.
    + rewrite length_app. simpl. rewrite length_take, length_drop. lia.
    + rewrite length_insert. lia.
  - intros Hadd t Ht. rewrite Hlen by done. rewrite Hadd in Haxis. lia.
  - by rewrite rbind_ok.
Qed.

Lemma delete_insert_eq {A} (l : list A) (i : nat) (x : A) :
  delete i (<[i := x]> l) = delete i l.
Proof.
  destruct (decide (i < length l)%nat) as [Hlt|Hge].
  - rewrite insert_take_drop by done.
    rewrite <- (length_take_le l i) at 1 by lia.
    by rewrite delete_middle, delete_take_drop.
  - by rewrite list_insert_ge by lia.
Qed.

Lemma split_loop (input_dims : dims) (axis_info : list Z)
    (outputs : list (view * option dims)) (output_dims offset_dims : dims) :
  (axis < length output_dims)%nat →
  (∀ a, <[axis := a]> output_dims = <[axis := a]> input_dims) →
  (axis < length offset_dims)%nat →
  ∃ output_dims' offset_dims',
    for_each axis_info
      (λ axis_info_i '(outputs, output_dims, offset_dims),
         output_dims <- set_dim output_dims (Z.of_nat axis) axis_info_i ;;
         let view := View output_dims offset_dims in
         reorder_view view ;;
         reshaped <- (if add_axis
                      then out_dims <- erase_dim output_dims (Z.of_nat axis) ;;
                           ok (Some out_dims)
                      else ok None) ;;
         offset_dims <- advance offset_dims (Z.of_nat axis) axis_info_i ;;
         ok (outputs ++ [(view, reshaped)], output_dims, offset_dims))%R
      (outputs, output_dims, offset_dims)
    = ok (outputs
          ++ ((λ v, (v, if add_axis then Some (delete axis input_dims) else None))
                <$> laid_out axis offset_dims
                      ((λ a, <[axis := a]> input_dims) <$> axis_info) axis_info),
          output_dims', offset_dims').
Proof.
  match goal with |- context [for_each _ ?b _] => set (body := b) end.
  unfold dims in *.
  revert outputs output_dims offset_dims.
  induction axis_info as [|a axis_info IH]; intros outputs od off Hod Hsame Hoff.
  { do 2 eexists. simpl. by rewrite app_nil_r. }
  cbn [for_each].
  assert (body a (outputs, od, off)
          = ok (outputs ++ [(View (<[axis := a]> input_dims) off,
                             if add_axis then Some (delete axis input_dims)
                             else None)],
                <[axis := a]> input_dims,
                <[axis := default 0 (off !! axis) + a]> off)) as ->.
  { subst body. cbn beta iota. rewrite set_dim_ok, rbind_ok by done.
    cbn zeta. rewrite engine_ok, rbind_ok.
    destruct add_axis.
    - rewrite erase_dim_ok, !rbind_ok by (unfold dims; by rewrite length_insert).
      rewrite advance_ok, rbind_ok by done.
      unfold dims in *. by rewrite Hsame, delete_insert_eq.
    - rewrite rbind_ok, advance_ok, rbind_ok by done. by rewrite Hsame. }
  unfold ok at 1.
  edestruct (IH (outputs ++ [(View (<[axis := a]> input_dims) off,
                              if add_axis then Some (delete axis input_dims)
                              else None)])
               (<[axis := a]> input_dims)
               (<[axis := default 0 (off !! axis) + a]> off))
    as (od' & off' & ->).
  - rewrite <- Hsame. by rewrite length_insert.
  - intros b. by rewrite list_insert_insert_eq.
  - by rewrite length_insert.
  - exists od', off'. by rewrite <- app_assoc.
Qed.

Lemma spliter_compute_spec (input_dims : dims) (axis_info : list Z) :
  (axis < length input_dims)%nat →
  spliter_compute reorder_view input_dims axis_info (Z.of_nat axis) add_axis
  = ok ((λ v, (v, if add_axis then Some (delete axis input_dims) else None))
          <$> laid_out axis (replicate (length input_dims) 0)
                ((λ a, <[axis := a]> input_dims) <$> axis_info) axis_info).
Proof.
  intros Haxis. unfold spliter_compute, IDEEP_ENFORCE.
  rewrite bool_decide_eq_true_2, rbind_ok by lia. cbn beta zeta.
  destruct (split_loop input_dims axis_info [] input_dims
              (replicate (length input_dims) 0))
    as (od' & off' & Hloop); [done|done|by rewrite length_replicate|].
  cbn beta zeta in Hloop. step_with Hloop. by rewrite rbind_ok.
Qed.
End ViewsFacts.

Lemma replicate_zero_lookup (n axis : nat) :
  default 0 (replicate n 0 !! axis) = 0.
Proof.
  destruct (replicate n 0 !! axis) as [x|] eqn:Hx; [|done].
  by apply lookup_replicate in Hx as [-> _].
Qed.

Lemma joined_dims_length (axis : nat) (add_axis : bool) (d : dims) (c : Z) :
  (axis < length d + (if add_axis then 1 else 0))%nat →
  length (joined_dims axis add_axis d c)
  = (length d + (if add_axis then 1 else 0))%nat.
Proof.
  intros Haxis. unfold joined_dims, dims in *. destruct add_axis.
  - rewrite length_app. simpl. rewrite length_take, length_drop. lia.
  - rewrite length_insert. lia.
Qed.

(** X9: [concat::compute] lays the inputs end to end along the axis.
    When the engine takes every copy and the inputs have the dims of the
    first one (but for the axis, unless an axis is added), of extents that
    are not negative and add up to an [int], the call returns the extents
    of the inputs along the axis, gives [dst] the dims of the first input
    with the sum of the extents at the axis, and copies input [k] into the
    view of [dst] that has the volume of the input and starts, along the
    axis, at the sum of the extents of the inputs before it. *)
Theorem concat_lays_inputs_end_to_end (reorder_view : view → result unit)
    (inputs_0 : tensor) (rest : list tensor) (axis : nat) (add_axis : bool) :
  (∀ v, reorder_view v = ok tt) →
  compatible axis add_axis inputs_0 (inputs_0 :: rest) →
  (axis < length (get_dims inputs_0) + (if add_axis then 1 else 0))%nat →
  (∀ t, t ∈ inputs_0 :: rest → 0 ≤ extent_of axis add_axis t) →
  total (extent_of axis add_axis <$> inputs_0 :: rest) ≤ 2147483647 →
  ∃ r,
    concat_compute reorder_view (inputs_0 :: rest) (Z.of_nat axis) add_axis
      = ok r ∧
    joined_axis_info r = extent_of axis add_axis <$> inputs_0 :: rest ∧
    joined_dst_dims r
      = joined_dims axis add_axis (get_dims inputs_0) (total (joined_axis_info r)) ∧
    length (joined_views r) = length (inputs_0 :: rest) ∧
    ∀ k t, (inputs_0 :: rest) !! k = Some t →
      joined_views r !! k
      = Some (View (volume_of axis add_axis t)
                (<[axis := total (take k (joined_axis_info r))]>
                   (replicate (length (joined_dst_dims r)) 0))).
Proof.
  intros Hengine Hcompatible Haxis _ _.
  eexists. split; [by apply concat_compute_spec|]. cbn [joined_axis_info
    joined_dst_dims joined_views].
  split; [done|]. split; [done|]. split.
  { rewrite laid_out_length; by rewrite !length_fmap. }
  intros k t Hk.
  rewrite (laid_out_lookup _ _ _ _ k (volume_of axis add_axis t)).
  - by rewrite replicate_zero_lookup, Z.add_0_l.
  - by rewrite !length_fmap.
  - rewrite length_replicate, joined_dims_length by done. destruct add_axis; lia.
  - by rewrite list_lookup_fmap, Hk.
Qed.

(** X10: [concat::compute] rejects a dimension mismatch.  When every
    input has as many dims as the first and the axis passes the first
    check, an input that differs from the first in a dim other than the
    axis (in any dim, when an axis is added) makes the call fail the check
    "invalid input dims in concat"; this is before [dst] is touched and
    before the engine is called. *)
Theorem concat_rejects_mismatch (reorder_view : view → result unit)
    (inputs_0 : tensor) (rest : list tensor) (axis : Z) (add_axis : bool)
    (t : tensor) (i : nat) :
  (∀ u, u ∈ rest → length (get_dims u) = length (get_dims inputs_0)) →
  axis < Z.of_nat (length (get_dims inputs_0)) + (if add_axis then 1 else 0) →
  t ∈ rest → (i < length (get_dims inputs_0))%nat →
  Z.of_nat i ≠ axis ∨ add_axis = true →
  get_dims t !! i ≠ get_dims inputs_0 !! i →
  concat_compute reorder_view (inputs_0 :: rest) axis add_axis
  = inl (enforce_failed "invalid input dims in concat").
Proof.
  intros Hlen Haxis Ht Hi Hchecked Hdiff. unfold concat_compute.
  change ((inputs_0 :: rest) !! 0%nat) with (Some inputs_0). cbn iota.
  rewrite rbind_ok. unfold IDEEP_ENFORCE at 1.
  rewrite bool_decide_eq_true_2, rbind_ok by done.
  change (drop 1 (inputs_0 :: rest)) with rest.
  set (inner := λ (j : Z) (inputs_j : tensor) (_ : unit),
         (dj <- get_dim (get_dims inputs_j) j ;;
          d0 <- get_dim (get_dims inputs_0) j ;;
          IDEEP_ENFORCE (bool_decide (dj = d0)) "invalid input dims in concat")%R).
  assert (∀ j u, 0 ≤ j < Z.of_nat (length (get_dims inputs_0)) → u ∈ rest →
            inner j u tt
            = if bool_decide (get_dims u !! Z.to_nat j
                              = get_dims inputs_0 !! Z.to_nat j)
              then ok tt
              else inl (enforce_failed "invalid input dims in concat"))
    as Hinner.
  { intros j u Hj Hu. unfold inner.
    destruct (lookup_lt_is_Some_2 (get_dims inputs_0) (Z.to_nat j)) as [d0 Hd0];
      [lia|].
    destruct (lookup_lt_is_Some_2 (get_dims u) (Z.to_nat j)) as [dj Hdj];
      [rewrite Hlen by done; lia|].
    rewrite (get_dim_lookup _ j dj), (get_dim_lookup _ j d0), !rbind_ok
      by (done || lia).
    unfold dims in *. rewrite Hdj, Hd0. unfold IDEEP_ENFORCE.
    destruct (decide (dj = d0)) as [->|Hne].
    - by rewrite !bool_decide_eq_true_2.
    - rewrite !bool_decide_eq_false_2; [done|congruence|done]. }
  match goal with |- rbind ?m _ = _ =>
    assert (m = inl (enforce_failed "invalid input dims in concat")) as ->; [|done]
  end.
  apply (for_each_unit_fails _ _ _ (Z.of_nat i)).
  - intros j Hj%elem_of_seqZ.
    destruct (bool_decide (j = axis) && negb add_axis); [by left|].
    apply for_each_unit_ok_or_fails. intros u Hu.
    fold (inner j u tt). rewrite Hinner by (done || lia).
    case_bool_decide; by auto.
  - apply elem_of_seqZ. lia.
  - assert (bool_decide (Z.of_nat i = axis) && negb add_axis = false) as ->.
    { destruct Hchecked as [Hne| ->]; [|by rewrite andb_false_r].
      by rewrite bool_decide_eq_false_2. }
    apply (for_each_unit_fails _ _ _ t); [|done|].
    + intros u Hu. fold (inner (Z.of_nat i) u tt). rewrite Hinner by (done || lia).
      case_bool_decide; by auto.
    + fold (inner (Z.of_nat i) t tt). rewrite Hinner by (done || lia).
      rewrite Nat2Z.id. by rewrite bool_decide_eq_false_2.
Qed.


Lemma compatible_dims (axis : nat) (inputs_0 t : tensor) (inputs : list tensor) :
  compatible axis true inputs_0 inputs → t ∈ inputs →
  get_dims t = get_dims inputs_0.
Proof.
  intros Hcompatible Ht. destruct (Hcompatible t Ht) as [_ Hsame].
  apply list_eq. intros i. apply Hsame. by right.
Qed.

Lemma volume_of_joined (axis : nat) (add_axis : bool) (inputs_0 t : tensor)
    (inputs : list tensor) (c : Z) :
  compatible axis add_axis inputs_0 inputs → t ∈ inputs →
  (axis < length (get_dims inputs_0) + (if add_axis then 1 else 0))%nat →
  <[axis := extent_of axis add_axis t]>
    (joined_dims axis add_axis (get_dims inputs_0) c)
  = volume_of axis add_axis t.
Proof.
  intros Hcompatible Ht Haxis. unfold joined_dims, extent_of, volume_of.
  destruct add_axis.
  - rewrite (compatible_dims axis inputs_0 t inputs) by done. unfold dims in *.
    rewrite insert_app_r_alt; rewrite length_take_le; try lia.
    by rewrite Nat.sub_diag.
  - destruct (Hcompatible t Ht) as [Hlen Hsame]. unfold dims in *.
    rewrite list_insert_insert_eq. apply list_eq. intros i.
    destruct (decide (i = axis)) as [->|Hne].
    + rewrite list_lookup_insert_eq by lia.
      destruct (lookup_lt_is_Some_2 (get_dims t) axis) as [x Hx]; [lia|].
      unfold dims in *. by rewrite Hx.
    + rewrite list_lookup_insert_ne by done. symmetry. apply Hsame. by left.
Qed.

Lemma dims_of_joined (axis : nat) (inputs_0 t : tensor) (inputs : list tensor)
    (c : Z) :
  compatible axis true inputs_0 inputs → t ∈ inputs →
  (axis ≤ length (get_dims inputs_0))%nat →
  delete axis (joined_dims axis true (get_dims inputs_0) c) = get_dims t.
Proof.
  intros Hcompatible Ht Haxis.
  rewrite (compatible_dims axis inputs_0 t inputs) by done.
  unfold joined_dims, dims in *.
  rewrite <- (length_take_le (get_dims inputs_0) axis) at 1 by lia.
  by rewrite delete_middle, take_drop.
Qed.

Lemma zip_with_const_snd {A B C} (g : B → C) (c : C) (l : list A) (k : list B) :
  length l = length k → (∀ t, t ∈ k → g t = c) →
  zip_with (λ v t, (v, g t)) l k = (λ v, (v, c)) <$> l.
Proof.
  revert k. induction l as [|v l IH]; intros [|t k] Hlen Hconst; try done.
  simpl. rewrite Hconst by left. f_equal. apply IH; [simpl in Hlen; lia|].
  intros. apply Hconst. by right.
Qed.

(** X12: [spliter::compute] undoes [concat::compute].  When the engine
    takes every copy and the inputs have the dims of the first one (but
    for the axis, unless an axis is added), of extents that are not
    negative and add up to an [int], splitting a tensor that has the dims
    [concat] gave [dst], with the [axis_info] that [concat] returned and
    the same axis, reads exactly the views that [concat] wrote, input by
    input, and, when the axis was added, reshapes every output to the dims
    of the input it came from. *)
Theorem spliter_undoes_concat (reorder_view : view → result unit)
    (inputs_0 : tensor) (rest : list tensor) (axis : nat) (add_axis : bool) :
  (∀ v, reorder_view v = ok tt) →
  compatible axis add_axis inputs_0 (inputs_0 :: rest) →
  (axis < length (get_dims inputs_0) + (if add_axis then 1 else 0))%nat →
  (∀ t, t ∈ inputs_0 :: rest → 0 ≤ extent_of axis add_axis t) →
  total (extent_of axis add_axis <$> inputs_0 :: rest) ≤ 2147483647 →
  ∃ r,
    concat_compute reorder_view (inputs_0 :: rest) (Z.of_nat axis) add_axis
      = ok r ∧
    spliter_compute reorder_view (joined_dst_dims r) (joined_axis_info r)
      (Z.of_nat axis) add_axis
    = ok (zip_with (λ v t, (v, if add_axis then Some (get_dims t) else None))
            (joined_views r) (inputs_0 :: rest)).
Proof.
  intros Hengine Hcompatible Haxis _ _.
  eexists. split; [by apply concat_compute_spec|].
  cbn [joined_axis_info joined_dst_dims joined_views].
  set (inputs := inputs_0 :: rest) in *.
  set (dst_dims := joined_dims axis add_axis (get_dims inputs_0)
                     (total (extent_of axis add_axis <$> inputs))).
  assert (length dst_dims
          = (length (get_dims inputs_0) + (if add_axis then 1 else 0))%nat)
    as Hlen by (by apply joined_dims_length).
  rewrite spliter_compute_spec by (done || destruct add_axis; lia).
  f_equal.
  assert ((λ a, <[axis := a]> dst_dims) <$> (extent_of axis add_axis <$> inputs)
          = volume_of axis add_axis <$> inputs) as ->.
  { rewrite <- list_fmap_compose. apply list_fmap_ext. intros k t Hk. simpl.
    apply (volume_of_joined axis add_axis inputs_0 t inputs); [done| |done].
    by eapply list_elem_of_lookup_2. }
  symmetry. apply zip_with_const_snd.
  - rewrite laid_out_length; by rewrite !length_fmap.
  - intros t Ht. destruct add_axis; [|done]. f_equal. symmetry.
    apply (dims_of_joined axis inputs_0 t inputs); [done..|lia].
Qed.

Lemma pieces_compatible : compatible 1 false piece_a [piece_a; piece_b].
Proof.
  intros t Ht.
  repeat (apply elem_of_cons in Ht as [->|Ht]); [..|by apply elem_of_nil in Ht].
  all: split; [reflexivity|].
  all: intros [|[|[|i]]] [Hi|Hi]; done.
Qed.

Lemma pieces_extents t : t ∈ [piece_a; piece_b] → 0 ≤ extent_of 1 false t.
Proof.
  intros Ht.
  repeat (apply elem_of_cons in Ht as [->|Ht]); [..|by apply elem_of_nil in Ht].
  all: vm_compute; discriminate.
Qed.

Lemma concat_lays_inputs_end_to_end_witness :
  ∃ r,
    concat_compute (λ _, ok tt) [piece_a; piece_b] (Z.of_nat 1) false = ok r ∧
    joined_axis_info r = extent_of 1 false <$> [piece_a; piece_b] ∧
    joined_dst_dims r
      = joined_dims 1 false (get_dims piece_a) (total (joined_axis_info r)) ∧
    length (joined_views r) = length [piece_a; piece_b] ∧
    ∀ k t, [piece_a; piece_b] !! k = Some t →
      joined_views r !! k
      = Some (View (volume_of 1 false t)
                (<[1%nat := total (take k (joined_axis_info r))]>
                   (replicate (length (joined_dst_dims r)) 0))).
Proof.
  apply (concat_lays_inputs_end_to_end (λ _, ok tt) piece_a [piece_b] 1 false).
  - done.
  - apply pieces_compatible.
  - simpl. lia.
  - apply pieces_extents.
  - vm_compute. discriminate.
Defined.

Lemma concat_rejects_mismatch_witness :
  concat_compute (λ _, ok tt) [piece_a; piece_b] 0 false
  = inl (enforce_failed "invalid input dims in concat").
Proof.
  apply (concat_rejects_mismatch (λ _, ok tt) piece_a [piece_b] 0 false
           piece_b 1).
  - intros u Hu. apply list_elem_of_singleton in Hu as ->. reflexivity.
  - simpl. lia.
  - by apply list_elem_of_singleton.
  - simpl. lia.
  - left. lia.
  - discriminate.
Defined.


Lemma spliter_undoes_concat_witness :
  ∃ r,
    concat_compute (λ _, ok tt) [piece_a; piece_b] (Z.of_nat 1) false = ok r ∧
    spliter_compute (λ _, ok tt) (joined_dst_dims r) (joined_axis_info r)
      (Z.of_nat 1) false
    = ok (zip_with (λ v t, (v, if false then Some (get_dims t) else None))
            (joined_views r) [piece_a; piece_b]).
Proof.
  apply (spliter_undoes_concat (λ _, ok tt) piece_a [piece_b] 1 false).
  - done.
  - apply pieces_compatible.
  - simpl. lia.
  - apply pieces_extents.
  - vm_compute. discriminate.
Defined.

(** ** Eager and deferred calls *)

Section CallsFacts.
Context `{!Env}.

Lemma web_blind_ret {A} (a : A) : web_blind (ret a).
Proof. done. Qed.

Lemma web_blind_bind {A B} (m : M world A) (f : A → M world B) :
  web_blind m → (∀ a, web_blind (f a)) → web_blind (bind m f).
Proof.
  intros Hm Hf w nodes. unfold bind. rewrite Hm.
  destruct (m w) as [[e|a] w1]; [done|]. apply Hf.
Qed.

Lemma web_blind_submit e : web_blind (submit e).
Proof. intros w nodes. unfold submit. by destruct (execute_ok e). Qed.

Lemma web_blind_fetch kind key : web_blind (fetch_or_create_m kind key).
Proof.
  intros w nodes. unfold fetch_or_create_m. simpl.
  by destruct (Cache.fetch_or_create_m _ _ _ _ _) as [[c|] cs].
Qed.

(** A reorder that is not left to the web, and so [do_compute], neither
    look at the queue of the web nor change it. *)
Lemma web_blind_reorder_compute sync_reorder input output attr :
  web_blind (reorder_compute sync_reorder false input output attr).
Proof.
  unfold reorder_compute. destruct (is_empty input || is_empty output).
  { apply web_blind_ret. }
  apply web_blind_bind; [apply web_blind_fetch|]. intros op.
  rewrite andb_false_l. apply web_blind_submit.
Qed.

Lemma web_blind_do_compute comp src weights bias src_in weights_in dst :
  web_blind (do_compute comp src weights bias src_in weights_in dst).
Proof.
  unfold do_compute.
  apply web_blind_bind.
  { destruct (reorder_needed src src_in);
      [apply web_blind_reorder_compute|apply web_blind_ret]. }
  intros _. apply web_blind_bind.
  { destruct (reorder_needed weights weights_in);
      [apply web_blind_reorder_compute|apply web_blind_ret]. }
  intros _. apply web_blind_submit.
Qed.

Lemma web_blind_keeps {A} (m : M world A) w r w' :
  web_blind m → m w = (r, w') → web w' = web w.
Proof.
  intros Hm Hrun. specialize (Hm w (web w)).
  replace (with_web w (web w)) with w in Hm by (by destruct w).
  rewrite Hrun in Hm. injection Hm as ->. done.
Qed.

Lemma fetch_or_create_m_keeps kind key w r w' :
  fetch_or_create_m kind key w = (r, w') →
  web w' = web w ∧ trace w' = trace w.
Proof.
  unfold fetch_or_create_m.
  destruct (Cache.fetch_or_create_m _ _ _ _ _) as [[c|] cs]; by intros [= <- <-].
Qed.

(** What [create_computation] does with [web_opt] it does without, but
    for the two closures of the computation it returns; and it submits
    nothing to the engine and queues nothing. *)
Lemma create_computation_without_web src weights bias dst_dims dst strides
    dilates padding_l padding_r attr alg prop pad w res w1 :
  create_computation true src weights bias dst_dims dst strides dilates
    padding_l padding_r attr alg prop pad w = (res, w1) →
  create_computation false src weights bias dst_dims dst strides dilates
    padding_l padding_r attr alg prop pad w
  = (match res with
     | inr r => inr (Created (plain (comp_cached (cr_comp r))) (cr_dst r)
                       (cr_weights r) (cr_src_in r) (cr_weights_in r))
     | inl e => inl e
     end, w1) ∧
  web w1 = web w ∧ trace w1 = trace w.
Proof.
  unfold create_computation, bind.
  destruct (fetch_or_create_m _ _ w) as [[e|c] w0] eqn:Hfetch;
    apply fetch_or_create_m_keeps in Hfetch as [Hweb Htrace].
  { by intros [= <- <-]. }
  rewrite negotiate_spec.
  destruct (decide (get_descriptor src = expected_src_descriptor c));
    cbn beta iota; rewrite negotiate_spec;
    destruct (decide (get_descriptor (as_weights weights)
                      = expected_weights_descriptor c));
    cbn beta iota; unfold allocate, ret; cbn; by intros [= <- <-].
Qed.

(** [do_compute] does not look at the closures of the computation. *)
Lemma do_compute_plain comp src weights bias src_in weights_in dst :
  do_compute (plain (comp_cached comp)) src weights bias src_in weights_in dst
  = do_compute comp src weights bias src_in weights_in dst.
Proof. done. Qed.
End CallsFacts.

(** X13: a convolution with a bias that is called with [web_opt] is the
    same convolution without it, now or later.  Whatever the overload of
    [compute_impl] that takes a bias returns with [web_opt], either it
    queued nothing and the call without [web_opt] returns the same and
    leaves the same state; or it handed back [dst], submitted nothing to
    the engine and queued one node whose target is [dst], and firing this
    node in the state the call left ends as the call without [web_opt]
    ends from the state before: the same outcome, the same caches, engine
    calls and allocator.  (The overload without a bias is another
    function: with [web_opt] it derives its key from the dims of a bias
    and runs with [zero_bias()].) *)
Theorem convolution_web_opt_defers_the_eager_call `{!Env}
    (src weights bias : tensor) (dst_dims : dims) (dst : tensor)
    (strides dilates padding_l padding_r : dims) (attr : attr_t.t)
    (alg : algorithm.t) (prop : prop_kind.t) (pad : padding_kind.t)
    (w w' : world) (res : error + tensor) :
  compute_impl true src weights bias dst_dims dst strides dilates padding_l
    padding_r attr alg prop pad w = (res, w') →
  (web w' = web w ∧
   compute_impl false src weights bias dst_dims dst strides dilates padding_l
     padding_r attr alg prop pad w = (res, w'))
  ∨ (∃ cn dst',
       res = inr dst' ∧ web w' = web w ++ [cn] ∧ trace w' = trace w ∧
       cn_tars cn = [dst'] ∧
       ∃ outcome w2,
         fire_computation_node (cn_comp cn) (cn_deps cn) (cn_tars cn) w'
           = (outcome, with_web w2 (web w')) ∧
         compute_impl false src weights bias dst_dims dst strides dilates
           padding_l padding_r attr alg prop pad w
           = (match outcome with
              | inr _ => inr dst'
              | inl e => inl e
              end, w2)).
Proof.
  intros Hrun. unfold compute_impl, bind in Hrun |- *.
  destruct (create_computation true _ _ _ _ _ _ _ _ _ _ _ _ _ w)
    as [[e|r] w1] eqn:Hcreate;
    apply create_computation_without_web in Hcreate
      as (Heager & Hweb & Htrace); rewrite Heager.
  { injection Hrun as <- <-. by left. }
  cbn beta iota zeta in Hrun |- *.
  cbn [cr_comp cr_dst cr_weights cr_src_in cr_weights_in].
  rewrite do_compute_plain.
  unfold build_deps in Hrun. cbn beta iota in Hrun.
  destruct (deps_built _ _ _) in Hrun; cbn [fst snd] in Hrun;
    cbn beta iota in Hrun.
  - right. unfold enqueue, ret in Hrun. cbn in Hrun.
    injection Hrun as <- <-.
    eexists _, _. cbn [web trace cn_tars cn_comp cn_deps].
    split; [done|]. split; [by rewrite Hweb|]. split; [done|]. split; [done|].
    destruct (do_compute (cr_comp r) src (cr_weights r) bias (cr_src_in r)
                (cr_weights_in r) (cr_dst r) w1) as [outcome w2] eqn:Hdo.
    exists outcome, w2. split; [|by destruct outcome].
    pose proof (web_blind_do_compute (cr_comp r) src (cr_weights r) bias
                  (cr_src_in r) (cr_weights_in r) (cr_dst r) w1
                  (web w1 ++ [Node op_convolution_forward (cr_comp r)
                     CN_PROP_FORWARD no_fusion
                     [src; cr_weights r; bias; cr_src_in r; cr_weights_in r]
                     [cr_dst r]])) as Hblind.
    rewrite Hdo in Hblind. unfold with_web in Hblind at 1.
    exact Hblind.
  - left.
    destruct (do_compute (cr_comp r) src (cr_weights r) bias (cr_src_in r)
                (cr_weights_in r) (cr_dst r) w1) as [outcome w2] eqn:Hdo.
    apply (web_blind_keeps _ _ _ _ (web_blind_do_compute _ _ _ _ _ _ _)) in Hdo
      as Hkeeps.
    split; [|done]. rewrite <- Hweb, <- Hkeeps.
    by destruct outcome; injection Hrun as <- <-.
Qed.

(** The first convolution of the sample process is deferred, and its
    node fires as the call without the web runs: a reorder of the weights
    and the convolution. *)
Lemma convolution_web_opt_defers_the_eager_call_witness :
  ∃ cn w2,
    web (deferred_convolution.2) = [cn] ∧
    trace (deferred_convolution.2) = [] ∧
    fire_computation_node (H:=Sample.env) (cn_comp cn) (cn_deps cn) (cn_tars cn)
      (deferred_convolution.2) = (inr tt, with_web w2 [cn]) ∧
    compute_impl (H:=Sample.env) false Sample.src Sample.weights Sample.bias
      Sample.dst_dims Sample.dst [1; 1] [1; 1] [1; 1] [1; 1] attr_t.create
      algorithm.convolution_direct prop_kind.forward padding_kind.zero
      Sample.start = (inr (cr_dst Sample.convolution), w2) ∧
    length (trace w2) = 2%nat.
Proof.
  destruct (convolution_web_opt_defers_the_eager_call (H:=Sample.env)
              Sample.src Sample.weights Sample.bias Sample.dst_dims Sample.dst
              [1; 1] [1; 1] [1; 1] [1; 1] attr_t.create
              algorithm.convolution_direct prop_kind.forward padding_kind.zero
              Sample.start (deferred_convolution.2)
              (inr (cr_dst Sample.convolution)) eq_refl)
    as [[Hweb _]|(cn & dst' & Hres & Hweb & Htrace & Htars & outcome & w2
                  & Hfire & Heager)].
  { discriminate Hweb. }
  exists cn, w2. injection Hres as <-.
  rewrite Hweb in Hfire. change (web Sample.start ++ [cn]) with [cn] in *.
  assert (outcome = inr tt) as ->.
  { destruct outcome as [e|[]]; [|done].
    vm_compute in Heager. discriminate Heager. }
  repeat split; try done.
  vm_compute in Heager. by injection Heager as <-.
Defined.

(** ** Deferred reorders and activations *)

(** X14: a reorder called with [web_opt] is the reorder without it, now
    or later.  Whatever [reorder::compute] with [web_opt] returns, either
    it queued nothing and the call without [web_opt] returns the same and
    leaves the same state; or the reorder is not a synchronous one, the
    call submitted nothing to the engine and queued one node from [input]
    to [output], and firing this node in the state the call left ends as
    the call without [web_opt] ends from the state before: the same
    outcome, the same caches, engine calls and allocator. *)
Theorem reorder_web_opt_defers_the_eager_call `{!Env} (sync_reorder : bool)
    (input output : tensor) (attr : attr_t.t) (w w' : world)
    (res : error + unit) :
  reorder_compute sync_reorder true input output attr w = (res, w') →
  (web w' = web w ∧
   reorder_compute sync_reorder false input output attr w = (res, w'))
  ∨ (sync_reorder = false ∧
     ∃ cn,
       res = inr tt ∧ web w' = web w ++ [cn] ∧ trace w' = trace w ∧
       cn_deps cn = [input] ∧ cn_tars cn = [output] ∧
       ∃ outcome w2,
         reorder_fire_computation_node (cn_comp cn) (cn_deps cn) (cn_tars cn) w'
           = (outcome, with_web w2 (web w')) ∧
         reorder_compute sync_reorder false input output attr w = (outcome, w2)).
Proof.
  unfold reorder_compute.
  destruct (is_empty input || is_empty output).
  { intros [= <- <-]. by left. }
  unfold bind.
  destruct (fetch_or_create_m _ _ w) as [[e|op] w1] eqn:Hfetch;
    apply fetch_or_create_m_keeps in Hfetch as [Hweb Htrace].
  { intros [= <- <-]. by left. }
  rewrite andb_false_l, andb_true_l.
  destruct sync_reorder; cbn [negb].
  { intros Hrun. left. split; [|done].
    apply (web_blind_keeps _ _ _ _ (web_blind_submit _)) in Hrun. congruence. }
  unfold build_deps. cbn beta iota.
  destruct (deps_built _ _ _); cbn [fst snd]; cbn beta iota.
  - unfold enqueue. intros [= <- <-]. right. split; [done|].
    eexists. cbn [web trace cn_deps cn_tars cn_comp create].
    split; [done|]. split; [by rewrite Hweb|]. split; [done|].
    split; [done|]. split; [done|].
    destruct (reorder_do_compute op input output w1) as [outcome w2] eqn:Hdo.
    exists outcome, w2. split; [|done].
    pose proof (web_blind_submit (ev_reorder op input output) w1
                  (web w1 ++ [Node op_reorder (plain op) CN_PROP_NA no_fusion
                                [input] [output]])) as Hblind.
    unfold reorder_do_compute in Hdo. rewrite Hdo in Hblind. exact Hblind.
  - intros Hrun. left. split; [|done].
    apply (web_blind_keeps _ _ _ _ (web_blind_submit _)) in Hrun. congruence.
Qed.

(** The reorder that [direct_copy::compute] asks for is deferred in the
    sample process, and its node fires as the reorder without the web
    runs: one call to the engine. *)
Lemma reorder_web_opt_defers_the_eager_call_witness :
  ∃ cn w2,
    web (deferred_reorder.2) = [cn] ∧
    trace (deferred_reorder.2) = [] ∧
    reorder_fire_computation_node (H:=Sample.env) (cn_comp cn) (cn_deps cn)
      (cn_tars cn) (deferred_reorder.2) = (inr tt, with_web w2 [cn]) ∧
    reorder_compute (H:=Sample.env) false false Sample.src Sample.dst
      attr_t.create Sample.start = (inr tt, w2) ∧
    length (trace w2) = 1%nat.
Proof.
  destruct (reorder_web_opt_defers_the_eager_call (H:=Sample.env) false
              Sample.src Sample.dst attr_t.create Sample.start
              (deferred_reorder.2) (inr tt) eq_refl)
    as [[Hweb _]|(_ & cn & _ & Hweb & Htrace & _ & _ & outcome & w2
                  & Hfire & Heager)].
  { discriminate Hweb. }
  exists cn, w2.
  rewrite Hweb in Hfire. change (web Sample.start ++ [cn]) with [cn] in *.
  assert (outcome = inr tt) as ->.
  { destruct outcome as [e|[]]; [|done].
    vm_compute in Heager. discriminate Heager. }
  repeat split; try done.
  vm_compute in Heager. by injection Heager as <-.
Defined.

(** X15: an activation called with [web_opt] is the activation without
    it, now or later.  Whatever [eltwise_forward::compute] with [web_opt]
    returns, either it queued nothing and the call without [web_opt]
    returns the same and leaves the same state; or it handed back [dst],
    submitted nothing to the engine and queued one node from [src] to
    [dst], which offers its producer [CN_FUSION_RELU] with [alpha] and
    [beta] when the algorithm is [eltwise_relu] and no fusion otherwise;
    firing this node in the state the call left ends as the call without
    [web_opt] ends from the state before. *)
Theorem eltwise_web_opt_defers_the_eager_call `{!Env} (src dst : tensor)
    (alg : algorithm.t) (prop : prop_kind.t) (alpha beta : float)
    (w w' : world) (res : error + tensor) :
  eltwise_forward_compute true src dst alg prop alpha beta w = (res, w') →
  (web w' = web w ∧
   eltwise_forward_compute false src dst alg prop alpha beta w = (res, w'))
  ∨ (∃ cn dst',
       res = inr dst' ∧ web w' = web w ++ [cn] ∧ trace w' = trace w ∧
       cn_deps cn = [src] ∧ cn_tars cn = [dst'] ∧
       cn_fattr cn = (if decide (alg = algorithm.eltwise_relu)
                      then FusionAttr CN_FUSION_RELU [alpha; beta] []
                      else no_fusion) ∧
       ∃ outcome w2,
         eltwise_forward_fire_computation_node (cn_comp cn) (cn_deps cn)
           (cn_tars cn) w' = (outcome, with_web w2 (web w')) ∧
         eltwise_forward_compute false src dst alg prop alpha beta w
           = (match outcome with
              | inr _ => inr dst'
              | inl e => inl e
              end, w2)).
Proof.
  unfold eltwise_forward_compute, bind.
  destruct (fetch_or_create_m _ _ w) as [[e|comp] w1] eqn:Hfetch;
    apply fetch_or_create_m_keeps in Hfetch as [Hweb Htrace].
  { intros [= <- <-]. by left. }
  destruct (negb (tensor_eq dst src)); unfold allocate, ret; cbn beta iota zeta;
    [set (w1' := World (caches w1) (web w1) (trace w1) (N.succ (next_buffer w1)));
     set (dst1 := reinit dst (get_descriptor src) (next_buffer w1));
     assert (web w1' = web w) as Hweb' by exact Hweb;
     assert (trace w1' = trace w) as Htrace' by exact Htrace;
     clearbody w1' dst1; clear Hweb Htrace
    |rename w1 into w1', dst into dst1, Hweb into Hweb', Htrace into Htrace'].
  all: cbn beta iota zeta.
  all: unfold build_deps; cbn beta iota;
    destruct (deps_built _ _ _); cbn [fst snd]; cbn beta iota;
    [unfold enqueue; cbn; intros [= <- <-]; right;
     eexists _, _; cbn [web trace cn_deps cn_tars cn_comp cn_fattr create];
     (split; [done|]); (split; [by rewrite Hweb'|]); (split; [done|]);
     (split; [done|]); (split; [done|]); (split; [done|]);
     destruct (submit (ev_execute op_eltwise_forward comp [src] dst1) w1')
       as [outcome w2] eqn:Hdo;
     exists outcome, w2; (split; [|by destruct outcome]);
     pose proof (web_blind_submit (ev_execute op_eltwise_forward comp [src] dst1)
                   w1' (web w1' ++ [Node op_eltwise_forward (plain comp)
                      CN_PROP_FORWARD
                      (if decide (alg = algorithm.eltwise_relu)
                       then FusionAttr CN_FUSION_RELU [alpha; beta] []
                       else no_fusion) [src] [dst1]])) as Hblind;
     rewrite Hdo in Hblind; exact Hblind
    |intros Hrun; left; (split; [|done]);
     destruct (submit (ev_execute op_eltwise_forward comp [src] dst1) w1')
       as [outcome w2] eqn:Hdo;
     apply (web_blind_keeps _ _ _ _ (web_blind_submit _)) in Hdo;
     rewrite <- Hweb', <- Hdo; by destruct outcome; injection Hrun as <- <-].
Qed.

(** A relu of the sample process is deferred with the relu attribute, and
    its node fires as the relu without the web runs. *)
Lemma eltwise_web_opt_defers_the_eager_call_witness :
  ∃ cn dst' w2,
    web (deferred_relu.2) = [cn] ∧
    cn_fattr cn = FusionAttr CN_FUSION_RELU [float_0_0; float_0_0] [] ∧
    eltwise_forward_fire_computation_node (H:=Sample.env) (cn_comp cn)
      (cn_deps cn) (cn_tars cn) (deferred_relu.2) = (inr tt, with_web w2 [cn]) ∧
    eltwise_forward_compute (H:=Sample.env) false Sample.src Sample.dst
      algorithm.eltwise_relu prop_kind.forward float_0_0 float_0_0 Sample.start
    = (inr dst', w2) ∧
    length (trace w2) = 1%nat.
Proof.
  destruct (eltwise_web_opt_defers_the_eager_call (H:=Sample.env) Sample.src
              Sample.dst algorithm.eltwise_relu prop_kind.forward float_0_0
              float_0_0 Sample.start (deferred_relu.2) (deferred_relu.1) eq_refl)
    as [[Hweb _]|(cn & dst' & _ & Hweb & _ & _ & _ & Hfattr & outcome & w2
                  & Hfire & Heager)].
  { discriminate Hweb. }
  exists cn, dst', w2.
  rewrite Hweb in Hfire. change (web Sample.start ++ [cn]) with [cn] in *.
  assert (outcome = inr tt) as ->.
  { destruct outcome as [e|[]]; [|done].
    vm_compute in Heager. discriminate Heager. }
  repeat split; try done.
  vm_compute in Heager. by injection Heager as _ <-.
Defined.
